(** * Application-lifecycle facade of baetyl-cloud (facade/application.go)

    A shallow embedding of the facade that sequences writes to the
    application, cron, node, index and configuration stores under one
    transaction, together with the properties of its four operations
    [GetApp], [CreateApp], [UpdateApp] and [DeleteApp]. *)

From Stdlib Require Import ZArith String List Lia.
From stdpp Require Import gmap strings list fin_maps.

Local Open Scope string_scope.
Local Open Scope list_scope.

(** ** Data model (the fields of specV1 and models the facade touches) *)

(** Modelled from the spec: the declaration of [specV1.CronStatusCode] is
    not part of the facade's file; the spec lists the three states. *)
Inductive CronStatusCode := CronNotSet | CronWait | CronScheduled.

#[global] Instance CronStatusCode_eq_dec : EqDecision CronStatusCode.
Proof. solve_decision. Defined.

Record ObjectReference := mkObjectReference {
  orName : string;
  orVersion : string }.

(** A volume; [VolumeSource.Config] and [VolumeSource.Secret] are pointers. *)
Record Volume := mkVolume {
  volName : string;
  volConfig : option ObjectReference;
  volSecret : option ObjectReference }.

Record Application := mkApplication {
  aName : string;
  aNamespace : string;
  aVersion : string;
  aSelector : string;
  aCronStatus : CronStatusCode;
  aCronTime : Z;
  aVolumes : list Volume }.

Record Configuration := mkConfiguration {
  cfgName : string;
  cfgNamespace : string;
  cfgVersion : string }.

(** [models.Cron] *)
Record Cron := mkCron {
  cName : string;
  cNamespace : string;
  cSelector : string;
  cCronTime : Z }.

(** [app.Selector = s] *)
Definition setSelector (a : Application) (s : string) : Application :=
  {| aName := aName a; aNamespace := aNamespace a; aVersion := aVersion a;
     aSelector := s; aCronStatus := aCronStatus a; aCronTime := aCronTime a;
     aVolumes := aVolumes a |}.

Definition FunctionConfigPrefix : string := "baetyl-function-config".
Definition FunctionProgramConfigPrefix : string := "baetyl-function-program-config".

(** ** Errors, faults and the record of collaborator calls *)

Inductive error :=
| ErrForced (code : nat)      (* a failure injected into a collaborator *)
| ErrNotFound
| ErrTxDone                   (* a store used with a closed transaction *)
| Trace (e : error).          (* errors.Trace *)

Inductive panicv :=
| NilDeref (line : nat)       (* nil pointer dereference at a source line *)
| PanicForced (code : nat).   (* a fault injected into a collaborator *)

Inductive outcome (A : Type) :=
| Ret (a : A)
| Fail (e : error)
| Fault (p : panicv).
Arguments Ret {A} a.
Arguments Fail {A} e.
Arguments Fault {A} p.

Inductive Call :=
| AppGet (ns name version : string)
| AppCreateWithBase (ns : string) (app : Application) (base : option Application)
| AppUpdate (ns : string) (app : Application)
| AppDelete (ns name version : string)
| CronGet (name ns : string)
| CronCreate (c : Cron)
| CronUpdate (c : Cron)
| CronDelete (name ns : string)
| NodeUpdateAppVersion (ns : string) (app : Application)
| NodeDeleteAppVersion (ns : string) (app : Application)
| IndexRefresh (ns appName : string) (nodes : list string)
| ConfigUpsert (ns : string) (cfg : Configuration)
| ConfigDelete (ns name : string)
| TxBegin
| TxCommit
| TxRollback.

Inductive Reply :=
| Done
| Failed (e : error)
| Panicked (p : panicv).

(** What the environment does to a collaborator call. *)
Inductive decision :=
| Proceed
| ForceErr (code : nat)
| ForcePanic (code : nat).

(** common.LogDirtyData(err, type, namespace, name) *)
Inductive ResourceType := ConfigResource.

Record DirtyData := mkDirtyData {
  ddErr : error;
  ddType : ResourceType;
  ddNamespace : string;
  ddName : string }.

(** ** The stores *)

(** The stores written through a transaction handle. *)
Record Stores := mkStores {
  apps : gmap (string * string) Application;       (* (namespace, name) *)
  configs : gmap (string * string) Configuration;  (* (namespace, name) *)
  nodeApps : gset (string * string * string);      (* (namespace, node, app) *)
  index : gmap (string * string) (list string) }.  (* (namespace, app) -> nodes *)

Record World := mkWorld {
  committed : Stores;
  pending : option Stores;                 (* working copy of the open transaction *)
  crons : gmap (string * string) Cron;     (* (name, namespace); no transaction *)
  dirty : list DirtyData;
  trace : list (Call * Reply) }.

Definition setCommitted (s : Stores) (w : World) : World :=
  mkWorld s (pending w) (crons w) (dirty w) (trace w).
Definition setPending (p : option Stores) (w : World) : World :=
  mkWorld (committed w) p (crons w) (dirty w) (trace w).
Definition setCrons (c : gmap (string * string) Cron) (w : World) : World :=
  mkWorld (committed w) (pending w) c (dirty w) (trace w).
Definition addDirty (d : DirtyData) (w : World) : World :=
  mkWorld (committed w) (pending w) (crons w) (dirty w ++ [d]) (trace w).
Definition record (c : Call) (r : Reply) (w : World) : World :=
  mkWorld (committed w) (pending w) (crons w) (dirty w) (trace w ++ [(c, r)]).

Definition setApps (m : gmap (string * string) Application) (s : Stores) : Stores :=
  mkStores m (configs s) (nodeApps s) (index s).
Definition setConfigs (m : gmap (string * string) Configuration) (s : Stores) : Stores :=
  mkStores (apps s) m (nodeApps s) (index s).
Definition setNodeApps (m : gset (string * string * string)) (s : Stores) : Stores :=
  mkStores (apps s) (configs s) m (index s).
Definition setIndex (m : gmap (string * string) (list string)) (s : Stores) : Stores :=
  mkStores (apps s) (configs s) (nodeApps s) m.

(** The updates the stores carry out. *)
Definition putApp (ns : string) (a : Application) (s : Stores) : Stores :=
  setApps (<[(ns, aName a) := a]> (apps s)) s.
Definition dropApp (ns name : string) (s : Stores) : Stores :=
  setApps (delete (ns, name) (apps s)) s.
Definition putConfig (ns : string) (cfg : Configuration) (s : Stores) : Stores :=
  setConfigs (<[(ns, cfgName cfg) := cfg]> (configs s)) s.
Definition dropConfig (ns name : string) (s : Stores) : Stores :=
  setConfigs (delete (ns, name) (configs s)) s.
Definition assignNodes (ns : string) (a : Application) (nodes : list string)
    (s : Stores) : Stores :=
  setNodeApps (nodeApps s ∪ list_to_set (map (fun n => (ns, n, aName a)) nodes)) s.
Definition unassignNodes (ns : string) (a : Application) (nodes : list string)
    (s : Stores) : Stores :=
  setNodeApps (nodeApps s ∖ list_to_set (map (fun n => (ns, n, aName a)) nodes)) s.
Definition putIndex (ns name : string) (nodes : list string) (s : Stores) : Stores :=
  setIndex (<[(ns, name) := nodes]> (index s)) s.

Definition emptyStores : Stores := mkStores ∅ ∅ ∅ ∅.
Definition emptyWorld : World := mkWorld emptyStores None ∅ [] [].

(** The nodes an application is indexed on; an absent entry is the empty set. *)
Definition indexOf (s : Stores) (ns name : string) : list string :=
  default [] (index s !! (ns, name)).

(** ** The monad of facade code: world passing, errors and faults *)

Definition M (A : Type) : Type := World -> outcome A * World.

Definition ret {A} (a : A) : M A := fun w => (Ret a, w).

Definition bind {A B} (m : M A) (f : A -> M B) : M B := fun w =>
  match m w with
  | (Ret a, w') => f a w'
  | (Fail e, w') => (Fail e, w')
  | (Fault p, w') => (Fault p, w')
  end.

Notation "'let*' x := m 'in' k" := (bind m (fun x => k))
  (at level 10, x name, m at level 200, k at level 200).
Notation "m ;; k" := (bind m (fun _ => k))
  (at level 100, k at level 200, right associativity).

(** [return nil, errors.Trace(err)] *)
Definition traced {A} (m : M A) : M A := fun w =>
  match m w with
  | (Fail e, w') => (Fail (Trace e), w')
  | r => r
  end.

(** A call whose error is inspected by the caller instead of returned. *)
Definition attempt {A} (m : M A) : M (error + A) := fun w =>
  match m w with
  | (Ret a, w') => (Ret (inr a), w')
  | (Fail e, w') => (Ret (inl e), w')
  | (Fault p, w') => (Fault p, w')
  end.

(** Reading a field through a pointer at source line [line]. *)
Definition deref {A} (line : nat) (p : option A) : M A := fun w =>
  match p with
  | Some a => (Ret a, w)
  | None => (Fault (NilDeref line), w)
  end.

(** [for _, x := range l { body }] *)
Fixpoint forEach {A} (l : list A) (body : A -> M unit) : M unit :=
  match l with
  | [] => ret tt
  | x :: l' => body x ;; forEach l' body
  end.

(** The transaction handle threaded through the store methods. *)
Inductive Tx := TxHandle.

Section Facade.

(** The environment: which collaborator calls are made to fail, and the
    node collaborator's selector matching. *)
Variable oracle : nat -> Call -> decision.
Variable matchNodes : string -> string -> list string.

(** A collaborator call: the [n]-th call of the run is recorded with its
    reply; the environment may force an error or a fault instead. *)
Definition invoke {A} (c : Call) (act : World -> (error + A) * World) : M A := fun w =>
  match oracle (length (trace w)) c with
  | ForcePanic k => (Fault (PanicForced k), record c (Panicked (PanicForced k)) w)
  | ForceErr k => (Fail (ErrForced k), record c (Failed (ErrForced k)) w)
  | Proceed =>
      match act w with
      | (inr a, w') => (Ret a, record c Done w')
      | (inl e, w') => (Fail e, record c (Failed e) w')
      end
  end.

(** A store method that works on the open transaction's copy. *)
Definition onTx {A} (f : Stores -> A * Stores) : World -> (error + A) * World := fun w =>
  match pending w with
  | Some s => let (a, s') := f s in (inr a, setPending (Some s') w)
  | None => (inl ErrTxDone, w)
  end.

(** *** Collaborators *)

(** Modelled from the spec: the TransactionManager interface
    ([BeginTx], [Commit], [Rollback]); its implementation is not in the
    facade's file.  A transaction works on a copy of the stores that
    [Commit] installs and [Rollback] discards. *)
Definition txFactory_BeginTx : M Tx :=
  invoke TxBegin (fun w => (inr TxHandle, setPending (Some (committed w)) w)).

Definition txFactory_Commit (tx : Tx) (w : World) : World :=
  record TxCommit Done
    (match pending w with
     | Some s => setPending None (setCommitted s w)
     | None => w
     end).

Definition txFactory_Rollback (tx : Tx) (w : World) : World :=
  record TxRollback Done (setPending None w).

(** Modelled from the spec: the ApplicationRepository interface.  The
    model keeps one record for each (namespace, name), the latest version
    of the Application, stored as given; earlier versions are not kept, so
    [version], which the facade passes on from its caller or leaves empty
    for the latest version, selects nothing.  What is proved of the stored
    record is proved of that latest version. *)
Definition app_Get (ns name version : string) : M (option Application) :=
  invoke (AppGet ns name version) (fun w =>
    match apps (committed w) !! (ns, name) with
    | Some a => (inr (Some a), w)
    | None => (inl ErrNotFound, w)
    end).

Definition app_CreateWithBase (tx : Tx) (ns : string) (app : Application)
    (baseApp : option Application) : M Application :=
  invoke (AppCreateWithBase ns app baseApp)
    (onTx (fun s => (app, putApp ns app s))).

Definition app_Update (tx : Tx) (ns : string) (app : Application) : M Application :=
  invoke (AppUpdate ns app)
    (onTx (fun s => (app, putApp ns app s))).

Definition app_Delete (tx : Tx) (ns name version : string) : M unit :=
  invoke (AppDelete ns name version)
    (onTx (fun s => (tt, dropApp ns name s))).

(** Modelled from the spec: the CronRepository interface; its methods take
    no transaction handle, records are keyed by (name, namespace), and
    update has create-or-update semantics. *)
Definition cron_GetCron (name ns : string) : M Cron :=
  invoke (CronGet name ns) (fun w =>
    match crons w !! (name, ns) with
    | Some c => (inr c, w)
    | None => (inl ErrNotFound, w)
    end).

Definition cron_CreateCron (c : Cron) : M unit :=
  invoke (CronCreate c) (fun w =>
    (inr tt, setCrons (<[(cName c, cNamespace c) := c]> (crons w)) w)).

Definition cron_UpdateCron (c : Cron) : M unit :=
  invoke (CronUpdate c) (fun w =>
    (inr tt, setCrons (<[(cName c, cNamespace c) := c]> (crons w)) w)).

Definition cron_DeleteCron (name ns : string) : M unit :=
  invoke (CronDelete name ns) (fun w =>
    (inr tt, setCrons (delete (name, ns) (crons w)) w)).

(** Modelled from the spec: the NodeRepository interface; the nodes that
    match the application's selector get, or lose, the application. *)
Definition node_UpdateNodeAppVersion (tx : Tx) (ns : string) (app : Application)
    : M (list string) :=
  invoke (NodeUpdateAppVersion ns app)
    (onTx (fun s =>
       let nodes := matchNodes ns (aSelector app) in
       (nodes, assignNodes ns app nodes s))).

Definition node_DeleteNodeAppVersion (tx : Tx) (ns : string) (app : Application)
    : M (list string) :=
  invoke (NodeDeleteAppVersion ns app)
    (onTx (fun s =>
       let nodes := matchNodes ns (aSelector app) in
       (nodes, unassignNodes ns app nodes s))).

(** Modelled from the spec: the IndexRepository interface; the index of an
    application is replaced by the given node list. *)
Definition index_RefreshNodesIndexByApp (tx : Tx) (ns appName : string)
    (nodes : list string) : M unit :=
  invoke (IndexRefresh ns appName nodes)
    (onTx (fun s => (tt, putIndex ns appName nodes s))).

(** Modelled from the spec: the ConfigRepository interface; deleting an
    absent Configuration is a no-op. *)
Definition config_Upsert (tx : Tx) (ns : string) (cfg : Configuration) : M Configuration :=
  invoke (ConfigUpsert ns cfg)
    (onTx (fun s => (cfg, putConfig ns cfg s))).

Definition config_Delete (tx : Tx) (ns name : string) : M unit :=
  invoke (ConfigDelete ns name)
    (onTx (fun s => (tt, dropConfig ns name s))).

Definition LogDirtyData (err : error) (t : ResourceType) (ns name : string) : M unit :=
  fun w => (Ret tt, addDirty (mkDirtyData err t ns name) w).

(** *** The facade *)

(** The deferred function of [CreateApp], [UpdateApp] and [DeleteApp]:
    roll back on a fault and raise it again, roll back on an error,
    commit otherwise. *)
Definition deferred {A} (tx : Tx) (body : M A) : M A := fun w =>
  match body w with
  | (Fault p, w') => (Fault p, txFactory_Rollback tx w')
  | (Fail e, w') => (Fail e, txFactory_Rollback tx w')
  | (Ret a, w') => (Ret a, txFactory_Commit tx w')
  end.

Definition GetApp (ns name version : string) : M (option Application) :=
  let* app := traced (app_Get ns name version) in
  match app with
  | Some a =>
      if bool_decide (aCronStatus a = CronWait) then
        let* r := attempt (cron_GetCron name ns) in
        match r with
        | inr cronApp => ret (Some (setSelector a (cSelector cronApp)))
        | inl _ => ret (Some a)
        end
      else ret (Some a)
  | None => ret None
  end.

Definition updateGenConfigsOfFunctionApp (tx : Tx) (namespace : string)
    (cfgs : list Configuration) : M unit :=
  forEach cfgs (fun cfg => config_Upsert tx namespace cfg ;; ret tt).

Definition UpdateNodeAndAppIndex (tx : Tx) (namespace : string) (app : Application) : M unit :=
  let* nodes := node_UpdateNodeAppVersion tx namespace app in
  index_RefreshNodesIndexByApp tx namespace (aName app) nodes.

Definition DeleteNodeAndAppIndex (tx : Tx) (namespace : string) (app : Application) : M unit :=
  node_DeleteNodeAppVersion tx namespace app ;;
  index_RefreshNodesIndexByApp tx namespace (aName app) [].

(** The map [m] of surviving Configuration names. *)
Definition survivors (cfgs : list Configuration) : gmap string bool :=
  foldl (fun m cfg => <[cfgName cfg := true]> m) ∅ cfgs.

(** The condition of line 216 on a referenced Configuration name. *)
Definition isStale (m : gmap string bool) (name : string) : bool :=
  bool_decide (m !! name = None)
  && (String.prefix FunctionConfigPrefix name
      || String.prefix FunctionProgramConfigPrefix name).

(** The body of the loop over [oldApp.Volumes], lines 213-226. *)
Definition cleanVolume (tx : Tx) (m : gmap string bool) (namespace : string)
    (v : Volume) : M unit :=
  match volConfig v with
  | None => ret tt
  | Some cfg =>
      if isStale m (orName cfg) then
        let* r := attempt (config_Delete tx namespace (orName cfg)) in
        match r with
        | inl err => LogDirtyData err ConfigResource namespace (orName cfg)
        | inr _ => ret tt
        end
      else ret tt
  end.

Definition cleanGenConfigsOfFunctionApp (tx : Tx) (cfgs : list Configuration)
    (oldApp : option Application) : M unit :=
  let m := survivors cfgs in
  let* old := deref 212 oldApp in
  forEach (aVolumes old) (cleanVolume tx m (aNamespace old)).

Definition cronOf (a : Application) : Cron :=
  {| cName := aName a; cNamespace := aNamespace a;
     cSelector := aSelector a; cCronTime := aCronTime a |}.

(** The transactional sequence of [CreateApp], lines 50-77. *)
Definition createBody (tx : Tx) (ns : string) (baseApp app : option Application)
    (cfgs : list Configuration) : M Application :=
  updateGenConfigsOfFunctionApp tx ns cfgs ;;
  let* a := deref 55 app in
  let* a := (if bool_decide (aCronStatus a = CronWait) then
          traced (cron_CreateCron (cronOf a)) ;; ret (setSelector a "")
        else ret a) in
  let* a := app_CreateWithBase tx ns a baseApp in
  UpdateNodeAndAppIndex tx ns a ;;
  ret a.

Definition CreateApp (ns : string) (baseApp app : option Application)
    (cfgs : list Configuration) : M Application :=
  let* tx := txFactory_BeginTx in
  deferred tx (createBody tx ns baseApp app cfgs).

(** The body of [UpdateApp], lines 97-139. *)
Definition updateBody (tx : Tx) (ns : string) (oldApp app : option Application)
    (cfgs : list Configuration) : M Application :=
  updateGenConfigsOfFunctionApp tx ns cfgs ;;
  let* a := deref 102 app in
  let* a := (if bool_decide (aCronStatus a = CronWait) then
          traced (cron_UpdateCron (cronOf a)) ;; ret (setSelector a "")
        else ret a) in
  let* old := deref 114 oldApp in
  (if bool_decide (aCronStatus old = CronWait) && bool_decide (aCronStatus a = CronNotSet)
   then traced (cron_DeleteCron (aName a) ns)
   else ret tt) ;;
  let* a := app_Update tx ns a in
  match oldApp with
  | Some old' =>
      if bool_decide (aSelector old' ≠ aSelector a)
      then DeleteNodeAndAppIndex tx ns old'
      else ret tt
  | None => ret tt
  end ;;
  UpdateNodeAndAppIndex tx ns a ;;
  cleanGenConfigsOfFunctionApp tx cfgs oldApp ;;
  ret a.

Definition UpdateApp (ns : string) (oldApp app : option Application)
    (cfgs : list Configuration) : M Application :=
  let* tx := txFactory_BeginTx in
  deferred tx (updateBody tx ns oldApp app cfgs).

(** The body of [DeleteApp], lines 159-176. *)
Definition deleteBody (tx : Tx) (ns name : string) (app : option Application) : M unit :=
  let* a := deref 159 app in
  (if bool_decide (aCronStatus a = CronWait)
   then traced (cron_DeleteCron name ns)
   else ret tt) ;;
  app_Delete tx ns name "" ;;
  DeleteNodeAndAppIndex tx ns a ;;
  cleanGenConfigsOfFunctionApp tx [] app.

Definition DeleteApp (ns name : string) (app : option Application) : M unit :=
  let* tx := txFactory_BeginTx in
  deferred tx (deleteBody tx ns name app).

End Facade.

(** ** Observations on a run *)

Definition isTxCall (c : Call) : bool :=
  match c with TxBegin | TxCommit | TxRollback => true | _ => false end.

Definition isConfigDelete (c : Call) : bool :=
  match c with ConfigDelete _ _ => true | _ => false end.

Definition isCronCall (c : Call) : bool :=
  match c with
  | CronGet _ _ | CronCreate _ | CronUpdate _ | CronDelete _ _ => true
  | _ => false
  end.

(** Every Configuration deletion of the trace comes after a commit
    ([seen] tells whether a commit was met already). *)
Fixpoint deletesAfterCommit (seen : bool) (tr : list (Call * Reply)) : bool :=
  match tr with
  | [] => true
  | (ConfigDelete _ _, _) :: tr' => seen && deletesAfterCommit seen tr'
  | (TxCommit, _) :: tr' => deletesAfterCommit true tr'
  | _ :: tr' => deletesAfterCommit seen tr'
  end.

(** The run [w'] continues [w] with the events [evs]. *)
Definition continues (w w' : World) (evs : list (Call * Reply)) : Prop :=
  trace w' = trace w ++ evs.

(** A step that leaves the committed stores alone and records only events
    that satisfy [φ]. *)
Definition extends (φ : Call * Reply -> Prop) (w w' : World) : Prop :=
  committed w' = committed w ∧ ∃ evs, continues w w' evs ∧ Forall φ evs.

Definition stable {A} (R : World -> World -> Prop) (m : M A) : Prop :=
  ∀ w, R w (snd (m w)).

(** The bracket every mutating operation puts around its body. *)
Definition transact (oracle : nat -> Call -> decision) {A} (body : Tx -> M A) : M A :=
  let* tx := txFactory_BeginTx oracle in deferred tx (body tx).

(** The shape of a run of [transact]: the transaction did not begin, or
    the events of the body sit between the begin and the single commit or
    rollback that ends the run. *)
Definition bracketed {A} (φ : Call * Reply -> Prop) (w : World)
    (r : outcome A) (w' : World) : Prop :=
  (∃ rep, rep ≠ Done ∧ continues w w' [(TxBegin, rep)]
          ∧ committed w' = committed w ∧ pending w' = pending w
          ∧ ∀ a, r ≠ Ret a)
  ∨ (∃ evs fin, continues w w' ((TxBegin, Done) :: evs ++ [(fin, Done)])
          ∧ Forall φ evs ∧ pending w' = None
          ∧ ((fin = TxCommit ∧ ∃ a, r = Ret a)
             ∨ (fin = TxRollback ∧ (∀ a, r ≠ Ret a) ∧ committed w' = committed w))).

(** The Application as it is persisted: in Wait the selector is cleared
    after it was handed to the Cron record. *)
Definition effective (a : Application) : Application :=
  if bool_decide (aCronStatus a = CronWait) then setSelector a "" else a.

(** The names of the Configurations the volumes of an application refer to. *)
Definition volumeConfigs (a : Application) : list string :=
  omap (fun v => orName <$> volConfig v) (aVolumes a).

(** The collaborator calls the body of [CreateApp] can make. *)
Definition createCall (mn : string -> string -> list string) (ns : string)
    (baseApp app : option Application) (cfgs : list Configuration) (c : Call) : Prop :=
  match c with
  | ConfigUpsert ns' cfg => ns' = ns ∧ In cfg cfgs
  | CronCreate cr => ∃ a, app = Some a ∧ aCronStatus a = CronWait ∧ cr = cronOf a
  | AppCreateWithBase ns' a' b =>
      ∃ a, app = Some a ∧ ns' = ns ∧ a' = effective a ∧ b = baseApp
  | NodeUpdateAppVersion ns' a' => ∃ a, app = Some a ∧ ns' = ns ∧ a' = effective a
  | IndexRefresh ns' n nodes =>
      ∃ a, app = Some a ∧ ns' = ns ∧ n = aName a
           ∧ nodes = mn ns (aSelector (effective a))
  | _ => False
  end.

(** The collaborator calls the body of [UpdateApp] can make. *)
Definition updateCall (mn : string -> string -> list string) (ns : string)
    (oldApp app : option Application) (cfgs : list Configuration) (c : Call) : Prop :=
  match c with
  | ConfigUpsert ns' cfg => ns' = ns ∧ In cfg cfgs
  | CronUpdate cr => ∃ a, app = Some a ∧ aCronStatus a = CronWait ∧ cr = cronOf a
  | CronDelete n s =>
      ∃ old a, oldApp = Some old ∧ app = Some a
               ∧ aCronStatus old = CronWait ∧ aCronStatus a = CronNotSet
               ∧ n = aName a ∧ s = ns
  | AppUpdate ns' a' =>
      ∃ old a, oldApp = Some old ∧ app = Some a ∧ ns' = ns ∧ a' = effective a
  | NodeDeleteAppVersion ns' o =>
      ∃ a, oldApp = Some o ∧ app = Some a ∧ ns' = ns
           ∧ aSelector o ≠ aSelector (effective a)
  | NodeUpdateAppVersion ns' a' =>
      ∃ old a, oldApp = Some old ∧ app = Some a ∧ ns' = ns ∧ a' = effective a
  | IndexRefresh ns' n nodes =>
      ∃ old a, oldApp = Some old ∧ app = Some a ∧ ns' = ns
               ∧ ((n = aName old ∧ nodes = []
                   ∧ aSelector old ≠ aSelector (effective a))
                  ∨ (n = aName a ∧ nodes = mn ns (aSelector (effective a))))
  | ConfigDelete ns' n =>
      ∃ old, oldApp = Some old ∧ ns' = aNamespace old
             ∧ In n (volumeConfigs old) ∧ isStale (survivors cfgs) n = true
  | _ => False
  end.

(** The collaborator calls the body of [DeleteApp] can make. *)
Definition deleteCall (ns name : string) (app : option Application) (c : Call) : Prop :=
  match c with
  | CronDelete n s =>
      ∃ a, app = Some a ∧ aCronStatus a = CronWait ∧ n = name ∧ s = ns
  | AppDelete ns' n v => app ≠ None ∧ ns' = ns ∧ n = name ∧ v = ""
  | NodeDeleteAppVersion ns' a' => app = Some a' ∧ ns' = ns
  | IndexRefresh ns' n nodes => ∃ a, app = Some a ∧ ns' = ns ∧ n = aName a ∧ nodes = []
  | ConfigDelete ns' n =>
      ∃ a, app = Some a ∧ ns' = aNamespace a
           ∧ In n (volumeConfigs a) ∧ isStale (survivors []) n = true
  | _ => False
  end.

(** The Configurations of a transaction copy after the upserts of step 1. *)
Definition upsertAll (ns : string) (cfgs : list Configuration) (s : Stores) : Stores :=
  foldl (fun s cfg => putConfig ns cfg s) s cfgs.

(** The referenced Configuration names the reconciliation asks to delete,
    in volume order. *)
Definition staleNames (cfgs : list Configuration) (old : Application) : list string :=
  filter (fun n => isStale (survivors cfgs) n = true) (volumeConfigs old).

(** The dirty-data diagnostics that a list of events calls for. *)
Definition diagnostics (evs : list (Call * Reply)) : list DirtyData :=
  flat_map (fun ev =>
    match ev with
    | (ConfigDelete ns n, Failed e) => [mkDirtyData e ConfigResource ns n]
    | _ => []
    end) evs.

(** The Configurations left by the deletions that were carried out. *)
Definition applyDeletes (evs : list (Call * Reply))
    (m : gmap (string * string) Configuration) : gmap (string * string) Configuration :=
  foldl (fun m ev =>
    match ev with
    | (ConfigDelete ns n, Done) => delete (ns, n) m
    | _ => m
    end) m evs.

(** The replies of the events are those the environment dictates for the
    calls number [k], [k+1], ... of calls that a store cannot refuse. *)
Fixpoint answered (oracle : nat -> Call -> decision) (k : nat)
    (evs : list (Call * Reply)) : Prop :=
  match evs with
  | [] => True
  | (c, r) :: evs' =>
      match oracle k c with
      | Proceed => r = Done
      | ForceErr code => r = Failed (ErrForced code)
      | ForcePanic _ => False
      end ∧ answered oracle (S k) evs'
  end.

(** The step returns and leaves the transaction open. *)
Definition proceeds {A} (m : M A) : Prop :=
  ∀ w s, pending w = Some s ->
         ∃ a w' s', m w = (Ret a, w') ∧ pending w' = Some s'.

(** Nothing the call did to the stores can be seen: neither in the stores
    written through the transaction nor in the Cron store. *)
Definition unchangedStores (w w' : World) : Prop :=
  committed w' = committed w ∧ crons w' = crons w.

(** The replies recorded in [evs] account for the outcome [r] of a part
    of the facade that only calls stores: it returns when every call
    returned, and otherwise some call failed or faulted. *)
Definition replied {A} (r : outcome A) (evs : list (Call * Reply)) : Prop :=
  match r with
  | Ret _ => Forall (fun ev => snd ev = Done) evs
  | Fail _ => Exists (fun ev => snd ev ≠ Done) evs
  | Fault p => Exists (fun ev => snd ev ≠ Done) evs ∧ ∃ k, p = PanicForced k
  end.

Definition accounted {A} (m : M A) : Prop :=
  ∀ w, ∃ evs, continues w (snd (m w)) evs ∧ replied (fst (m w)) evs.

(** The calls made before line 114 of [UpdateApp], and the calls of the
    transaction manager around them. *)
Definition isPreludeCall (c : Call) : bool :=
  match c with
  | TxBegin | TxRollback | ConfigUpsert _ _ | CronUpdate _ => true
  | _ => false
  end.

(** The Cron invariant of the specification: an Application is in Wait
    exactly when a Cron record with its (name, namespace) exists. *)
Definition cronInvariant (w : World) : Prop :=
  ∀ ns name,
    (∃ a, apps (committed w) !! (ns, name) = Some a ∧ aCronStatus a = CronWait)
    <-> is_Some (crons w !! (name, ns)).

(** The reconciliation rule in the words of the specification: the
    Configuration [name] of namespace [ns] is reclaimed when some volume of
    the old Application refers to it, its name is not in the surviving set,
    and its name starts with one of the two reserved prefixes. *)
Definition referencedBy (old : Application) (name : string) : bool :=
  existsb (fun v => match volConfig v with
                    | Some ref => String.eqb (orName ref) name
                    | None => false
                    end) (aVolumes old).

Definition survives (cfgs : list Configuration) (name : string) : bool :=
  existsb (fun cfg => String.eqb (cfgName cfg) name) cfgs.

Definition hasReservedPrefix (name : string) : bool :=
  String.prefix "baetyl-function-config" name
  || String.prefix "baetyl-function-program-config" name.

Definition reclaimed (cfgs : list Configuration) (old : Application)
    (ns name : string) : bool :=
  bool_decide (ns = aNamespace old)
  && referencedBy old name
  && negb (survives cfgs name)
  && hasReservedPrefix name.

(** ** Scenarios *)

Definition noFaults : nat -> Call -> decision := fun _ _ => Proceed.

(** The call number [k] of the run returns an error, resp. faults. *)
Definition failAt (k : nat) : nat -> Call -> decision :=
  fun n _ => if Nat.eqb n k then ForceErr 1 else Proceed.
Definition faultAt (k : nat) : nat -> Call -> decision :=
  fun n _ => if Nat.eqb n k then ForcePanic 1 else Proceed.

(** Every Configuration deletion whose name satisfies [bad] returns an error. *)
Definition failDeletes (bad : string -> bool) : nat -> Call -> decision :=
  fun _ c => match c with
             | ConfigDelete _ n => if bad n then ForceErr 7 else Proceed
             | _ => Proceed
             end.

Definition sampleNodes : string -> string -> list string :=
  fun _ sel =>
    if String.eqb sel "env=prod" then ["N1"; "N2"]
    else if String.eqb sel "env=staging" then ["N3"]
    else [].

Definition waitingApp : Application :=
  mkApplication "app1" "ns" "v1" "env=prod" CronWait 1700000000 [].

Definition scheduledApp : Application :=
  mkApplication "app1" "ns" "v2" "env=prod" CronScheduled 1700000000 [].

Definition configVolume (name : string) : Volume :=
  mkVolume name (Some (mkObjectReference name "1")) None.

(** The function application of the generated-config scenario. *)
Definition functionApp : Application :=
  mkApplication "fn" "ns" "v1" "env=prod" CronNotSet 0
    [configVolume "baetyl-function-config-a";
     configVolume "user-cfg";
     configVolume "baetyl-function-program-config-b"].

Definition configNamed (name : string) : Configuration :=
  mkConfiguration name "ns" "1".

Definition functionStores : Stores :=
  putConfig "ns" (configNamed "baetyl-function-config-a")
    (putConfig "ns" (configNamed "user-cfg")
       (putConfig "ns" (configNamed "baetyl-function-program-config-b")
          (putIndex "ns" "fn" ["N1"; "N2"]
             (putApp "ns" functionApp emptyStores)))).

Definition functionWorld : World := mkWorld functionStores None ∅ [] [].

(** ** Further notions: the bracket, provenance of failures, the journal *)

(** The calls that end a transaction. *)
Definition isTxEnd (c : Call) : bool :=
  match c with TxCommit | TxRollback => true | _ => false end.

(** The call that ends the transaction of an operation with outcome [r]. *)
Definition closing {A} (r : outcome A) : Call :=
  match r with Ret _ => TxCommit | _ => TxRollback end.

(** The error the facade returns when the call [c] failed with [e]: the
    errors of the Cron store are wrapped by errors.Trace, the others are
    returned as they are. *)
Definition wrapFor (c : Call) (e : error) : error :=
  if isCronCall c then Trace e else e.

(** An error or a fault of the step is that of the last call it made, or
    a nil dereference. *)
Definition blamed {A} (m : M A) : Prop :=
  ∀ w, ∃ all, continues w (snd (m w)) all
    ∧ match fst (m w) with
      | Ret _ => True
      | Fail e => ∃ evs c e', all = evs ++ [(c, Failed e')] ∧ e = wrapFor c e'
      | Fault p =>
          (∃ l, p = NilDeref l) ∨ ∃ evs c, all = evs ++ [(c, Panicked p)]
      end.

(** The run from [w] to [w'] ended with the error [e]: BeginTx returned
    it, or a store call failed, the error is that of the call (wrapped for
    the Cron store), and only the rollback followed. *)
Definition failedAt (w w' : World) (e : error) : Prop :=
  continues w w' [(TxBegin, Failed e)]
  ∨ ∃ evs c e',
      continues w w' ((TxBegin, Done) :: evs ++ [(c, Failed e'); (TxRollback, Done)])
      ∧ e = wrapFor c e'.

(** The run from [w] to [w'] ended with the fault [p]: BeginTx raised it,
    or the transaction was rolled back after a nil dereference or after the
    call that raised it. *)
Definition faultedAt (w w' : World) (p : panicv) : Prop :=
  continues w w' [(TxBegin, Panicked p)]
  ∨ ∃ evs,
      continues w w' ((TxBegin, Done) :: evs ++ [(TxRollback, Done)])
      ∧ ((∃ l, p = NilDeref l) ∨ ∃ evs' c, evs = evs' ++ [(c, Panicked p)]).

(** The Cron store after the Cron calls of [evs] that were carried out. *)
Definition applyCrons (evs : list (Call * Reply))
    (m : gmap (string * string) Cron) : gmap (string * string) Cron :=
  foldl (fun m ev =>
    match ev with
    | (CronCreate c, Done) | (CronUpdate c, Done) => <[(cName c, cNamespace c) := c]> m
    | (CronDelete name ns, Done) => delete (name, ns) m
    | _ => m
    end) m evs.

(** The Cron store and the dirty-data log of [w'] are those of [w] with
    the calls made in between accounted for: the Cron calls that were
    carried out, and one diagnostic for each failed Configuration deletion. *)
Definition journal (w w' : World) : Prop :=
  ∃ evs, continues w w' evs
    ∧ crons w' = applyCrons evs (crons w)
    ∧ dirty w' = dirty w ++ diagnostics evs.

Definition journaled {A} (m : M A) : Prop := ∀ w, journal w (snd (m w)).

(** ** All or nothing *)

(** A reply that makes an operation abort: a fault of any call, or an
    error of any call but a Configuration deletion of the reconciliation,
    whose error is logged and otherwise ignored. *)
Definition aborting (ev : Call * Reply) : bool :=
  match snd ev with
  | Done => false
  | Failed _ => negb (isConfigDelete (fst ev))
  | Panicked _ => true
  end.

(** The events of a step with outcome [r]: a step that returns has met no
    aborting reply; a step that fails or faults stopped at the first
    aborting reply, or at a nil dereference. *)
Definition untilAbort {A} (r : outcome A) (evs : list (Call * Reply)) : Prop :=
  match r with
  | Ret _ => Forall (fun ev => aborting ev = false) evs
  | Fail _ =>
      ∃ pre ev, evs = pre ++ [ev] ∧ aborting ev = true
                ∧ Forall (fun ev => aborting ev = false) pre
  | Fault p =>
      (∃ pre ev, evs = pre ++ [ev] ∧ aborting ev = true
                 ∧ Forall (fun ev => aborting ev = false) pre)
      ∨ ((∃ l, p = NilDeref l) ∧ Forall (fun ev => aborting ev = false) evs)
  end.

Definition stopsAtAbort {A} (m : M A) : Prop :=
  ∀ w, ∃ evs, continues w (snd (m w)) evs ∧ untilAbort (fst (m w)) evs.

(** The run from [w] to [w'] with outcome [r] is all or nothing for the
    stores written through the transaction.  A call that fails or faults
    (an aborting reply) makes the operation fail and leaves the
    transactional stores as they were: it is the first such reply, no
    further store is called, and only the rollback follows.  An operation
    that does not return successfully for another reason (a nil
    dereference) leaves the transactional stores as they were, too.  The
    Cron store, in contrast, keeps what the Cron calls of the run did to
    it. *)
Definition allOrNothing {A} (w : World) (r : outcome A) (w' : World) : Prop :=
  ∃ evs, continues w w' evs
    ∧ (existsb aborting evs = true ->
         (∀ a, r ≠ Ret a) ∧ committed w' = committed w
         ∧ ∃ pre ev, aborting ev = true
             ∧ Forall (fun ev => aborting ev = false) pre
             ∧ ((fst ev = TxBegin ∧ evs = [ev])
                ∨ evs = pre ++ [ev; (TxRollback, Done)]))
    ∧ ((∀ a, r ≠ Ret a) -> committed w' = committed w)
    ∧ crons w' = applyCrons evs (crons w).

(** ** The reconciliation within the transaction *)

(** A call of one of the steps that precede the reconciliation. *)
Definition isStep (ev : Call * Reply) : Prop :=
  isConfigDelete (fst ev) = false ∧ isTxCall (fst ev) = false.

(** A Configuration deletion, the only call the reconciliation makes. *)
Definition isDeletion (ev : Call * Reply) : Prop := isConfigDelete (fst ev) = true.

(** A body that reconciles as its last step: its events are those of the
    steps, then the deletions; an error never comes from a deletion. *)
Definition reconcilesLast {A} (m : M A) : Prop :=
  ∀ w, ∃ steps dels,
    continues w (snd (m w)) (steps ++ dels)
    ∧ Forall isStep steps ∧ Forall isDeletion dels
    ∧ (∀ e, fst (m w) = Fail e -> dels = []).

(** The run from [w] to [w'] with outcome [r] reconciles inside its
    transaction: when the transaction began, the deletions come after every
    other call of the body and before the one call that ends the
    transaction, a commit when the operation returns and a rollback
    otherwise; when the operation returns an error, no deletion was made. *)
Definition reconciledInside {A} (w : World) (r : outcome A) (w' : World) : Prop :=
  (∃ rep, rep ≠ Done ∧ continues w w' [(TxBegin, rep)])
  ∨ ∃ steps dels,
      continues w w' ((TxBegin, Done) :: steps ++ dels ++ [(closing r, Done)])
      ∧ Forall isStep steps ∧ Forall isDeletion dels
      ∧ (∀ e, r = Fail e -> dels = []).

(** The source line at which [UpdateApp] with a nil [oldApp] dereferences
    a nil pointer: line 114 reads [oldApp.CronStatus]; with a nil [app],
    line 102 reads [app.CronStatus] before that. *)
Definition nilLine (app : option Application) : nat :=
  match app with Some _ => 114 | None => 102 end.

(** ** Reasoning about runs *)

Section Runs.

Variable oracle : nat -> Call -> decision.
Variable matchNodes : string -> string -> list string.

Lemma extends_refl φ w : extends φ w w.
Proof. split; [done|]. exists []. split; [unfold continues; by rewrite app_nil_r | constructor]. Qed.

Lemma extends_trans φ w1 w2 w3 : extends φ w1 w2 -> extends φ w2 w3 -> extends φ w1 w3.
Proof.
  intros [Hc1 (e1 & Ht1 & Hf1)] [Hc2 (e2 & Ht2 & Hf2)]. split; [congruence|].
  exists (e1 ++ e2). unfold continues in *. split.
  - rewrite Ht2, Ht1. by rewrite app_assoc.
  - by apply Forall_app.
Qed.

Lemma extends_weaken (φ ψ : Call * Reply -> Prop) w w' :
  (∀ ev, φ ev -> ψ ev) -> extends φ w w' -> extends ψ w w'.
Proof.
  intros H [Hc (evs & Ht & Hf)]. split; [done|]. exists evs. split; [done|].
  eapply Forall_impl; eauto.
Qed.

Section Stable.
Context {φ : Call * Reply -> Prop}.

Lemma stable_ret {A} (a : A) : stable (extends φ) (ret a).
Proof. intros w. apply extends_refl. Qed.

Lemma stable_bind {A B} (m : M A) (f : A -> M B) :
  stable (extends φ) m -> (∀ a, stable (extends φ) (f a)) ->
  stable (extends φ) (bind m f).
Proof.
  intros Hm Hf w. unfold bind. specialize (Hm w).
  destruct (m w) as [[a|e|p] w1]; simpl in *; try done.
  eapply extends_trans; [exact Hm|]. apply Hf.
Qed.

Lemma stable_traced {A} (m : M A) : stable (extends φ) m -> stable (extends φ) (traced m).
Proof.
  intros Hm w. unfold traced. specialize (Hm w).
  by destruct (m w) as [[a|e|p] w1].
Qed.

Lemma stable_attempt {A} (m : M A) : stable (extends φ) m -> stable (extends φ) (attempt m).
Proof.
  intros Hm w. unfold attempt. specialize (Hm w).
  by destruct (m w) as [[a|e|p] w1].
Qed.

Lemma stable_deref {A} line (p : option A) : stable (extends φ) (deref line p).
Proof. intros w. unfold deref. destruct p; apply extends_refl. Qed.

Lemma stable_forEach {A} (l : list A) (body : A -> M unit) :
  (∀ x, stable (extends φ) (body x)) -> stable (extends φ) (forEach l body).
Proof.
  intros Hb. induction l as [|x l IH]; simpl.
  - apply stable_ret.
  - apply stable_bind; auto.
Qed.

Lemma stable_LogDirtyData err t ns name : stable (extends φ) (LogDirtyData err t ns name).
Proof.
  intros w. split; [done|]. exists []. split; [|constructor].
  unfold continues. simpl. by rewrite app_nil_r.
Qed.

(** A collaborator call that leaves the committed stores and the trace to
    [invoke] records exactly its own event. *)
Lemma stable_invoke {A} c (act : World -> (error + A) * World) :
  (∀ w, committed (snd (act w)) = committed w ∧ trace (snd (act w)) = trace w) ->
  (∀ r, φ (c, r)) ->
  stable (extends φ) (invoke oracle c act).
Proof.
  intros Hact Hφ w. unfold invoke.
  assert (Hone : ∀ r w1, committed w1 = committed w -> trace w1 = trace w ->
                         extends φ w (record c r w1)).
  { intros r w1 Hc Ht. split; [done|]. exists [(c, r)].
    split; [unfold continues; simpl; by rewrite Ht | by constructor]. }
  destruct (oracle _ c); simpl; try by apply Hone.
  specialize (Hact w). destruct (act w) as [[e|a] w1]; simpl in *; apply Hone; tauto.
Qed.

Lemma onTx_quiet {A} (f : Stores -> A * Stores) w :
  committed (snd (onTx f w)) = committed w ∧ trace (snd (onTx f w)) = trace w.
Proof. unfold onTx. destruct (pending w); [destruct (f _)|]; done. Qed.

Lemma stable_bind_val {A B} (m : M A) (f : A -> M B) (P : A -> Prop) :
  (∀ w a w1, m w = (Ret a, w1) -> P a) ->
  stable (extends φ) m -> (∀ a, P a -> stable (extends φ) (f a)) ->
  stable (extends φ) (bind m f).
Proof.
  intros HP Hm Hf w. unfold bind. specialize (Hm w). specialize (HP w).
  destruct (m w) as [[a|e|p] w1]; simpl in *; try done.
  eapply extends_trans; [exact Hm|]. apply Hf. eauto.
Qed.

Lemma stable_bind_deref {A B} line (p : option A) (f : A -> M B) :
  (∀ a, p = Some a -> stable (extends φ) (f a)) ->
  stable (extends φ) (bind (deref line p) f).
Proof.
  intros Hf. destruct p as [a|].
  - intros w. apply (Hf a eq_refl).
  - intros w. apply extends_refl.
Qed.

Ltac quiet_call :=
  apply stable_invoke;
  [ intros ?w; first [ apply onTx_quiet | simpl; repeat case_match; simpl; done ]
  | assumption ].

Lemma stable_app_CreateWithBase tx ns a base :
  (∀ r, φ (AppCreateWithBase ns a base, r)) ->
  stable (extends φ) (app_CreateWithBase oracle tx ns a base).
Proof. intros. quiet_call. Qed.

Lemma stable_app_Update tx ns a :
  (∀ r, φ (AppUpdate ns a, r)) -> stable (extends φ) (app_Update oracle tx ns a).
Proof. intros. quiet_call. Qed.

Lemma stable_app_Delete tx ns name v :
  (∀ r, φ (AppDelete ns name v, r)) -> stable (extends φ) (app_Delete oracle tx ns name v).
Proof. intros. quiet_call. Qed.

Lemma stable_cron_CreateCron c :
  (∀ r, φ (CronCreate c, r)) -> stable (extends φ) (cron_CreateCron oracle c).
Proof. intros. quiet_call. Qed.

Lemma stable_cron_UpdateCron c :
  (∀ r, φ (CronUpdate c, r)) -> stable (extends φ) (cron_UpdateCron oracle c).
Proof. intros. quiet_call. Qed.

Lemma stable_cron_DeleteCron name ns :
  (∀ r, φ (CronDelete name ns, r)) -> stable (extends φ) (cron_DeleteCron oracle name ns).
Proof. intros. quiet_call. Qed.

Lemma stable_node_UpdateNodeAppVersion tx ns a :
  (∀ r, φ (NodeUpdateAppVersion ns a, r)) ->
  stable (extends φ) (node_UpdateNodeAppVersion oracle matchNodes tx ns a).
Proof. intros. quiet_call. Qed.

Lemma stable_node_DeleteNodeAppVersion tx ns a :
  (∀ r, φ (NodeDeleteAppVersion ns a, r)) ->
  stable (extends φ) (node_DeleteNodeAppVersion oracle matchNodes tx ns a).
Proof. intros. quiet_call. Qed.

Lemma stable_index_Refresh tx ns name nodes :
  (∀ r, φ (IndexRefresh ns name nodes, r)) ->
  stable (extends φ) (index_RefreshNodesIndexByApp oracle tx ns name nodes).
Proof. intros. quiet_call. Qed.

Lemma stable_config_Upsert tx ns cfg :
  (∀ r, φ (ConfigUpsert ns cfg, r)) -> stable (extends φ) (config_Upsert oracle tx ns cfg).
Proof. intros. quiet_call. Qed.

Lemma stable_config_Delete tx ns name :
  (∀ r, φ (ConfigDelete ns name, r)) -> stable (extends φ) (config_Delete oracle tx ns name).
Proof. intros. quiet_call. Qed.

(** The value a successful store call returns. *)
Lemma invoke_Ret {A} c (act : World -> (error + A) * World) w a w' :
  invoke oracle c act w = (Ret a, w') ->
  oracle (length (trace w)) c = Proceed
  ∧ ∃ w1, act w = (inr a, w1) ∧ w' = record c Done w1.
Proof.
  unfold invoke. destruct (oracle _ c); [|done..].
  destruct (act w) as [[e|a1] w1] eqn:E; [done|].
  intros [= -> <-]. eauto.
Qed.

Lemma onTx_inr {A} (f : Stores -> A * Stores) w a w1 :
  onTx f w = (inr a, w1) ->
  ∃ s, pending w = Some s ∧ a = fst (f s) ∧ w1 = setPending (Some (snd (f s))) w.
Proof.
  unfold onTx. destruct (pending w) as [s|]; [|done].
  destruct (f s) as [a1 s1] eqn:E. intros [= <- <-]. exists s. by rewrite E.
Qed.

(** The run of a bracketed body. *)
Lemma transact_bracketed {A} (body : Tx -> M A) :
  (∀ tx, stable (extends φ) (body tx)) ->
  ∀ w, bracketed φ w (fst (transact oracle body w)) (snd (transact oracle body w)).
Proof.
  intros Hb w. unfold transact, bind, txFactory_BeginTx, invoke.
  destruct (oracle _ TxBegin) eqn:Ho; simpl.
  - specialize (Hb TxHandle (record TxBegin Done (setPending (Some (committed w)) w))).
    unfold deferred.
    destruct (body TxHandle _) as [r w3]. simpl in Hb.
    destruct Hb as [Hc (evs & Ht & Hf)]. unfold continues in Ht. simpl in Hc, Ht.
    assert (Hend : ∀ fin w4, trace w4 = trace w3 ++ [(fin, Done)] ->
              continues w w4 ((TxBegin, Done) :: evs ++ [(fin, Done)])).
    { intros fin w4 E. unfold continues. rewrite E, Ht, <- !app_assoc. done. }
    right. destruct r as [a|e|p]; cbn [fst snd].
    + exists evs, TxCommit. split_and!; [| done | | left; eauto].
      * apply Hend. unfold txFactory_Commit. by destruct (pending w3).
      * unfold txFactory_Commit. by destruct (pending w3) eqn:E.
    + exists evs, TxRollback. split_and!; [by apply Hend | done | done |].
      right. by split_and!.
    + exists evs, TxRollback. split_and!; [by apply Hend | done | done |].
      right. by split_and!.
  - left. exists (Failed (ErrForced code)). by split_and!.
  - left. exists (Panicked (PanicForced code)). by split_and!.
Qed.

Lemma stable_forEach_In {A} (l : list A) (body : A -> M unit) :
  (∀ x, In x l -> stable (extends φ) (body x)) -> stable (extends φ) (forEach l body).
Proof.
  induction l as [|x l IH]; simpl; intros Hb.
  - apply stable_ret.
  - apply stable_bind; [apply Hb; by left|]. intros _. apply IH. intros y Hy. apply Hb. by right.
Qed.

Lemma app_CreateWithBase_Ret tx ns a base w a' w' :
  app_CreateWithBase oracle tx ns a base w = (Ret a', w') -> a' = a.
Proof.
  intros H. apply invoke_Ret in H as (_ & w1 & H & _).
  apply onTx_inr in H as (s & _ & -> & _). done.
Qed.

Lemma app_Update_Ret tx ns a w a' w' :
  app_Update oracle tx ns a w = (Ret a', w') -> a' = a.
Proof.
  intros H. apply invoke_Ret in H as (_ & w1 & H & _).
  apply onTx_inr in H as (s & _ & -> & _). done.
Qed.

Lemma node_UpdateNodeAppVersion_Ret tx ns a w nodes w' :
  node_UpdateNodeAppVersion oracle matchNodes tx ns a w = (Ret nodes, w') ->
  nodes = matchNodes ns (aSelector a).
Proof.
  intros H. apply invoke_Ret in H as (_ & w1 & H & _).
  apply onTx_inr in H as (s & _ & -> & _). done.
Qed.

End Stable.

Lemma aName_effective a : aName (effective a) = aName a.
Proof. unfold effective. by case_bool_decide. Qed.

Lemma aCronStatus_effective a : aCronStatus (effective a) = aCronStatus a.
Proof. unfold effective. by case_bool_decide. Qed.

Lemma In_volumeConfigs v ref (a : Application) :
  In v (aVolumes a) -> volConfig v = Some ref -> In (orName ref) (volumeConfigs a).
Proof.
  intros Hv Hc. unfold volumeConfigs. apply list_elem_of_In, list_elem_of_omap.
  exists v. split; [by apply list_elem_of_In|]. by rewrite Hc.
Qed.

(** *** The calls each part of the facade makes *)

Lemma updateGen_protocol φ tx ns cfgs :
  (∀ cfg r, In cfg cfgs -> φ (ConfigUpsert ns cfg, r)) ->
  stable (extends φ) (updateGenConfigsOfFunctionApp oracle tx ns cfgs).
Proof.
  intros H. apply stable_forEach_In. intros cfg Hin.
  apply stable_bind; [|intros; apply stable_ret].
  apply stable_config_Upsert. auto.
Qed.

Lemma UpdateNodeAndAppIndex_protocol φ tx ns a :
  (∀ r, φ (NodeUpdateAppVersion ns a, r)) ->
  (∀ r, φ (IndexRefresh ns (aName a) (matchNodes ns (aSelector a)), r)) ->
  stable (extends φ) (UpdateNodeAndAppIndex oracle matchNodes tx ns a).
Proof.
  intros H1 H2.
  apply stable_bind_val with (P := fun nodes => nodes = matchNodes ns (aSelector a)).
  - intros w nodes w1. apply node_UpdateNodeAppVersion_Ret.
  - by apply stable_node_UpdateNodeAppVersion.
  - intros nodes ->. by apply stable_index_Refresh.
Qed.

Lemma DeleteNodeAndAppIndex_protocol φ tx ns a :
  (∀ r, φ (NodeDeleteAppVersion ns a, r)) ->
  (∀ r, φ (IndexRefresh ns (aName a) [], r)) ->
  stable (extends φ) (DeleteNodeAndAppIndex oracle matchNodes tx ns a).
Proof.
  intros H1 H2. apply stable_bind.
  - by apply stable_node_DeleteNodeAppVersion.
  - intros _. by apply stable_index_Refresh.
Qed.

Lemma cleanGen_protocol φ tx cfgs oldApp :
  (∀ old n r, oldApp = Some old -> In n (volumeConfigs old) ->
              isStale (survivors cfgs) n = true ->
              φ (ConfigDelete (aNamespace old) n, r)) ->
  stable (extends φ) (cleanGenConfigsOfFunctionApp oracle tx cfgs oldApp).
Proof.
  intros H. unfold cleanGenConfigsOfFunctionApp.
  apply stable_bind_deref. intros old ->.
  apply stable_forEach_In. intros v Hv. unfold cleanVolume.
  destruct (volConfig v) as [ref|] eqn:Hc; [|apply stable_ret].
  destruct (isStale _ _) eqn:Hs; [|apply stable_ret].
  apply stable_bind.
  - apply stable_attempt, stable_config_Delete. intros r.
    eapply H; eauto using In_volumeConfigs.
  - intros [e|[]]; [apply stable_LogDirtyData | apply stable_ret].
Qed.

Lemma createBody_protocol tx ns baseApp app cfgs :
  stable (extends (fun ev => createCall matchNodes ns baseApp app cfgs (fst ev)))
         (createBody oracle matchNodes tx ns baseApp app cfgs).
Proof.
  unfold createBody.
  apply stable_bind; [apply updateGen_protocol; by simpl|]. intros _.
  apply stable_bind_deref. intros a ->.
  apply stable_bind_val with (P := fun a1 => a1 = effective a).
  { unfold effective. intros w a1 w1. case_bool_decide; unfold bind, traced, ret.
    - destruct (cron_CreateCron _ _ _) as [[[]|e|p] w2]; congruence.
    - congruence. }
  { case_bool_decide; [|apply stable_ret].
    apply stable_bind; [|intros; apply stable_ret].
    apply stable_traced, stable_cron_CreateCron. simpl. eauto. }
  intros a1 ->.
  apply stable_bind_val with (P := fun a2 => a2 = effective a).
  { intros w a2 w1. apply app_CreateWithBase_Ret. }
  { apply stable_app_CreateWithBase. simpl. eauto. }
  intros a2 ->.
  apply stable_bind; [|intros; apply stable_ret].
  apply UpdateNodeAndAppIndex_protocol; simpl; intros r; eexists; split_and!;
    eauto using aName_effective.
Qed.

Lemma updateBody_protocol tx ns oldApp app cfgs :
  stable (extends (fun ev => updateCall matchNodes ns oldApp app cfgs (fst ev)))
         (updateBody oracle matchNodes tx ns oldApp app cfgs).
Proof.
  unfold updateBody.
  apply stable_bind; [apply updateGen_protocol; by simpl|]. intros _.
  apply stable_bind_deref. intros a ->.
  apply stable_bind_val with (P := fun a1 => a1 = effective a).
  { unfold effective. intros w a1 w1. case_bool_decide; unfold bind, traced, ret.
    - destruct (cron_UpdateCron _ _ _) as [[[]|e|p] w2]; congruence.
    - congruence. }
  { case_bool_decide; [|apply stable_ret].
    apply stable_bind; [|intros; apply stable_ret].
    apply stable_traced, stable_cron_UpdateCron. simpl. eauto. }
  intros a1 ->.
  apply stable_bind_deref. intros old ->.
  apply stable_bind.
  { destruct (bool_decide (aCronStatus old = CronWait)) eqn:Ho; simpl; [|apply stable_ret].
    destruct (bool_decide (aCronStatus (effective a) = CronNotSet)) eqn:Ha;
      [|apply stable_ret].
    apply bool_decide_eq_true in Ho, Ha. rewrite aCronStatus_effective in Ha.
    apply stable_traced, stable_cron_DeleteCron. simpl. intros r.
    exists old, a. rewrite aName_effective. by split_and!. }
  intros _.
  apply stable_bind_val with (P := fun a2 => a2 = effective a).
  { intros w a2 w1. apply app_Update_Ret. }
  { apply stable_app_Update. simpl. eauto 10. }
  intros a2 ->.
  apply stable_bind.
  { case_bool_decide as Hsel; [|apply stable_ret].
    apply DeleteNodeAndAppIndex_protocol; simpl; intros r.
    - exists a. by split_and!.
    - exists old, a. split_and!; [done..|]. left. by split_and!. }
  intros _.
  apply stable_bind.
  { apply UpdateNodeAndAppIndex_protocol; simpl; intros r; exists old, a;
      split_and!; try done. right. by rewrite aName_effective. }
  intros _.
  apply stable_bind; [|intros; apply stable_ret].
  apply cleanGen_protocol. simpl. intros old' n r [= <-] Hin Hs.
  exists old. by split_and!.
Qed.

Lemma deleteBody_protocol tx ns name app :
  stable (extends (fun ev => deleteCall ns name app (fst ev)))
         (deleteBody oracle matchNodes tx ns name app).
Proof.
  unfold deleteBody.
  apply stable_bind_deref. intros a ->.
  apply stable_bind.
  { case_bool_decide as Hw; [|apply stable_ret].
    apply stable_traced, stable_cron_DeleteCron. simpl. intros r.
    exists a. by split_and!. }
  intros _.
  apply stable_bind; [apply stable_app_Delete; by simpl|]. intros _.
  apply stable_bind.
  { apply DeleteNodeAndAppIndex_protocol; simpl; intros r; [done|].
    exists a. by split_and!. }
  intros _.
  apply cleanGen_protocol. simpl. intros old' n r [= <-] Hin Hs.
  exists a. by split_and!.
Qed.

(** *** Successful steps *)

Lemma world_eta w :
  w = mkWorld (committed w) (pending w) (crons w) (dirty w) (trace w).
Proof. by destruct w. Qed.

Lemma bind_Ret {A B} (m : M A) (f : A -> M B) w b w' :
  bind m f w = (Ret b, w') -> ∃ a w1, m w = (Ret a, w1) ∧ f a w1 = (Ret b, w').
Proof. unfold bind. destruct (m w) as [[a|e|p] w1]; [eauto | done..]. Qed.

Lemma ret_bind {A B} (a : A) (f : A -> M B) w : bind (ret a) f w = f a w.
Proof. reflexivity. Qed.

Lemma traced_Ret {A} (m : M A) w a w' : traced m w = (Ret a, w') -> m w = (Ret a, w').
Proof. unfold traced. by destruct (m w) as [[a1|e|p] w1]. Qed.

Lemma deferred_Ret {A} tx (body : M A) w a w' :
  deferred tx body w = (Ret a, w') ->
  ∃ w1, body w = (Ret a, w1) ∧ w' = txFactory_Commit tx w1.
Proof.
  unfold deferred. destruct (body w) as [[a1|e|p] w1]; [|done..].
  intros [= -> <-]. eauto.
Qed.

Lemma tx_call_Ret {A} c (f : Stores -> A * Stores) w a w' :
  invoke oracle c (onTx f) w = (Ret a, w') ->
  ∃ s, pending w = Some s ∧ a = fst (f s)
       ∧ w' = mkWorld (committed w) (Some (snd (f s))) (crons w) (dirty w)
                      (trace w ++ [(c, Done)]).
Proof.
  intros H. apply invoke_Ret in H as (_ & w1 & H & ->).
  apply onTx_inr in H as (s & Hs & -> & ->). eauto.
Qed.

Lemma cron_call_Ret (c : Call)
    (g : gmap (string * string) Cron -> gmap (string * string) Cron) (w w' : World) :
  invoke oracle c (fun w => (inr tt, setCrons (g (crons w)) w)) w = (Ret tt, w') ->
  w' = mkWorld (committed w) (pending w) (g (crons w)) (dirty w) (trace w ++ [(c, Done)]).
Proof. intros H. by apply invoke_Ret in H as (_ & w1 & [= <-] & ->). Qed.

Lemma txFactory_BeginTx_Ret w tx w' :
  txFactory_BeginTx oracle w = (Ret tx, w') ->
  w' = mkWorld (committed w) (Some (committed w)) (crons w) (dirty w)
               (trace w ++ [(TxBegin, Done)]).
Proof. intros H. apply invoke_Ret in H as (_ & w1 & H & ->). by simplify_eq. Qed.

Lemma updateGen_Ret tx ns cfgs : ∀ w s w',
  pending w = Some s ->
  updateGenConfigsOfFunctionApp oracle tx ns cfgs w = (Ret tt, w') ->
  w' = mkWorld (committed w) (Some (upsertAll ns cfgs s)) (crons w) (dirty w)
               (trace w ++ map (fun cfg => (ConfigUpsert ns cfg, Done)) cfgs).
Proof.
  unfold updateGenConfigsOfFunctionApp.
  induction cfgs as [|cfg cfgs IH]; simpl; intros w s w' Hs H.
  - injection H as <-. rewrite app_nil_r, <- Hs. apply world_eta.
  - apply bind_Ret in H as ([] & w1 & H1 & H).
    apply bind_Ret in H1 as (c & w2 & H1 & [= <-]).
    apply tx_call_Ret in H1 as (s0 & Hs0 & _ & ->). simpl in *.
    rewrite Hs in Hs0. injection Hs0 as <-.
    eapply IH in H; [|reflexivity]. simpl in H. rewrite <- app_assoc in H. done.
Qed.

Lemma bind_unfold {A B} (m : M A) (f : A -> M B) w :
  bind m f w = match m w with
               | (Ret a, w') => f a w'
               | (Fail e, w') => (Fail e, w')
               | (Fault p, w') => (Fault p, w')
               end.
Proof. reflexivity. Qed.

(** One volume whose Configuration is to be reclaimed. *)
Lemma cleanVolume_stale tx m nsOld v ref w s :
  volConfig v = Some ref -> isStale m (orName ref) = true -> pending w = Some s ->
  cleanVolume oracle tx m nsOld v w
  = match oracle (length (trace w)) (ConfigDelete nsOld (orName ref)) with
    | Proceed =>
        (Ret tt,
         mkWorld (committed w)
                 (Some (setConfigs (delete (nsOld, orName ref) (configs s)) s))
                 (crons w) (dirty w)
                 (trace w ++ [(ConfigDelete nsOld (orName ref), Done)]))
    | ForceErr k =>
        (Ret tt,
         mkWorld (committed w) (Some s) (crons w)
                 (dirty w ++ [mkDirtyData (ErrForced k) ConfigResource nsOld (orName ref)])
                 (trace w ++ [(ConfigDelete nsOld (orName ref), Failed (ErrForced k))]))
    | ForcePanic k =>
        (Fault (PanicForced k),
         mkWorld (committed w) (Some s) (crons w) (dirty w)
                 (trace w ++ [(ConfigDelete nsOld (orName ref),
                               Panicked (PanicForced k))]))
    end.
Proof.
  intros Hc Hst Hs. unfold cleanVolume. rewrite Hc, Hst.
  unfold bind, attempt, config_Delete, invoke, onTx. rewrite Hs.
  destruct (oracle _ _); simpl; unfold record, setPending, addDirty; simpl;
    by rewrite ?Hs.
Qed.

Lemma cleanLoop_run tx m nsOld vs : ∀ w s,
  pending w = Some s ->
  ∃ evs,
    snd (forEach vs (cleanVolume oracle tx m nsOld) w)
    = mkWorld (committed w) (Some (setConfigs (applyDeletes evs (configs s)) s))
              (crons w) (dirty w ++ diagnostics evs) (trace w ++ evs)
    ∧ match fst (forEach vs (cleanVolume oracle tx m nsOld) w) with
      | Ret _ =>
          map fst evs
          = map (ConfigDelete nsOld)
                (filter (fun n => isStale m n = true)
                        (omap (fun v => orName <$> volConfig v) vs))
          ∧ answered oracle (length (trace w)) evs
      | Fail _ => False
      | Fault p =>
          ∃ k n c, p = PanicForced k ∧ isConfigDelete c = true
                   ∧ oracle n c = ForcePanic k
      end.
Proof.
  induction vs as [|v vs IH]; intros w s Hs.
  { exists []. destruct w, s. simpl in *. rewrite !app_nil_r. by subst. }
  assert (Hskip : cleanVolume oracle tx m nsOld v = ret tt ->
          filter (fun n => isStale m n = true)
                 (omap (fun v => orName <$> volConfig v) (v :: vs))
          = filter (fun n => isStale m n = true)
                   (omap (fun v => orName <$> volConfig v) vs) ->
          ∃ evs, snd (forEach (v :: vs) (cleanVolume oracle tx m nsOld) w)
    = mkWorld (committed w) (Some (setConfigs (applyDeletes evs (configs s)) s))
              (crons w) (dirty w ++ diagnostics evs) (trace w ++ evs)
    ∧ match fst (forEach (v :: vs) (cleanVolume oracle tx m nsOld) w) with
      | Ret _ =>
          map fst evs
          = map (ConfigDelete nsOld)
                (filter (fun n => isStale m n = true)
                        (omap (fun v => orName <$> volConfig v) (v :: vs)))
          ∧ answered oracle (length (trace w)) evs
      | Fail _ => False
      | Fault p =>
          ∃ k n c, p = PanicForced k ∧ isConfigDelete c = true
                   ∧ oracle n c = ForcePanic k
      end).
  { intros Hv Hf. destruct (IH w s Hs) as (evs & Hw & Hr). exists evs.
    simpl forEach. rewrite Hv, Hf, !ret_bind. done. }
  destruct (volConfig v) as [ref|] eqn:Hc.
  2:{ apply Hskip; [unfold cleanVolume; by rewrite Hc | simpl; by rewrite Hc]. }
  destruct (isStale m (orName ref)) eqn:Hst.
  2:{ apply Hskip; [unfold cleanVolume; by rewrite Hc, Hst|].
      simpl. rewrite Hc. simpl. rewrite filter_cons_False; [done|]. by rewrite Hst. }
  clear Hskip. simpl forEach. rewrite bind_unfold, (cleanVolume_stale _ _ _ _ _ _ _ Hc Hst Hs).
  simpl omap. rewrite Hc. simpl. rewrite filter_cons_True by done.
  destruct (oracle (length (trace w)) (ConfigDelete nsOld (orName ref))) eqn:Ho.
  - set (w1 := mkWorld _ _ _ _ _).
    destruct (IH w1 (setConfigs (delete (nsOld, orName ref) (configs s)) s) eq_refl)
      as (evs & Hw & Hr).
    exists ((ConfigDelete nsOld (orName ref), Done) :: evs).
    rewrite Hw. subst w1. simpl. rewrite <- app_assoc. split; [done|].
    destruct (fst (forEach vs _ _)); [|done..].
    destruct Hr as [Hm Ha]. rewrite Hm. split; [done|]. rewrite Ho.
    simpl in Ha. rewrite length_app, Nat.add_comm in Ha. done.
  - set (w1 := mkWorld _ _ _ _ _).
    destruct (IH w1 s eq_refl) as (evs & Hw & Hr).
    exists ((ConfigDelete nsOld (orName ref), Failed (ErrForced code)) :: evs).
    rewrite Hw. subst w1. simpl. rewrite <- !app_assoc. split; [done|].
    destruct (fst (forEach vs _ _)); [|done..].
    destruct Hr as [Hm Ha]. rewrite Hm. split; [done|]. rewrite Ho.
    simpl in Ha. rewrite length_app, Nat.add_comm in Ha. done.
  - exists [(ConfigDelete nsOld (orName ref), Panicked (PanicForced code))].
    simpl. rewrite app_nil_r. split; [by destruct s|].
    exists code, (length (trace w)), (ConfigDelete nsOld (orName ref)). done.
Qed.

Lemma applyDeletes_None evs : ∀ (m : gmap (string * string) Configuration) k,
  m !! k = None -> applyDeletes evs m !! k = None.
Proof.
  induction evs as [|[c r] evs IH]; intros m k Hk; [done|]. simpl.
  apply IH. destruct c; try done. destruct r; try done.
  rewrite lookup_delete. case_decide; done.
Qed.

Lemma applyDeletes_deleted evs : ∀ (m : gmap (string * string) Configuration) ns n,
  In (ConfigDelete ns n, Done) evs -> applyDeletes evs m !! (ns, n) = None.
Proof.
  induction evs as [|ev evs IH]; intros m ns n Hin; [done|].
  destruct Hin as [->|Hin]; simpl.
  - apply applyDeletes_None, lookup_delete_eq.
  - by apply IH.
Qed.

Lemma applyDeletes_other evs : ∀ (m : gmap (string * string) Configuration) ns n,
  ¬ In (ConfigDelete ns n, Done) evs -> applyDeletes evs m !! (ns, n) = m !! (ns, n).
Proof.
  induction evs as [|[c r] evs IH]; intros m ns n Hin; [done|]. simpl.
  rewrite IH by (intros H; apply Hin; by right).
  destruct c; try done. destruct r; try done.
  apply lookup_delete_ne. intros [= <- <-]. apply Hin. by left.
Qed.

Lemma deref_bind {A B} line (a : A) (f : A -> M B) w :
  bind (deref line (Some a)) f w = f a w.
Proof. reflexivity. Qed.

Lemma cron_CreateCron_Ret c w w' :
  cron_CreateCron oracle c w = (Ret tt, w') ->
  w' = mkWorld (committed w) (pending w) (<[(cName c, cNamespace c) := c]> (crons w))
               (dirty w) (trace w ++ [(CronCreate c, Done)]).
Proof. intros H. by apply invoke_Ret in H as (_ & w1 & [= <-] & ->). Qed.

Lemma cron_UpdateCron_Ret c w w' :
  cron_UpdateCron oracle c w = (Ret tt, w') ->
  w' = mkWorld (committed w) (pending w) (<[(cName c, cNamespace c) := c]> (crons w))
               (dirty w) (trace w ++ [(CronUpdate c, Done)]).
Proof. intros H. by apply invoke_Ret in H as (_ & w1 & [= <-] & ->). Qed.

Lemma cron_DeleteCron_Ret name ns w w' :
  cron_DeleteCron oracle name ns w = (Ret tt, w') ->
  w' = mkWorld (committed w) (pending w) (delete (name, ns) (crons w))
               (dirty w) (trace w ++ [(CronDelete name ns, Done)]).
Proof. intros H. by apply invoke_Ret in H as (_ & w1 & [= <-] & ->). Qed.

Lemma UpdateNodeAndAppIndex_Ret tx ns a w s w' :
  pending w = Some s ->
  UpdateNodeAndAppIndex oracle matchNodes tx ns a w = (Ret tt, w') ->
  w' = mkWorld (committed w)
         (Some (putIndex ns (aName a) (matchNodes ns (aSelector a))
                  (assignNodes ns a (matchNodes ns (aSelector a)) s)))
         (crons w) (dirty w)
         (trace w ++ [(NodeUpdateAppVersion ns a, Done);
                      (IndexRefresh ns (aName a) (matchNodes ns (aSelector a)), Done)]).
Proof.
  intros Hs H. apply bind_Ret in H as (nodes & w1 & H1 & H2).
  apply tx_call_Ret in H1 as (s1 & Hs1 & -> & ->).
  apply tx_call_Ret in H2 as (s2 & Hs2 & _ & ->). simpl in *.
  simplify_eq. by rewrite <- app_assoc.
Qed.

Lemma DeleteNodeAndAppIndex_Ret tx ns a w s w' :
  pending w = Some s ->
  DeleteNodeAndAppIndex oracle matchNodes tx ns a w = (Ret tt, w') ->
  w' = mkWorld (committed w)
         (Some (putIndex ns (aName a) []
                  (unassignNodes ns a (matchNodes ns (aSelector a)) s)))
         (crons w) (dirty w)
         (trace w ++ [(NodeDeleteAppVersion ns a, Done);
                      (IndexRefresh ns (aName a) [], Done)]).
Proof.
  intros Hs H. apply bind_Ret in H as (nodes & w1 & H1 & H2).
  apply tx_call_Ret in H1 as (s1 & Hs1 & -> & ->).
  apply tx_call_Ret in H2 as (s2 & Hs2 & _ & ->). simpl in *.
  simplify_eq. by rewrite <- app_assoc.
Qed.

Ltac world_eq :=
  unfold txFactory_Commit, record, setPending, setCommitted; simpl;
  f_equal; rewrite <- ?app_assoc; simpl; rewrite <- ?app_assoc, ?app_nil_r;
  reflexivity.

(** A successful [CreateApp], step by step. *)
Lemma CreateApp_Ret ns baseApp a cfgs w a' w' :
  CreateApp oracle matchNodes ns baseApp (Some a) cfgs w = (Ret a', w') ->
  let p := effective a in
  let nodes := matchNodes ns (aSelector p) in
  a' = p
  ∧ w' = mkWorld
      (putIndex ns (aName a) nodes
         (assignNodes ns p nodes (putApp ns p (upsertAll ns cfgs (committed w)))))
      None
      (if bool_decide (aCronStatus a = CronWait)
       then <[(aName a, aNamespace a) := cronOf a]> (crons w) else crons w)
      (dirty w)
      (trace w ++ (TxBegin, Done)
         :: map (fun cfg => (ConfigUpsert ns cfg, Done)) cfgs
         ++ (if bool_decide (aCronStatus a = CronWait)
             then [(CronCreate (cronOf a), Done)] else [])
         ++ [(AppCreateWithBase ns p baseApp, Done);
             (NodeUpdateAppVersion ns p, Done);
             (IndexRefresh ns (aName a) nodes, Done);
             (TxCommit, Done)]).
Proof.
  intros H p nodes. subst p nodes.
  apply bind_Ret in H as (tx & w1 & Hb & H).
  apply txFactory_BeginTx_Ret in Hb as ->.
  apply deferred_Ret in H as (w2 & H & ->).
  apply bind_Ret in H as ([] & w3 & Hu & H).
  eapply updateGen_Ret in Hu; [|reflexivity]. subst w3.
  rewrite deref_bind in H.
  apply bind_Ret in H as (a1 & w4 & Hc & H).
  apply bind_Ret in H as (a2 & w5 & Ha & H).
  apply tx_call_Ret in Ha as (s & Hs & -> & ->).
  apply bind_Ret in H as ([] & w6 & Hn & [= <- <-]).
  unfold effective. case_bool_decide as Hw.
  - apply bind_Ret in Hc as ([] & w7 & Hc & [= <- <-]).
    apply traced_Ret, cron_CreateCron_Ret in Hc as ->. simpl in *. simplify_eq.
    eapply UpdateNodeAndAppIndex_Ret in Hn; [|reflexivity]. subst w6.
    split; [done|]. world_eq.
  - injection Hc as <- <-. simpl in *. simplify_eq.
    eapply UpdateNodeAndAppIndex_Ret in Hn; [|reflexivity]. subst w6.
    split; [done|]. world_eq.
Qed.

Lemma cleanGen_Ret tx cfgs old w s w' :
  pending w = Some s ->
  cleanGenConfigsOfFunctionApp oracle tx cfgs (Some old) w = (Ret tt, w') ->
  ∃ evs,
    w' = mkWorld (committed w) (Some (setConfigs (applyDeletes evs (configs s)) s))
                 (crons w) (dirty w ++ diagnostics evs) (trace w ++ evs)
    ∧ map fst evs = map (ConfigDelete (aNamespace old)) (staleNames cfgs old)
    ∧ answered oracle (length (trace w)) evs.
Proof.
  intros Hs H. unfold cleanGenConfigsOfFunctionApp in H. rewrite deref_bind in H.
  destruct (cleanLoop_run tx (survivors cfgs) (aNamespace old) (aVolumes old) w s Hs)
    as (evs & Hw & Hr).
  rewrite H in Hw, Hr. simpl in Hw, Hr. exists evs. by destruct Hr.
Qed.

(** A successful [UpdateApp], step by step; [evs] are the events of the
    reconciliation. *)
Lemma UpdateApp_Ret ns old a cfgs w a' w' :
  UpdateApp oracle matchNodes ns (Some old) (Some a) cfgs w = (Ret a', w') ->
  let p := effective a in
  let nodes := matchNodes ns (aSelector p) in
  let wait := bool_decide (aCronStatus a = CronWait) in
  let teardown := bool_decide (aCronStatus old = CronWait)
                  && bool_decide (aCronStatus a = CronNotSet) in
  let changed := bool_decide (aSelector old ≠ aSelector p) in
  let s1 := putApp ns p (upsertAll ns cfgs (committed w)) in
  let s2 := if changed
            then putIndex ns (aName old) []
                   (unassignNodes ns old (matchNodes ns (aSelector old)) s1)
            else s1 in
  let s3 := putIndex ns (aName a) nodes (assignNodes ns p nodes s2) in
  let c1 := if wait then <[(aName a, aNamespace a) := cronOf a]> (crons w)
            else crons w in
  let pre := (TxBegin, Done)
       :: map (fun cfg => (ConfigUpsert ns cfg, Done)) cfgs
       ++ (if wait then [(CronUpdate (cronOf a), Done)] else [])
       ++ (if teardown then [(CronDelete (aName a) ns, Done)] else [])
       ++ [(AppUpdate ns p, Done)]
       ++ (if changed
           then [(NodeDeleteAppVersion ns old, Done);
                 (IndexRefresh ns (aName old) [], Done)]
           else [])
       ++ [(NodeUpdateAppVersion ns p, Done);
           (IndexRefresh ns (aName a) nodes, Done)] in
  a' = p
  ∧ ∃ evs k,
      w' = mkWorld (setConfigs (applyDeletes evs (configs s3)) s3) None
                   (if teardown then delete (aName a, ns) c1 else c1)
                   (dirty w ++ diagnostics evs)
                   (trace w ++ pre ++ evs ++ [(TxCommit, Done)])
      ∧ map fst evs = map (ConfigDelete (aNamespace old)) (staleNames cfgs old)
      ∧ answered oracle k evs.
Proof.
  intros H. cbv zeta.
  apply bind_Ret in H as (tx & w1 & Hb & H).
  apply txFactory_BeginTx_Ret in Hb as ->.
  apply deferred_Ret in H as (w2 & H & ->).
  apply bind_Ret in H as ([] & w3 & Hu & H).
  eapply updateGen_Ret in Hu; [|reflexivity]. subst w3.
  rewrite deref_bind in H.
  apply bind_Ret in H as (a1 & w4 & Hc & H).
  rewrite deref_bind in H.
  apply bind_Ret in H as ([] & w5 & Hd & H).
  apply bind_Ret in H as (a2 & w6 & Ha & H).
  apply bind_Ret in H as ([] & w7 & Hx & H).
  apply bind_Ret in H as ([] & w8 & Hn & H).
  apply bind_Ret in H as ([] & w9 & Hg & [= <- <-]).
  unfold effective in *.
  destruct (bool_decide (aCronStatus a = CronWait)) eqn:Ew;
    destruct (bool_decide (aCronStatus old = CronWait)) eqn:Eo;
    destruct (bool_decide (aCronStatus a = CronNotSet)) eqn:En;
    cbn [andb] in *;
    (* step 2: the Cron record of a waiting application *)
    first [ apply bind_Ret in Hc as ([] & w' & Hc & [= <- <-]);
            apply traced_Ret, cron_UpdateCron_Ret in Hc; subst w'
          | injection Hc as <- <- ];
    cbn [aCronStatus aName aSelector setSelector] in *; rewrite ?Eo, ?En in Hd;
    cbn [andb] in Hd;
    (* step 3: the teardown of the Cron record *)
    first [ apply traced_Ret, cron_DeleteCron_Ret in Hd; subst w5
          | injection Hd as <- ];
    (* step 4: the Application record *)
    apply tx_call_Ret in Ha as (s & Hs & -> & ->);
    cbn [fst snd committed pending crons dirty trace] in *;
    injection Hs as <-;
    (* step 5: the node index *)
    match type of Hx with
    | context [bool_decide ?P] => destruct (bool_decide P) eqn:Ec
    end;
    first [ eapply DeleteNodeAndAppIndex_Ret in Hx; [|reflexivity]; subst w7
          | injection Hx as <- ];
    (eapply UpdateNodeAndAppIndex_Ret in Hn; [|reflexivity]); subst w8;
    (* reconciliation *)
    (eapply cleanGen_Ret in Hg as (evs & -> & Hm & Hans); [|reflexivity]);
    (split; [done|]); exists evs; eexists;
    (split; [|split; [exact Hm | exact Hans]]);
    cbn [aCronStatus aName aSelector setSelector] in Ec |- *; rewrite ?Ec;
    world_eq.
Qed.

(** A successful [DeleteApp], step by step. *)
Lemma DeleteApp_Ret ns name a w w' :
  DeleteApp oracle matchNodes ns name (Some a) w = (Ret tt, w') ->
  let wait := bool_decide (aCronStatus a = CronWait) in
  let s1 := putIndex ns (aName a) []
              (unassignNodes ns a (matchNodes ns (aSelector a))
                 (dropApp ns name (committed w))) in
  ∃ evs k,
    w' = mkWorld (setConfigs (applyDeletes evs (configs s1)) s1) None
                 (if wait then delete (name, ns) (crons w) else crons w)
                 (dirty w ++ diagnostics evs)
                 (trace w ++ (TxBegin, Done)
                    :: (if wait then [(CronDelete name ns, Done)] else [])
                    ++ [(AppDelete ns name "", Done);
                        (NodeDeleteAppVersion ns a, Done);
                        (IndexRefresh ns (aName a) [], Done)]
                    ++ evs ++ [(TxCommit, Done)])
    ∧ map fst evs = map (ConfigDelete (aNamespace a)) (staleNames [] a)
    ∧ answered oracle k evs.
Proof.
  intros H. cbv zeta.
  apply bind_Ret in H as (tx & w1 & Hb & H).
  apply txFactory_BeginTx_Ret in Hb as ->.
  apply deferred_Ret in H as (w2 & H & ->).
  unfold deleteBody in H. rewrite deref_bind in H.
  apply bind_Ret in H as ([] & w3 & Hc & H).
  apply bind_Ret in H as ([] & w4 & Ha & H).
  apply bind_Ret in H as ([] & w5 & Hx & Hg).
  destruct (bool_decide (aCronStatus a = CronWait)) eqn:Ew;
    first [ apply traced_Ret, cron_DeleteCron_Ret in Hc; subst w3
          | injection Hc as <- ];
    apply tx_call_Ret in Ha as (s & Hs & _ & ->);
    cbn [fst snd committed pending crons dirty trace] in *;
    injection Hs as <-;
    (eapply DeleteNodeAndAppIndex_Ret in Hx; [|reflexivity]); subst w5;
    (eapply cleanGen_Ret in Hg as (evs & -> & Hm & Hans); [|reflexivity]);
    exists evs; eexists; (split; [|split; [exact Hm | exact Hans]]);
    world_eq.
Qed.

(** *** Runs in which only Configuration deletions are made to fail *)

Section Progress.

Hypothesis others_proceed : ∀ n c, isConfigDelete c = false -> oracle n c = Proceed.
Hypothesis no_fault : ∀ n c k, oracle n c ≠ ForcePanic k.

Lemma proceeds_ret {A} (a : A) : proceeds (ret a).
Proof. intros w s Hs. by exists a, w, s. Qed.

Lemma proceeds_bind {A B} (m : M A) (f : A -> M B) :
  proceeds m -> (∀ a, proceeds (f a)) -> proceeds (bind m f).
Proof.
  intros Hm Hf w s Hs. destruct (Hm w s Hs) as (a & w1 & s1 & E & Hs1).
  rewrite bind_unfold, E. by apply (Hf a w1 s1).
Qed.

Lemma proceeds_traced {A} (m : M A) : proceeds m -> proceeds (traced m).
Proof.
  intros Hm w s Hs. destruct (Hm w s Hs) as (a & w1 & s1 & E & Hs1).
  unfold traced. rewrite E. eauto.
Qed.

Lemma proceeds_forEach {A} (l : list A) (body : A -> M unit) :
  (∀ x, proceeds (body x)) -> proceeds (forEach l body).
Proof.
  intros Hb. induction l as [|x l IH]; simpl.
  - apply proceeds_ret.
  - apply proceeds_bind; auto.
Qed.

Lemma proceeds_tx_call {A} c (f : Stores -> A * Stores) :
  isConfigDelete c = false -> proceeds (invoke oracle c (onTx f)).
Proof.
  intros Hc w s Hs. unfold invoke, onTx. rewrite others_proceed, Hs by done.
  destruct (f s) as [a s1]. by exists a, (record c Done (setPending (Some s1) w)), s1.
Qed.

Lemma proceeds_cron_call c (g : World -> World) :
  isConfigDelete c = false -> (∀ w, pending (g w) = pending w) ->
  proceeds (invoke oracle c (fun w => (inr tt, g w))).
Proof.
  intros Hc Hg w s Hs. unfold invoke. rewrite others_proceed by done.
  exists tt, (record c Done (g w)), s. split; [done|]. simpl. by rewrite Hg.
Qed.

Lemma proceeds_cleanGen tx cfgs old :
  proceeds (cleanGenConfigsOfFunctionApp oracle tx cfgs (Some old)).
Proof.
  intros w s Hs. unfold cleanGenConfigsOfFunctionApp.
  destruct (cleanLoop_run tx (survivors cfgs) (aNamespace old) (aVolumes old) w s Hs)
    as (evs & Hw & Hr).
  destruct (forEach _ _ w) as [r w1] eqn:E. simpl in Hw, Hr. subst w1.
  destruct r as [[]|e|p]; [| done |].
  - eexists tt, _, _. split; [exact E | done].
  - destruct Hr as (k & n & c & _ & _ & Hk). by apply no_fault in Hk.
Qed.

Lemma proceeds_UpdateNodeAndAppIndex tx ns a :
  proceeds (UpdateNodeAndAppIndex oracle matchNodes tx ns a).
Proof.
  apply proceeds_bind; [|intros nodes]; by apply proceeds_tx_call.
Qed.

Lemma proceeds_DeleteNodeAndAppIndex tx ns a :
  proceeds (DeleteNodeAndAppIndex oracle matchNodes tx ns a).
Proof.
  apply proceeds_bind; [|intros nodes]; by apply proceeds_tx_call.
Qed.

Lemma proceeds_updateBody tx ns old a cfgs :
  proceeds (updateBody oracle matchNodes tx ns (Some old) (Some a) cfgs).
Proof.
  unfold updateBody.
  apply proceeds_bind.
  { apply proceeds_forEach. intros cfg.
    apply proceeds_bind; [by apply proceeds_tx_call | intros; apply proceeds_ret]. }
  intros _. apply (proceeds_bind (ret a)); [apply proceeds_ret|]. intros a0.
  apply proceeds_bind.
  { destruct (bool_decide _); [|apply proceeds_ret].
    apply proceeds_bind; [|intros; apply proceeds_ret].
    by apply proceeds_traced, proceeds_cron_call. }
  intros a1. apply (proceeds_bind (ret old)); [apply proceeds_ret|]. intros old0.
  apply proceeds_bind.
  { destruct (_ && _); [|apply proceeds_ret].
    by apply proceeds_traced, proceeds_cron_call. }
  intros _. apply proceeds_bind; [by apply proceeds_tx_call|]. intros a2.
  apply proceeds_bind.
  { destruct (bool_decide _); [apply proceeds_DeleteNodeAndAppIndex | apply proceeds_ret]. }
  intros _. apply proceeds_bind; [apply proceeds_UpdateNodeAndAppIndex|].
  intros _. apply proceeds_bind; [apply proceeds_cleanGen | intros; apply proceeds_ret].
Qed.

Lemma proceeds_deleteBody tx ns name a :
  proceeds (deleteBody oracle matchNodes tx ns name (Some a)).
Proof.
  unfold deleteBody.
  apply (proceeds_bind (ret a)); [apply proceeds_ret|]. intros a0.
  apply proceeds_bind.
  { destruct (bool_decide _); [|apply proceeds_ret].
    by apply proceeds_traced, proceeds_cron_call. }
  intros _. apply proceeds_bind; [by apply proceeds_tx_call|].
  intros _. apply proceeds_bind; [apply proceeds_DeleteNodeAndAppIndex|].
  intros _. apply proceeds_cleanGen.
Qed.

Lemma proceeds_transact {A} (body : Tx -> M A) w :
  (∀ tx, proceeds (body tx)) -> ∃ a w', transact oracle body w = (Ret a, w').
Proof.
  intros Hb. unfold transact, txFactory_BeginTx, invoke.
  rewrite bind_unfold, others_proceed by done. unfold deferred.
  edestruct (Hb TxHandle) as (a & w1 & s1 & E & _); [|rewrite E; eauto].
  reflexivity.
Qed.

End Progress.

End Runs.

Lemma continues_inj w w' evs1 evs2 :
  continues w w' evs1 -> continues w w' evs2 -> evs1 = evs2.
Proof. unfold continues. intros -> H. by apply app_inv_head in H. Qed.

(** *** The Cron store and the dirty-data log follow the calls *)

Lemma journal_refl w : journal w w.
Proof.
  exists []. unfold continues. simpl. by rewrite !app_nil_r.
Qed.

Lemma journal_trans w1 w2 w3 : journal w1 w2 -> journal w2 w3 -> journal w1 w3.
Proof.
  intros (e1 & Ht1 & Hc1 & Hd1) (e2 & Ht2 & Hc2 & Hd2). exists (e1 ++ e2).
  unfold continues, applyCrons, diagnostics in *. split_and!.
  - rewrite Ht2, Ht1. by rewrite app_assoc.
  - rewrite Hc2, Hc1. by rewrite foldl_app.
  - rewrite Hd2, Hd1, flat_map_app. by rewrite app_assoc.
Qed.

(** One event that is neither a Cron call nor a Configuration deletion. *)
Lemma journal_event c r w w1 :
  isCronCall c = false -> isConfigDelete c = false ->
  trace w1 = trace w -> crons w1 = crons w -> dirty w1 = dirty w ->
  journal w (record c r w1).
Proof.
  intros Hc Hd Ht Hcr Hdi. exists [(c, r)]. unfold continues. simpl.
  rewrite Ht, Hcr, Hdi. split_and!; [done | by destruct c | ].
  destruct c; simpl in *; try done; by rewrite app_nil_r.
Qed.

Section Journal.

Variable oracle : nat -> Call -> decision.
Variable matchNodes : string -> string -> list string.

Lemma journaled_ret {A} (a : A) : journaled (ret a).
Proof. intros w. apply journal_refl. Qed.

Lemma journaled_deref {A} line (p : option A) : journaled (deref line p).
Proof. intros w. destruct p; apply journal_refl. Qed.

Lemma journaled_bind {A B} (m : M A) (f : A -> M B) :
  journaled m -> (∀ a, journaled (f a)) -> journaled (bind m f).
Proof.
  intros Hm Hf w. rewrite bind_unfold. specialize (Hm w).
  destruct (m w) as [[a|e|p] w1]; simpl in *; try done.
  eapply journal_trans; [exact Hm | apply Hf].
Qed.

Lemma journaled_traced {A} (m : M A) : journaled m -> journaled (traced m).
Proof.
  intros Hm w. unfold traced. specialize (Hm w). by destruct (m w) as [[a|e|p] w1].
Qed.

Lemma journaled_attempt {A} (m : M A) : journaled m -> journaled (attempt m).
Proof.
  intros Hm w. unfold attempt. specialize (Hm w). by destruct (m w) as [[a|e|p] w1].
Qed.

Lemma journaled_forEach {A} (l : list A) (body : A -> M unit) :
  (∀ x, journaled (body x)) -> journaled (forEach l body).
Proof.
  intros Hb. induction l as [|x l IH]; simpl;
    [apply journaled_ret | apply journaled_bind; auto].
Qed.

Lemma journaled_call {A} c (act : World -> (error + A) * World) :
  isCronCall c = false -> isConfigDelete c = false ->
  (∀ w, trace (snd (act w)) = trace w ∧ crons (snd (act w)) = crons w
        ∧ dirty (snd (act w)) = dirty w) ->
  journaled (invoke oracle c act).
Proof.
  intros Hc Hd Hact w. unfold invoke. destruct (Hact w) as (Ht & Hcr & Hdi).
  destruct (oracle _ c); [destruct (act w) as [[e|a] w1]|..]; simpl in *;
    by apply journal_event.
Qed.

Lemma onTx_silent {A} (f : Stores -> A * Stores) w :
  trace (snd (onTx f w)) = trace w ∧ crons (snd (onTx f w)) = crons w
  ∧ dirty (snd (onTx f w)) = dirty w.
Proof. unfold onTx. destruct (pending w); [destruct (f _)|]; done. Qed.

Lemma journaled_tx_call {A} c (f : Stores -> A * Stores) :
  isCronCall c = false -> isConfigDelete c = false ->
  journaled (invoke oracle c (onTx f)).
Proof. intros Hc Hd. apply journaled_call; [done..|]. intros w. apply onTx_silent. Qed.

Lemma journaled_cron_CreateCron c : journaled (cron_CreateCron oracle c).
Proof.
  intros w. unfold cron_CreateCron, invoke.
  destruct (oracle _ _); simpl; eexists [(_, _)]; unfold continues; simpl;
    (split_and!; [reflexivity | done | by rewrite ?app_nil_r]).
Qed.

Lemma journaled_cron_UpdateCron c : journaled (cron_UpdateCron oracle c).
Proof.
  intros w. unfold cron_UpdateCron, invoke.
  destruct (oracle _ _); simpl; eexists [(_, _)]; unfold continues; simpl;
    (split_and!; [reflexivity | done | by rewrite ?app_nil_r]).
Qed.

Lemma journaled_cron_DeleteCron name ns : journaled (cron_DeleteCron oracle name ns).
Proof.
  intros w. unfold cron_DeleteCron, invoke.
  destruct (oracle _ _); simpl; eexists [(_, _)]; unfold continues; simpl;
    (split_and!; [reflexivity | done | by rewrite ?app_nil_r]).
Qed.

Lemma journaled_cron_GetCron name ns : journaled (cron_GetCron oracle name ns).
Proof.
  intros w. unfold cron_GetCron, invoke.
  destruct (oracle _ _); [destruct (crons w !! (name, ns))|..]; simpl;
    eexists [(_, _)]; unfold continues; simpl;
    (split_and!; [reflexivity | done | by rewrite ?app_nil_r]).
Qed.

(** The reconciliation of one volume: the diagnostic is logged exactly
    when the deletion failed. *)
Lemma journaled_cleanVolume tx m ns v : journaled (cleanVolume oracle tx m ns v).
Proof.
  unfold cleanVolume. destruct (volConfig v) as [ref|]; [|apply journaled_ret].
  destruct (isStale m (orName ref)); [|apply journaled_ret].
  intros w. unfold attempt, config_Delete, invoke, onTx, LogDirtyData. rewrite bind_unfold.
  destruct (oracle _ _); [destruct (pending w)|..]; simpl;
    eexists [(_, _)]; unfold continues; simpl;
    (split_and!; [reflexivity | done | by rewrite ?app_nil_r]).
Qed.

Lemma journaled_updateGen tx ns cfgs :
  journaled (updateGenConfigsOfFunctionApp oracle tx ns cfgs).
Proof.
  apply journaled_forEach. intros cfg.
  apply journaled_bind; [by apply journaled_tx_call | intros; apply journaled_ret].
Qed.

Lemma journaled_cleanGen tx cfgs oldApp :
  journaled (cleanGenConfigsOfFunctionApp oracle tx cfgs oldApp).
Proof.
  apply journaled_bind; [apply journaled_deref|]. intros old.
  apply journaled_forEach. intros v. apply journaled_cleanVolume.
Qed.

Lemma journaled_UpdateNodeAndAppIndex tx ns a :
  journaled (UpdateNodeAndAppIndex oracle matchNodes tx ns a).
Proof. apply journaled_bind; [|intros nodes]; by apply journaled_tx_call. Qed.

Lemma journaled_DeleteNodeAndAppIndex tx ns a :
  journaled (DeleteNodeAndAppIndex oracle matchNodes tx ns a).
Proof. apply journaled_bind; [|intros nodes]; by apply journaled_tx_call. Qed.

Lemma journaled_createBody tx ns baseApp app cfgs :
  journaled (createBody oracle matchNodes tx ns baseApp app cfgs).
Proof.
  apply journaled_bind; [apply journaled_updateGen|]. intros _.
  apply journaled_bind; [apply journaled_deref|]. intros a.
  apply journaled_bind.
  { destruct (bool_decide (aCronStatus a = CronWait)); [|apply journaled_ret].
    apply journaled_bind; [|intros; apply journaled_ret].
    apply journaled_traced, journaled_cron_CreateCron. }
  intros a1. apply journaled_bind; [by apply journaled_tx_call|]. intros a2.
  apply journaled_bind; [apply journaled_UpdateNodeAndAppIndex|].
  intros; apply journaled_ret.
Qed.

Lemma journaled_updateBody tx ns oldApp app cfgs :
  journaled (updateBody oracle matchNodes tx ns oldApp app cfgs).
Proof.
  apply journaled_bind; [apply journaled_updateGen|]. intros _.
  apply journaled_bind; [apply journaled_deref|]. intros a.
  apply journaled_bind.
  { destruct (bool_decide (aCronStatus a = CronWait)); [|apply journaled_ret].
    apply journaled_bind; [|intros; apply journaled_ret].
    apply journaled_traced, journaled_cron_UpdateCron. }
  intros a1. apply journaled_bind; [apply journaled_deref|]. intros old.
  apply journaled_bind.
  { destruct (_ && _); [|apply journaled_ret].
    apply journaled_traced, journaled_cron_DeleteCron. }
  intros _. apply journaled_bind; [by apply journaled_tx_call|]. intros a2.
  apply journaled_bind.
  { destruct oldApp as [old'|]; [|apply journaled_ret].
    destruct (bool_decide (aSelector old' ≠ aSelector a2));
      [apply journaled_DeleteNodeAndAppIndex | apply journaled_ret]. }
  intros _. apply journaled_bind; [apply journaled_UpdateNodeAndAppIndex|]. intros _.
  apply journaled_bind; [apply journaled_cleanGen | intros; apply journaled_ret].
Qed.

Lemma journaled_deleteBody tx ns name app :
  journaled (deleteBody oracle matchNodes tx ns name app).
Proof.
  apply journaled_bind; [apply journaled_deref|]. intros a.
  apply journaled_bind.
  { destruct (bool_decide (aCronStatus a = CronWait)); [|apply journaled_ret].
    apply journaled_traced, journaled_cron_DeleteCron. }
  intros _. apply journaled_bind; [by apply journaled_tx_call|]. intros _.
  apply journaled_bind; [apply journaled_DeleteNodeAndAppIndex|]. intros _.
  apply journaled_cleanGen.
Qed.

Lemma journaled_transact {A} (body : Tx -> M A) :
  (∀ tx, journaled (body tx)) -> journaled (transact oracle body).
Proof.
  intros Hb. apply journaled_bind.
  { apply journaled_call; [done..|]. by intros w. }
  intros tx w. unfold deferred. specialize (Hb tx w).
  destruct (body tx w) as [[a|e|p] w1]; simpl in *;
    (eapply journal_trans; [exact Hb|]);
    unfold txFactory_Commit, txFactory_Rollback; try destruct (pending w1);
    by apply journal_event.
Qed.

Lemma journaled_GetApp ns name version : journaled (GetApp oracle ns name version).
Proof.
  apply journaled_bind.
  { apply journaled_traced, journaled_call; [done..|].
    intros w. by destruct (apps (committed w) !! (ns, name)). }
  intros [a|]; [|apply journaled_ret].
  destruct (bool_decide (aCronStatus a = CronWait)); [|apply journaled_ret].
  apply journaled_bind.
  - apply journaled_attempt, journaled_cron_GetCron.
  - intros [e|c]; apply journaled_ret.
Qed.

End Journal.

Lemma CreateApp_journal oracle mn ns baseApp app cfgs w :
  journal w (snd (CreateApp oracle mn ns baseApp app cfgs w)).
Proof.
  apply (journaled_transact oracle (fun tx => createBody oracle mn tx ns baseApp app cfgs)).
  intros tx. apply journaled_createBody.
Qed.

Lemma UpdateApp_journal oracle mn ns oldApp app cfgs w :
  journal w (snd (UpdateApp oracle mn ns oldApp app cfgs w)).
Proof.
  apply (journaled_transact oracle (fun tx => updateBody oracle mn tx ns oldApp app cfgs)).
  intros tx. apply journaled_updateBody.
Qed.

Lemma DeleteApp_journal oracle mn ns name app w :
  journal w (snd (DeleteApp oracle mn ns name app w)).
Proof.
  apply (journaled_transact oracle (fun tx => deleteBody oracle mn tx ns name app)).
  intros tx. apply journaled_deleteBody.
Qed.

(** *** Steps stop at the first failure *)

Lemma quiet_existsb evs :
  Forall (fun ev => aborting ev = false) evs -> existsb aborting evs = false.
Proof.
  induction 1 as [|ev evs H _ IH]; [done|]. simpl. by rewrite H, IH.
Qed.

Section Abort.

Variable oracle : nat -> Call -> decision.
Variable matchNodes : string -> string -> list string.

Lemma stops_ret {A} (a : A) : stopsAtAbort (ret a).
Proof.
  intros w. exists []. split; [unfold continues; simpl; by rewrite app_nil_r|].
  constructor.
Qed.

Lemma stops_deref {A} line (p : option A) : stopsAtAbort (deref line p).
Proof.
  intros w. exists []. split; [unfold continues; destruct p; simpl; by rewrite app_nil_r|].
  destruct p; simpl; [constructor|]. right. split; [eauto | constructor].
Qed.

Lemma stops_bind {A B} (m : M A) (f : A -> M B) :
  stopsAtAbort m -> (∀ a, stopsAtAbort (f a)) -> stopsAtAbort (bind m f).
Proof.
  intros Hm Hf w. rewrite bind_unfold. destruct (Hm w) as (evs1 & Hc1 & Hr1).
  destruct (m w) as [[a|e|p] w1]; simpl in *; [|by exists evs1..].
  destruct (Hf a w1) as (evs2 & Hc2 & Hr2). exists (evs1 ++ evs2).
  unfold continues in *. split; [rewrite Hc2, Hc1; by rewrite app_assoc|].
  destruct (fst (f a w1)); simpl in *.
  - by apply Forall_app.
  - destruct Hr2 as (pre & ev & -> & Hev & Hpre). exists (evs1 ++ pre), ev.
    split_and!; [by rewrite app_assoc | done | by apply Forall_app].
  - destruct Hr2 as [(pre & ev & -> & Hev & Hpre)|[Hl Hq]].
    + left. exists (evs1 ++ pre), ev.
      split_and!; [by rewrite app_assoc | done | by apply Forall_app].
    + right. split; [done | by apply Forall_app].
Qed.

Lemma stops_traced {A} (m : M A) : stopsAtAbort m -> stopsAtAbort (traced m).
Proof.
  intros Hm w. unfold traced. destruct (Hm w) as (evs & Hc & Hr).
  destruct (m w) as [[a|e|p] w1]; by exists evs.
Qed.

Lemma stops_forEach {A} (l : list A) (body : A -> M unit) :
  (∀ x, stopsAtAbort (body x)) -> stopsAtAbort (forEach l body).
Proof.
  intros Hb. induction l as [|x l IH]; simpl;
    [apply stops_ret | apply stops_bind; auto].
Qed.

(** A store call whose error is returned to the caller. *)
Lemma stops_call {A} c (act : World -> (error + A) * World) :
  isConfigDelete c = false -> (∀ w, trace (snd (act w)) = trace w) ->
  stopsAtAbort (invoke oracle c act).
Proof.
  intros Hc Hact w. unfold invoke. specialize (Hact w).
  destruct (oracle _ c); [destruct (act w) as [[e|a] w1]|..]; simpl in *;
    eexists [(c, _)]; (split; [unfold continues; simpl; by rewrite ?Hact|]); simpl.
  - exists [], (c, Failed e).
    split_and!; [done | unfold aborting; simpl; by rewrite Hc | constructor].
  - by repeat constructor.
  - exists [], (c, Failed (ErrForced code)).
    split_and!; [done | unfold aborting; simpl; by rewrite Hc | constructor].
  - left. exists [], (c, Panicked (PanicForced code)).
    split_and!; [done | done | constructor].
Qed.

Lemma stops_tx_call {A} c (f : Stores -> A * Stores) :
  isConfigDelete c = false -> stopsAtAbort (invoke oracle c (onTx f)).
Proof. intros Hc. apply stops_call; [done|]. intros w. apply onTx_quiet. Qed.

(** The reconciliation of one volume: the error of the deletion is logged,
    only its fault stops the step. *)
Lemma stops_cleanVolume tx m ns v : stopsAtAbort (cleanVolume oracle tx m ns v).
Proof.
  unfold cleanVolume. destruct (volConfig v) as [ref|]; [|apply stops_ret].
  destruct (isStale m (orName ref)); [|apply stops_ret].
  intros w. unfold attempt, config_Delete, invoke, onTx, LogDirtyData. rewrite bind_unfold.
  destruct (oracle _ _); [destruct (pending w)|..]; simpl;
    eexists [(_, _)]; (split; [reflexivity|]); simpl; try by repeat constructor.
  left. eexists [], _. split_and!; [done | done | constructor].
Qed.

Lemma stops_updateGen tx ns cfgs :
  stopsAtAbort (updateGenConfigsOfFunctionApp oracle tx ns cfgs).
Proof.
  apply stops_forEach. intros cfg.
  apply stops_bind; [by apply stops_tx_call | intros; apply stops_ret].
Qed.

Lemma stops_cleanGen tx cfgs oldApp :
  stopsAtAbort (cleanGenConfigsOfFunctionApp oracle tx cfgs oldApp).
Proof.
  apply stops_bind; [apply stops_deref|]. intros old.
  apply stops_forEach. intros v. apply stops_cleanVolume.
Qed.

Lemma stops_UpdateNodeAndAppIndex tx ns a :
  stopsAtAbort (UpdateNodeAndAppIndex oracle matchNodes tx ns a).
Proof. apply stops_bind; [|intros nodes]; by apply stops_tx_call. Qed.

Lemma stops_DeleteNodeAndAppIndex tx ns a :
  stopsAtAbort (DeleteNodeAndAppIndex oracle matchNodes tx ns a).
Proof. apply stops_bind; [|intros nodes]; by apply stops_tx_call. Qed.

Lemma stops_createBody tx ns baseApp app cfgs :
  stopsAtAbort (createBody oracle matchNodes tx ns baseApp app cfgs).
Proof.
  apply stops_bind; [apply stops_updateGen|]. intros _.
  apply stops_bind; [apply stops_deref|]. intros a.
  apply stops_bind.
  { destruct (bool_decide (aCronStatus a = CronWait)); [|apply stops_ret].
    apply stops_bind; [by apply stops_traced, stops_call | intros; apply stops_ret]. }
  intros a1. apply stops_bind; [by apply stops_tx_call|]. intros a2.
  apply stops_bind; [apply stops_UpdateNodeAndAppIndex | intros; apply stops_ret].
Qed.

Lemma stops_updateBody tx ns oldApp app cfgs :
  stopsAtAbort (updateBody oracle matchNodes tx ns oldApp app cfgs).
Proof.
  apply stops_bind; [apply stops_updateGen|]. intros _.
  apply stops_bind; [apply stops_deref|]. intros a.
  apply stops_bind.
  { destruct (bool_decide (aCronStatus a = CronWait)); [|apply stops_ret].
    apply stops_bind; [by apply stops_traced, stops_call | intros; apply stops_ret]. }
  intros a1. apply stops_bind; [apply stops_deref|]. intros old.
  apply stops_bind.
  { destruct (_ && _); [by apply stops_traced, stops_call | apply stops_ret]. }
  intros _. apply stops_bind; [by apply stops_tx_call|]. intros a2.
  apply stops_bind.
  { destruct oldApp as [old'|]; [|apply stops_ret].
    destruct (bool_decide (aSelector old' ≠ aSelector a2));
      [apply stops_DeleteNodeAndAppIndex | apply stops_ret]. }
  intros _. apply stops_bind; [apply stops_UpdateNodeAndAppIndex|]. intros _.
  apply stops_bind; [apply stops_cleanGen | intros; apply stops_ret].
Qed.

Lemma stops_deleteBody tx ns name app :
  stopsAtAbort (deleteBody oracle matchNodes tx ns name app).
Proof.
  apply stops_bind; [apply stops_deref|]. intros a.
  apply stops_bind.
  { destruct (bool_decide (aCronStatus a = CronWait));
      [by apply stops_traced, stops_call | apply stops_ret]. }
  intros _. apply stops_bind; [by apply stops_tx_call|]. intros _.
  apply stops_bind; [apply stops_DeleteNodeAndAppIndex|]. intros _.
  apply stops_cleanGen.
Qed.

(** A bracketed body: the first aborting reply, be it that of BeginTx or
    of a call of the body, makes the operation fail, and only the rollback
    follows it. *)
Lemma transact_stops {A} (body : Tx -> M A) w :
  (∀ tx, stopsAtAbort (body tx)) ->
  ∃ evs, continues w (snd (transact oracle body w)) evs
    ∧ (existsb aborting evs = true ->
         (∀ a, fst (transact oracle body w) ≠ Ret a)
         ∧ ∃ pre ev, aborting ev = true
             ∧ Forall (fun ev => aborting ev = false) pre
             ∧ ((fst ev = TxBegin ∧ evs = [ev])
                ∨ evs = pre ++ [ev; (TxRollback, Done)])).
Proof.
  intros Hb. unfold transact, txFactory_BeginTx, invoke. rewrite bind_unfold.
  destruct (oracle _ TxBegin); simpl.
  - unfold deferred.
    destruct (Hb TxHandle (record TxBegin Done (setPending (Some (committed w)) w)))
      as (evs & Hc & Hr).
    assert (Hend : ∀ fin w4, trace w4 = trace (snd (body TxHandle
                      (record TxBegin Done (setPending (Some (committed w)) w))))
                                ++ [(fin, Done)] ->
              continues w w4 ((TxBegin, Done) :: evs ++ [(fin, Done)])).
    { intros fin w4 E. unfold continues in *. simpl in Hc. rewrite E, Hc, <- !app_assoc. done. }
    destruct (body TxHandle _) as [[a|e|p] w1]; simpl in *.
    + eexists. split; [apply Hend; unfold txFactory_Commit; by destruct (pending w1)|].
      intros Hex. exfalso. simpl in Hex. rewrite existsb_app in Hex. simpl in Hex.
      rewrite (quiet_existsb _ Hr) in Hex. done.
    + eexists. split; [by apply Hend|]. intros _. split; [done|].
      destruct Hr as (pre & ev & -> & Hev & Hpre). exists ((TxBegin, Done) :: pre), ev.
      split_and!; [done | by constructor |]. right. simpl. by rewrite <- app_assoc.
    + eexists. split; [by apply Hend|]. intros Hex. split; [done|].
      destruct Hr as [(pre & ev & -> & Hev & Hpre)|[_ Hq]].
      * exists ((TxBegin, Done) :: pre), ev.
        split_and!; [done | by constructor |]. right. simpl. by rewrite <- app_assoc.
      * exfalso. simpl in Hex. rewrite existsb_app in Hex. simpl in Hex.
        rewrite (quiet_existsb _ Hq) in Hex. done.
  - exists [(TxBegin, Failed (ErrForced code))]. split; [done|]. intros _. split; [done|].
    exists [], (TxBegin, Failed (ErrForced code)). split_and!; [done | constructor | by left].
  - exists [(TxBegin, Panicked (PanicForced code))]. split; [done|]. intros _. split; [done|].
    exists [], (TxBegin, Panicked (PanicForced code)).
    split_and!; [done | constructor | by left].
Qed.

End Abort.

(** ** The claims *)

Lemma bracketed_rollback {A} φ w (r : outcome A) w' :
  bracketed φ w r w' -> (∀ a, r ≠ Ret a) -> committed w' = committed w.
Proof.
  intros [(rep & _ & _ & Hc & _)|(evs & fin & _ & _ & _ & [[_ [a ->]]|(_ & _ & Hc)])] Hr;
    [done | by destruct (Hr a) | done].
Qed.

Lemma CreateApp_bracketed oracle mn ns baseApp app cfgs w :
  bracketed (fun ev => createCall mn ns baseApp app cfgs (fst ev)) w
    (fst (CreateApp oracle mn ns baseApp app cfgs w))
    (snd (CreateApp oracle mn ns baseApp app cfgs w)).
Proof.
  apply (transact_bracketed oracle (fun tx => createBody oracle mn tx ns baseApp app cfgs)).
  intros tx. apply createBody_protocol.
Qed.

Lemma UpdateApp_bracketed oracle mn ns oldApp app cfgs w :
  bracketed (fun ev => updateCall mn ns oldApp app cfgs (fst ev)) w
    (fst (UpdateApp oracle mn ns oldApp app cfgs w))
    (snd (UpdateApp oracle mn ns oldApp app cfgs w)).
Proof.
  apply (transact_bracketed oracle (fun tx => updateBody oracle mn tx ns oldApp app cfgs)).
  intros tx. apply updateBody_protocol.
Qed.

Lemma DeleteApp_bracketed oracle mn ns name app w :
  bracketed (fun ev => deleteCall ns name app (fst ev)) w
    (fst (DeleteApp oracle mn ns name app w))
    (snd (DeleteApp oracle mn ns name app w)).
Proof.
  apply (transact_bracketed oracle (fun tx => deleteBody oracle mn tx ns name app)).
  intros tx. apply deleteBody_protocol.
Qed.

(** C1, as stated, fails: [CreateApp] of a waiting application whose
    Application record cannot be created aborts, yet the Cron record it
    wrote before the failing step is still there. *)
Lemma CreateApp_abort_keeps_cron :
  let run := CreateApp (failAt 2) sampleNodes "ns" None (Some waitingApp) [] emptyWorld in
  fst run = Fail (ErrForced 1)
  ∧ crons (snd run) !! ("app1", "ns") = Some (cronOf waitingApp)
  ∧ ¬ unchangedStores emptyWorld (snd run).
Proof.
  cbv zeta. split_and!; [by vm_compute | by vm_compute |].
  intros [_ Hc].
  assert (H : crons (snd (CreateApp (failAt 2) sampleNodes "ns" None (Some waitingApp) []
                            emptyWorld)) !! ("app1", "ns")
              = crons emptyWorld !! ("app1", "ns")) by (by rewrite Hc).
  vm_compute in H. discriminate.
Qed.

(** C1 (amended): [CreateApp], [UpdateApp] and [DeleteApp] are all or
    nothing for the stores written through the transaction.  In every run,
    the first call that faults, or that returns an error other than a
    Configuration deletion of the reconciliation, makes the operation fail:
    no further store is called, the transaction, if it had begun, is rolled
    back, and the Applications, Configurations, node assignments and Index
    are as they were before the call.  The Cron store is not part of this: it keeps what
    the Cron calls made before the failure did to it. *)
Theorem abort_restores_transactional_stores :
  ∀ oracle mn ns name baseApp oldApp app cfgs w,
    allOrNothing w (fst (CreateApp oracle mn ns baseApp app cfgs w))
                   (snd (CreateApp oracle mn ns baseApp app cfgs w))
    ∧ allOrNothing w (fst (UpdateApp oracle mn ns oldApp app cfgs w))
                     (snd (UpdateApp oracle mn ns oldApp app cfgs w))
    ∧ allOrNothing w (fst (DeleteApp oracle mn ns name app w))
                     (snd (DeleteApp oracle mn ns name app w)).
Proof.
  intros. split_and!.
  - destruct (transact_stops oracle
                (fun tx => createBody oracle mn tx ns baseApp app cfgs) w
                (fun tx => stops_createBody oracle mn tx ns baseApp app cfgs))
      as (evs & Hc & Hs).
    destruct (CreateApp_journal oracle mn ns baseApp app cfgs w) as (evs' & Hc' & Hj & _).
    exists evs. split_and!; [exact Hc | | eapply bracketed_rollback, CreateApp_bracketed |].
    + intros Hex. destruct (Hs Hex) as [Hn Hrest]. split_and!; [exact Hn | | exact Hrest].
      eapply bracketed_rollback; [apply CreateApp_bracketed | exact Hn].
    + by rewrite (continues_inj _ _ _ _ Hc Hc').
  - destruct (transact_stops oracle
                (fun tx => updateBody oracle mn tx ns oldApp app cfgs) w
                (fun tx => stops_updateBody oracle mn tx ns oldApp app cfgs))
      as (evs & Hc & Hs).
    destruct (UpdateApp_journal oracle mn ns oldApp app cfgs w) as (evs' & Hc' & Hj & _).
    exists evs. split_and!; [exact Hc | | eapply bracketed_rollback, UpdateApp_bracketed |].
    + intros Hex. destruct (Hs Hex) as [Hn Hrest]. split_and!; [exact Hn | | exact Hrest].
      eapply bracketed_rollback; [apply UpdateApp_bracketed | exact Hn].
    + by rewrite (continues_inj _ _ _ _ Hc Hc').
  - destruct (transact_stops oracle
                (fun tx => deleteBody oracle mn tx ns name app) w
                (fun tx => stops_deleteBody oracle mn tx ns name app))
      as (evs & Hc & Hs).
    destruct (DeleteApp_journal oracle mn ns name app w) as (evs' & Hc' & Hj & _).
    exists evs. split_and!; [exact Hc | | eapply bracketed_rollback, DeleteApp_bracketed |].
    + intros Hex. destruct (Hs Hex) as [Hn Hrest]. split_and!; [exact Hn | | exact Hrest].
      eapply bracketed_rollback; [apply DeleteApp_bracketed | exact Hn].
    + by rewrite (continues_inj _ _ _ _ Hc Hc').
Qed.

(** The index refresh of a [CreateApp] fails after a Configuration was
    upserted, the Cron record created, the Application stored and the nodes
    assigned: the operation fails and none of the four transactional stores
    has changed, while the Cron record stays. *)
Lemma abort_restores_transactional_stores_witness :
  let run := CreateApp (failAt 5) sampleNodes "ns" None (Some waitingApp)
               [configNamed "baetyl-function-config-z"] functionWorld in
  (∀ a, fst run ≠ Ret a)
  ∧ In (ConfigUpsert "ns" (configNamed "baetyl-function-config-z"), Done) (trace (snd run))
  ∧ In (AppCreateWithBase "ns" (effective waitingApp) None, Done) (trace (snd run))
  ∧ committed (snd run) = committed functionWorld
  ∧ crons (snd run) !! ("app1", "ns") = Some (cronOf waitingApp).
Proof.
  cbv zeta.
  destruct (abort_restores_transactional_stores (failAt 5) sampleNodes "ns" "app1"
              None None (Some waitingApp) [configNamed "baetyl-function-config-z"]
              functionWorld) as ((evs & Hc & Hs & Hr & Hj) & _ & _).
  assert (E : evs = [(TxBegin, Done);
                     (ConfigUpsert "ns" (configNamed "baetyl-function-config-z"), Done);
                     (CronCreate (cronOf waitingApp), Done);
                     (AppCreateWithBase "ns" (effective waitingApp) None, Done);
                     (NodeUpdateAppVersion "ns" (effective waitingApp), Done);
                     (IndexRefresh "ns" "app1" [], Failed (ErrForced 1));
                     (TxRollback, Done)]).
  { eapply continues_inj; [exact Hc|]. vm_compute. reflexivity. }
  destruct Hs as (Hfail & Hsame & _); [by rewrite E|].
  split_and!; [exact Hfail | vm_compute; tauto | vm_compute; tauto | exact Hsame |].
  rewrite Hj, E. vm_compute. reflexivity.
Defined.

Lemma updateCall_not_tx mn ns oldApp app cfgs c :
  updateCall mn ns oldApp app cfgs c -> isTxCall c = false.
Proof. by destruct c. Qed.

Lemma deleteCall_not_tx ns name app c : deleteCall ns name app c -> isTxCall c = false.
Proof. by destruct c. Qed.

Lemma createCall_not_tx mn ns baseApp app cfgs c :
  createCall mn ns baseApp app cfgs c -> isTxCall c = false.
Proof. by destruct c. Qed.

(** *** The reconciliation is the last step of the body *)

Lemma applyDeletes_app (evs1 evs2 : list (Call * Reply))
    (m : gmap (string * string) Configuration) :
  applyDeletes (evs1 ++ evs2) m = applyDeletes evs2 (applyDeletes evs1 m).
Proof. unfold applyDeletes. apply foldl_app. Qed.

Lemma applyDeletes_steps (evs : list (Call * Reply))
    (m : gmap (string * string) Configuration) :
  Forall (fun ev => isConfigDelete (fst ev) = false) evs -> applyDeletes evs m = m.
Proof.
  intros H. revert m. induction H as [|[c r] evs Hc _ IH]; intros m; [done|].
  simpl. rewrite IH. by destruct c.
Qed.

Section Phases.

Variable oracle : nat -> Call -> decision.
Variable matchNodes : string -> string -> list string.

(** A step before the reconciliation. *)
Lemma reconcilesLast_bind {A B} (m : M A) (f : A -> M B) :
  stable (extends isStep) m -> (∀ a, reconcilesLast (f a)) ->
  reconcilesLast (bind m f).
Proof.
  intros Hm Hf w. rewrite bind_unfold. destruct (Hm w) as [_ (evs1 & Hc1 & Hf1)].
  destruct (m w) as [[a|e|p] w1]; simpl in *.
  - destruct (Hf a w1) as (steps & dels & Hc2 & Hs & Hd & He).
    exists (evs1 ++ steps), dels. unfold continues in *.
    split_and!; [rewrite Hc2, Hc1; by rewrite !app_assoc | by apply Forall_app | done | done].
  - exists evs1, []. rewrite app_nil_r. by split_and!.
  - exists evs1, []. rewrite app_nil_r. by split_and!.
Qed.

(** The reconciliation itself, which returns no error. *)
Lemma reconcilesLast_end {A} (m : M A) :
  stable (extends isDeletion) m -> (∀ w e, fst (m w) ≠ Fail e) -> reconcilesLast m.
Proof.
  intros Hm Hn w. destruct (Hm w) as [_ (evs & Hc & Hf)].
  exists [], evs. split_and!; [done | constructor | done |].
  intros e He. by apply Hn in He.
Qed.

Lemma reconcilesLast_ret {A B} (m : M A) (b : B) :
  reconcilesLast m -> reconcilesLast (m ;; ret b).
Proof.
  intros Hm w. rewrite bind_unfold. destruct (Hm w) as (steps & dels & Hc & Hs & Hd & He).
  exists steps, dels. destruct (m w) as [[a|e|p] w1]; simpl in *; split_and!; try done.
  intros e0 _. by apply (He e).
Qed.

Lemma cleanVolume_no_error tx m ns v w e :
  fst (cleanVolume oracle tx m ns v w) ≠ Fail e.
Proof.
  unfold cleanVolume. destruct (volConfig v) as [ref|]; [|done].
  destruct (isStale m (orName ref)); [|done].
  unfold attempt, config_Delete, invoke, onTx, LogDirtyData. rewrite bind_unfold.
  destruct (oracle _ _); [destruct (pending w)|..]; done.
Qed.

Lemma cleanGen_no_error tx cfgs oldApp w e :
  fst (cleanGenConfigsOfFunctionApp oracle tx cfgs oldApp w) ≠ Fail e.
Proof.
  unfold cleanGenConfigsOfFunctionApp. destruct oldApp as [old|]; [|done].
  rewrite deref_bind. generalize (aVolumes old). intros vs. revert w.
  induction vs as [|v vs IH]; intros w; [done|]. simpl. rewrite bind_unfold.
  pose proof (cleanVolume_no_error tx (survivors cfgs) (aNamespace old) v w) as Hv.
  destruct (cleanVolume _ _ _ _ _ w) as [[[]|e0|p] w1]; simpl in *;
    [apply IH | by destruct (Hv e0) | done].
Qed.

Lemma cleanGen_reconcilesLast tx cfgs oldApp :
  reconcilesLast (cleanGenConfigsOfFunctionApp oracle tx cfgs oldApp).
Proof.
  apply reconcilesLast_end; [|intros w e; apply cleanGen_no_error].
  by apply cleanGen_protocol.
Qed.

Lemma updateBody_reconcilesLast tx ns oldApp app cfgs :
  reconcilesLast (updateBody oracle matchNodes tx ns oldApp app cfgs).
Proof.
  unfold updateBody.
  apply reconcilesLast_bind; [by apply updateGen_protocol|]. intros _.
  apply reconcilesLast_bind; [apply stable_deref|]. intros a.
  apply reconcilesLast_bind.
  { destruct (bool_decide (aCronStatus a = CronWait)); [|apply stable_ret].
    apply stable_bind; [|intros; apply stable_ret].
    by apply stable_traced, stable_cron_UpdateCron. }
  intros a1. apply reconcilesLast_bind; [apply stable_deref|]. intros old.
  apply reconcilesLast_bind.
  { destruct (_ && _); [|apply stable_ret].
    by apply stable_traced, stable_cron_DeleteCron. }
  intros _. apply reconcilesLast_bind; [by apply stable_app_Update|]. intros a2.
  apply reconcilesLast_bind.
  { destruct oldApp as [old'|]; [|apply stable_ret].
    destruct (bool_decide (aSelector old' ≠ aSelector a2)); [|apply stable_ret].
    by apply DeleteNodeAndAppIndex_protocol. }
  intros _. apply reconcilesLast_bind; [by apply UpdateNodeAndAppIndex_protocol|]. intros _.
  apply reconcilesLast_ret, cleanGen_reconcilesLast.
Qed.

Lemma deleteBody_reconcilesLast tx ns name app :
  reconcilesLast (deleteBody oracle matchNodes tx ns name app).
Proof.
  unfold deleteBody.
  apply reconcilesLast_bind; [apply stable_deref|]. intros a.
  apply reconcilesLast_bind.
  { destruct (bool_decide (aCronStatus a = CronWait)); [|apply stable_ret].
    by apply stable_traced, stable_cron_DeleteCron. }
  intros _. apply reconcilesLast_bind; [by apply stable_app_Delete|]. intros _.
  apply reconcilesLast_bind; [by apply DeleteNodeAndAppIndex_protocol|]. intros _.
  apply cleanGen_reconcilesLast.
Qed.

Lemma transact_reconciledInside {A} (body : Tx -> M A) w :
  (∀ tx, reconcilesLast (body tx)) ->
  reconciledInside w (fst (transact oracle body w)) (snd (transact oracle body w)).
Proof.
  intros Hb. unfold transact, txFactory_BeginTx, invoke. rewrite bind_unfold.
  destruct (oracle _ TxBegin); simpl.
  - right. unfold deferred.
    destruct (Hb TxHandle (record TxBegin Done (setPending (Some (committed w)) w)))
      as (steps & dels & Hc & Hs & Hd & He).
    exists steps, dels. unfold continues in *.
    destruct (body TxHandle _) as [[a|e|p] w1]; simpl in *;
      (split_and!; [|done|done|]);
      try (unfold txFactory_Commit; destruct (pending w1); simpl;
           rewrite Hc, <- !app_assoc; done);
      try (rewrite Hc, <- !app_assoc; done); try done.
  - left. by exists (Failed (ErrForced code)).
  - left. by exists (Panicked (PanicForced code)).
Qed.

End Phases.

(** C2, as stated, fails.  In a fault-free [UpdateApp] the deletion of
    the stale generated Configuration is issued before the commit, not
    after it; and in a [DeleteApp] whose second deletion faults, the first
    deletion, which the store had carried out, is undone by the rollback
    of the operation's transaction. *)
Lemma reconciliation_before_commit :
  deletesAfterCommit false
    (trace (snd (UpdateApp noFaults sampleNodes "ns" (Some functionApp) (Some functionApp)
                   [configNamed "baetyl-function-config-a"] functionWorld)))
  = false
  ∧ (let run := DeleteApp (faultAt 5) sampleNodes "ns" "fn" (Some functionApp)
                  functionWorld in
     fst run = Fault (PanicForced 1)
     ∧ In (ConfigDelete "ns" "baetyl-function-config-a", Done) (trace (snd run))
     ∧ configs (committed (snd run)) !! ("ns", "baetyl-function-config-a")
       = Some (configNamed "baetyl-function-config-a")).
Proof.
  split; [by vm_compute|]. cbv zeta. split_and!; [by vm_compute | | by vm_compute].
  vm_compute. tauto.
Qed.

(** C2 (amended): the reconciliation runs inside the transaction, as the
    last step of the body.  In every run of [UpdateApp] and of [DeleteApp]
    whose transaction began, the Configuration deletions come after every
    other call of the body and right before the one call that ends the
    transaction; when the operation returns an error, no deletion was
    made.  The deletions share the fate of the other writes.  When the
    operation does not return successfully, as when a deletion faults, the
    stores are left as they were before the call, so a deletion that the
    store had carried out is undone with the rest.  When the operation
    returns successfully, what is committed is the outcome of the steps
    (the upserted Configurations, the Application record, the node
    assignments and the Index) with the deletions of the run applied.
    For the reconciliation is handed the transaction: called while it is
    open, it deletes in the working copy of the transaction and leaves the
    committed stores alone. *)
Theorem reconciliation_inside_transaction :
  ∀ oracle mn ns name oldApp app old a cfgs w,
    (let run := UpdateApp oracle mn ns oldApp app cfgs w in
     reconciledInside w (fst run) (snd run)
     ∧ ((∀ x, fst run ≠ Ret x) -> committed (snd run) = committed w))
    ∧ (let run := DeleteApp oracle mn ns name app w in
       reconciledInside w (fst run) (snd run)
       ∧ ((∀ x, fst run ≠ Ret x) -> committed (snd run) = committed w))
    ∧ (∀ a' w' evs,
         UpdateApp oracle mn ns (Some old) (Some a) cfgs w = (Ret a', w') ->
         continues w w' evs ->
         let p := effective a in
         let nodes := mn ns (aSelector p) in
         let s1 := putApp ns p (upsertAll ns cfgs (committed w)) in
         let s2 := if bool_decide (aSelector old ≠ aSelector p)
                   then putIndex ns (aName old) []
                          (unassignNodes ns old (mn ns (aSelector old)) s1)
                   else s1 in
         let s3 := putIndex ns (aName a) nodes (assignNodes ns p nodes s2) in
         committed w' = setConfigs (applyDeletes evs (configs s3)) s3)
    ∧ (∀ w' evs,
         DeleteApp oracle mn ns name (Some a) w = (Ret tt, w') ->
         continues w w' evs ->
         let s1 := putIndex ns (aName a) []
                     (unassignNodes ns a (mn ns (aSelector a))
                        (dropApp ns name (committed w))) in
         committed w' = setConfigs (applyDeletes evs (configs s1)) s1)
    ∧ (∀ tx s,
         pending w = Some s ->
         let w1 := snd (cleanGenConfigsOfFunctionApp oracle tx cfgs (Some old) w) in
         committed w1 = committed w
         ∧ ∃ dels, continues w w1 dels ∧ Forall isDeletion dels
             ∧ pending w1 = Some (setConfigs (applyDeletes dels (configs s)) s)).
Proof.
  intros oracle mn ns name oldApp app old a cfgs w. split_and!.
  - cbv zeta. split.
    + apply (transact_reconciledInside oracle
               (fun tx => updateBody oracle mn tx ns oldApp app cfgs)).
      intros tx. apply updateBody_reconcilesLast.
    + eapply bracketed_rollback, UpdateApp_bracketed.
  - cbv zeta. split.
    + apply (transact_reconciledInside oracle
               (fun tx => deleteBody oracle mn tx ns name app)).
      intros tx. apply deleteBody_reconcilesLast.
    + eapply bracketed_rollback, DeleteApp_bracketed.
  - intros a' w' evs E Hc. cbv zeta.
    apply UpdateApp_Ret in E as (_ & dels & k & -> & Hm & _).
    unfold continues in Hc. simpl in Hc. apply app_inv_head in Hc. subst evs.
    cbn [committed]. f_equal.
    rewrite app_comm_cons, applyDeletes_app.
    rewrite (applyDeletes_steps (_ :: _)).
    2:{ apply Forall_cons. split; [done|]. rewrite !Forall_app. split_and!.
        - apply Forall_forall. intros ev Hin. apply list_elem_of_In, in_map_iff in Hin.
          by destruct Hin as (cfg & <- & _).
        - destruct (bool_decide (aCronStatus a = CronWait)); by repeat constructor.
        - destruct (bool_decide (aCronStatus old = CronWait)
                    && bool_decide (aCronStatus a = CronNotSet)); by repeat constructor.
        - apply Forall_cons. split; [done|]. apply Forall_app. split.
          + destruct (bool_decide (aSelector old ≠ aSelector (effective a)));
              by repeat constructor.
          + by repeat constructor. }
    by rewrite applyDeletes_app.
  - intros w' evs E Hc. cbv zeta.
    apply DeleteApp_Ret in E as (dels & k & -> & Hm & _).
    unfold continues in Hc. simpl in Hc. apply app_inv_head in Hc. subst evs.
    cbn [committed]. f_equal. unfold applyDeletes.
    destruct (bool_decide (aCronStatus a = CronWait)); simpl; by rewrite foldl_app.
  - intros tx s Hs. cbv zeta.
    destruct (cleanGen_protocol oracle isDeletion tx cfgs (Some old)
                (fun _ _ _ _ _ _ => eq_refl) w) as [Hcom (dels & Hc & Hd)].
    split; [exact Hcom|]. exists dels. split_and!; [exact Hc | exact Hd |].
    unfold cleanGenConfigsOfFunctionApp in *. rewrite deref_bind in *.
    destruct (cleanLoop_run oracle tx (survivors cfgs) (aNamespace old) (aVolumes old)
                w s Hs) as (evs & Hw & _).
    rewrite Hw in Hc |- *. unfold continues in Hc. simpl in Hc.
    apply app_inv_head in Hc. by subst evs.
Qed.

(** The second deletion of a [DeleteApp] faults: the first one, which the
    store had carried out, is rolled back with the deletion of the
    Application. *)
Lemma reconciliation_inside_transaction_witness :
  let run := DeleteApp (faultAt 5) sampleNodes "ns" "fn" (Some functionApp) functionWorld in
  In (ConfigDelete "ns" "baetyl-function-config-a", Done) (trace (snd run))
  ∧ committed (snd run) = committed functionWorld.
Proof.
  cbv zeta. split; [vm_compute; tauto|].
  destruct (reconciliation_inside_transaction (faultAt 5) sampleNodes "ns" "fn"
              None (Some functionApp) functionApp functionApp [] functionWorld)
    as (_ & [_ H] & _).
  apply H. intros x. vm_compute. discriminate.
Defined.

(** The events a bracketed run adds are calls of the body or calls of the
    transaction manager. *)
Lemma bracketed_events {A} (φ : Call * Reply -> Prop) w (r : outcome A) w' evs :
  bracketed φ w r w' -> continues w w' evs ->
  Forall (fun ev => φ ev ∨ isTxCall (fst ev) = true) evs.
Proof.
  unfold continues.
  intros [(rep & _ & Hc & _)|(evs' & fin & Hc & Hf & _ & Hfin)] Ht;
    unfold continues in Hc; rewrite Hc in Ht; apply app_inv_head in Ht; subst evs.
  - apply Forall_cons. split; [by right | constructor].
  - apply Forall_cons. split; [by right|]. apply Forall_app. split.
    + eapply Forall_impl; eauto.
    + apply Forall_cons. split; [|constructor].
      right. by destruct Hfin as [[-> _]|[-> _]].
Qed.

Lemma proceeds_createBody oracle mn tx ns baseApp a cfgs :
  (∀ n c, isConfigDelete c = false -> oracle n c = Proceed) ->
  proceeds (createBody oracle mn tx ns baseApp (Some a) cfgs).
Proof.
  intros Hgo. unfold createBody.
  apply proceeds_bind.
  { apply proceeds_forEach. intros cfg.
    apply proceeds_bind; [by apply proceeds_tx_call | intros; apply proceeds_ret]. }
  intros _. apply (proceeds_bind (ret a)); [apply proceeds_ret|]. intros a0.
  apply proceeds_bind.
  { destruct (bool_decide _); [|apply proceeds_ret].
    apply proceeds_bind; [|intros; apply proceeds_ret].
    by apply proceeds_traced, proceeds_cron_call. }
  intros a1. apply proceeds_bind; [by apply proceeds_tx_call|]. intros a2.
  apply proceeds_bind; [by apply proceeds_UpdateNodeAndAppIndex | intros; apply proceeds_ret].
Qed.

(** C10: [CreateApp] and [UpdateApp] write the Cron record under the key
    (app.Name, app.Namespace) of the Application object, whatever [ns] is:
    every Cron call they make to write a record carries that key, a
    successful operation on a waiting Application has made the call, the
    record is stored under that key, and nothing is stored under
    (app.Name, ns) when app.Namespace differs from [ns].  The Cron deletion
    of [UpdateApp] (from Wait to NotSet) has the key (app.Name, ns) and that
    of [DeleteApp] the key (name, ns): a successful operation has made the
    call and the Cron store is the former one without that key.  Hence the
    record [CreateApp] wrote is removed by the matching [DeleteApp], or by
    the matching [UpdateApp] to NotSet, exactly when app.Namespace = ns.
    When no call is made to fail the three operations do return
    successfully. *)
Theorem cron_keys :
  ∀ oracle mn ns name baseApp oldApp old a cfgs w,
    let written := mkCron (aName a) (aNamespace a) (aSelector a) (aCronTime a) in
    (* the keys of the Cron calls, in every run *)
    (∀ evs c rep,
        continues w (snd (CreateApp oracle mn ns baseApp (Some a) cfgs w)) evs ->
        In (c, rep) evs -> isCronCall c = true ->
        c = CronCreate written)
    ∧ (∀ evs c rep,
        continues w (snd (UpdateApp oracle mn ns oldApp (Some a) cfgs w)) evs ->
        In (c, rep) evs -> isCronCall c = true ->
        c = CronUpdate written ∨ c = CronDelete (aName a) ns)
    ∧ (∀ evs c rep,
        continues w (snd (DeleteApp oracle mn ns name (Some a) w)) evs ->
        In (c, rep) evs -> isCronCall c = true ->
        c = CronDelete name ns)
    (* the record written by a successful operation *)
    ∧ (∀ a' w', CreateApp oracle mn ns baseApp (Some a) cfgs w = (Ret a', w') ->
        aCronStatus a = CronWait ->
        (∃ evs, continues w w' evs ∧ In (CronCreate written, Done) evs)
        ∧ crons w' !! (aName a, aNamespace a) = Some written
        ∧ (aNamespace a ≠ ns -> crons w' !! (aName a, ns) = crons w !! (aName a, ns)))
    ∧ (∀ a' w', UpdateApp oracle mn ns (Some old) (Some a) cfgs w = (Ret a', w') ->
        aCronStatus a = CronWait ->
        (∃ evs, continues w w' evs ∧ In (CronUpdate written, Done) evs)
        ∧ crons w' !! (aName a, aNamespace a) = Some written
        ∧ (aNamespace a ≠ ns -> crons w' !! (aName a, ns) = crons w !! (aName a, ns)))
    (* the record deleted by a successful operation *)
    ∧ (∀ a' w', UpdateApp oracle mn ns (Some old) (Some a) cfgs w = (Ret a', w') ->
        aCronStatus old = CronWait -> aCronStatus a = CronNotSet ->
        (∃ evs, continues w w' evs ∧ In (CronDelete (aName a) ns, Done) evs)
        ∧ crons w' = delete (aName a, ns) (crons w))
    ∧ (∀ w', DeleteApp oracle mn ns name (Some a) w = (Ret tt, w') ->
        aCronStatus a = CronWait ->
        (∃ evs, continues w w' evs ∧ In (CronDelete name ns, Done) evs)
        ∧ crons w' = delete (name, ns) (crons w))
    (* the written and the deleted key coincide only when app.Namespace = ns *)
    ∧ (∀ a1 w1 w2,
        aCronStatus a = CronWait ->
        CreateApp oracle mn ns baseApp (Some a) cfgs w = (Ret a1, w1) ->
        DeleteApp oracle mn ns (aName a) (Some a1) w1 = (Ret tt, w2) ->
        (crons w2 !! (aName a, aNamespace a) = None <-> aNamespace a = ns))
    ∧ (∀ a1 w1 b a2 w2,
        aCronStatus a = CronWait ->
        CreateApp oracle mn ns baseApp (Some a) cfgs w = (Ret a1, w1) ->
        aName b = aName a -> aCronStatus b = CronNotSet ->
        UpdateApp oracle mn ns (Some a1) (Some b) cfgs w1 = (Ret a2, w2) ->
        (crons w2 !! (aName a, aNamespace a) = None <-> aNamespace a = ns))
    (* successful runs exist *)
    ∧ ((∀ n c, oracle n c = Proceed) ->
        (∃ a' w', CreateApp oracle mn ns baseApp (Some a) cfgs w = (Ret a', w'))
        ∧ (∃ a' w', UpdateApp oracle mn ns (Some old) (Some a) cfgs w = (Ret a', w'))
        ∧ (∃ w', DeleteApp oracle mn ns name (Some a) w = (Ret tt, w'))).
Proof.
  intros oracle mn ns name baseApp oldApp old a cfgs w written.
  assert (Hwr : written = cronOf a) by done. clearbody written. subst written.
  split_and!.
  - intros evs c rep Hc Hin Hcron.
    pose proof (bracketed_events _ _ _ _ _
                  (CreateApp_bracketed oracle mn ns baseApp (Some a) cfgs w) Hc) as Hf.
    rewrite Forall_forall in Hf. apply list_elem_of_In, Hf in Hin as [Hin|Hin].
    + destruct c; simpl in *; try done. by destruct Hin as (? & [= <-] & _ & ->).
    + by destruct c.
  - intros evs c rep Hc Hin Hcron.
    pose proof (bracketed_events _ _ _ _ _
                  (UpdateApp_bracketed oracle mn ns oldApp (Some a) cfgs w) Hc) as Hf.
    rewrite Forall_forall in Hf. apply list_elem_of_In, Hf in Hin as [Hin|Hin].
    + destruct c; simpl in *; try done.
      * left. by destruct Hin as (? & [= <-] & _ & ->).
      * right. by destruct Hin as (? & ? & _ & [= <-] & _ & _ & -> & ->).
    + by destruct c.
  - intros evs c rep Hc Hin Hcron.
    pose proof (bracketed_events _ _ _ _ _
                  (DeleteApp_bracketed oracle mn ns name (Some a) w) Hc) as Hf.
    rewrite Forall_forall in Hf. apply list_elem_of_In, Hf in Hin as [Hin|Hin].
    + destruct c; simpl in *; try done. by destruct Hin as (? & _ & _ & -> & ->).
    + by destruct c.
  - intros a' w' E Hw. apply CreateApp_Ret in E as [_ ->]. simpl.
    rewrite !(bool_decide_eq_true_2 _ Hw). split_and!.
    + eexists. split; [reflexivity|]. simpl. right.
      rewrite !in_app_iff. simpl. tauto.
    + apply lookup_insert_eq.
    + intros Hne. apply lookup_insert_ne. congruence.
  - intros a' w' E Hw. apply UpdateApp_Ret in E as (_ & evs & k & -> & _). simpl.
    rewrite !(bool_decide_eq_true_2 _ Hw), Hw. simpl. rewrite andb_false_r. split_and!.
    + eexists. split; [reflexivity|]. simpl. right.
      rewrite !in_app_iff. simpl. tauto.
    + apply lookup_insert_eq.
    + intros Hne. apply lookup_insert_ne. congruence.
  - intros a' w' E Ho Ha. apply UpdateApp_Ret in E as (_ & evs & k & -> & _). simpl.
    rewrite Ho, Ha. simpl. split; [|done].
    eexists. split; [reflexivity|]. simpl. right.
    rewrite !in_app_iff. simpl. tauto.
  - intros w' E Hw. apply DeleteApp_Ret in E as (evs & k & -> & _). simpl.
    rewrite !(bool_decide_eq_true_2 _ Hw). split; [|done].
    eexists. split; [reflexivity|]. simpl. right. by left.
  - intros a1 w1 w2 Hw Hcreate Hdelete.
    apply CreateApp_Ret in Hcreate as [-> ->].
    apply DeleteApp_Ret in Hdelete as (evs & k & -> & _).
    rewrite aCronStatus_effective. simpl.
    rewrite !bool_decide_eq_true_2 by done.
    rewrite lookup_delete. case_decide as Hk.
    + split; [intros _; congruence | done].
    + rewrite lookup_insert_eq. split; [done|]. intros E. destruct Hk. by rewrite E.
  - intros a1 w1 b a2 w2 Hw Hcreate Hname Hb Hupdate.
    apply CreateApp_Ret in Hcreate as [-> ->].
    apply UpdateApp_Ret in Hupdate as (_ & evs & k & -> & _).
    rewrite aCronStatus_effective. simpl.
    rewrite Hb, Hw, Hname. simpl.
    rewrite lookup_delete. case_decide as Hk.
    + split; [intros _; congruence | done].
    + rewrite lookup_insert_eq. split; [done|]. intros E. destruct Hk. by rewrite E.
  - intros Hgo.
    assert (Hgo' : ∀ n c, isConfigDelete c = false -> oracle n c = Proceed) by auto.
    assert (Hnp : ∀ n c k, oracle n c ≠ ForcePanic k) by (intros n c k; by rewrite Hgo).
    split_and!.
    + apply (proceeds_transact oracle Hgo'
               (fun tx => createBody oracle mn tx ns baseApp (Some a) cfgs) w).
      intros tx. by apply proceeds_createBody.
    + apply (proceeds_transact oracle Hgo'
               (fun tx => updateBody oracle mn tx ns (Some old) (Some a) cfgs) w).
      intros tx. by apply proceeds_updateBody.
    + destruct (proceeds_transact oracle Hgo'
                  (fun tx => deleteBody oracle mn tx ns name (Some a)) w) as ([] & w' & E).
      { intros tx. by apply proceeds_deleteBody. }
      by exists w'.
Qed.

(** An Application in Wait of namespace "ns" is created, and then updated
    to NotSet, through calls with the namespace "other": the Cron record is
    written under ("app1", "ns") and the deletion, keyed ("app1", "other"),
    leaves it there. *)
Lemma cron_keys_witness :
  let created := CreateApp noFaults sampleNodes "other" None (Some waitingApp) []
                   emptyWorld in
  let notSet := mkApplication "app1" "ns" "v2" "env=prod" CronNotSet 0 [] in
  let updated := UpdateApp noFaults sampleNodes "other" (Some (effective waitingApp))
                   (Some notSet) [] (snd created) in
  crons (snd created) !! ("app1", "ns") = Some (mkCron "app1" "ns" "env=prod" 1700000000)
  ∧ crons (snd created) !! ("app1", "other") = None
  ∧ (crons (snd updated) !! ("app1", "ns") = None <-> "ns" = "other").
Proof.
  cbv zeta.
  pose proof (cron_keys noFaults sampleNodes "other" "app1" None None waitingApp
                waitingApp [] emptyWorld) as (_ & _ & _ & Hc & _ & _ & _ & _ & Hu & _).
  destruct (Hc (effective waitingApp)
               (snd (CreateApp noFaults sampleNodes "other" None (Some waitingApp) []
                       emptyWorld))) as (_ & Hrec & Hns).
  - vm_compute. reflexivity.
  - reflexivity.
  - split_and!; [exact Hrec | etransitivity; [apply Hns; discriminate | reflexivity] |].
    apply (Hu (effective waitingApp)
              (snd (CreateApp noFaults sampleNodes "other" None (Some waitingApp) []
                      emptyWorld))
              (mkApplication "app1" "ns" "v2" "env=prod" CronNotSet 0 [])
              (mkApplication "app1" "ns" "v2" "env=prod" CronNotSet 0 [])).
    + reflexivity.
    + vm_compute. reflexivity.
    + reflexivity.
    + reflexivity.
    + vm_compute. reflexivity.
Defined.

(** C6: in [UpdateApp] a Cron deletion is issued only when the old state
    is Wait and the new state is NotSet, and then with the key
    (app.Name, ns); a successful update from Wait to NotSet has deleted the
    record; a successful update on any other transition issues no Cron
    deletion, so from Wait to Wait the row is kept (as upserted) and from
    Wait to Scheduled the Cron store is left as it was. *)
Theorem cron_deleted_only_wait_to_notset :
  ∀ oracle mn ns old a cfgs w,
    let run := UpdateApp oracle mn ns (Some old) (Some a) cfgs w in
    (∀ evs n s rep,
        continues w (snd run) evs -> In (CronDelete n s, rep) evs ->
        aCronStatus old = CronWait ∧ aCronStatus a = CronNotSet
        ∧ n = aName a ∧ s = ns)
    ∧ (∀ a', fst run = Ret a' ->
        aCronStatus old = CronWait -> aCronStatus a = CronNotSet ->
        (∃ evs, continues w (snd run) evs ∧ In (CronDelete (aName a) ns, Done) evs)
        ∧ crons (snd run) !! (aName a, ns) = None)
    ∧ (∀ a', fst run = Ret a' ->
        aCronStatus old = CronWait -> aCronStatus a = CronWait ->
        crons (snd run) !! (aName a, aNamespace a) = Some (cronOf a))
    ∧ (∀ a', fst run = Ret a' ->
        aCronStatus old = CronWait -> aCronStatus a = CronScheduled ->
        crons (snd run) = crons w).
Proof.
  intros oracle mn ns old a cfgs w run. subst run. split_and!.
  - intros evs n s rep Hc Hin.
    pose proof (bracketed_events _ _ _ _ _
                  (UpdateApp_bracketed oracle mn ns (Some old) (Some a) cfgs w) Hc) as Hf.
    rewrite Forall_forall in Hf. apply list_elem_of_In, Hf in Hin as [Hin|Hin]; [|done].
    simpl in Hin. destruct Hin as (? & ? & [= <-] & [= <-] & ?). done.
  - intros a' Hr Ho Ha.
    destruct (UpdateApp oracle mn ns (Some old) (Some a) cfgs w) as [r w'] eqn:E.
    simpl in Hr. subst r.
    apply UpdateApp_Ret in E as (_ & evs & k & -> & _). simpl.
    rewrite Ho, Ha. simpl. split; [|apply lookup_delete_eq].
    eexists. split; [reflexivity|]. simpl. right.
    rewrite !in_app_iff. simpl. tauto.
  - intros a' Hr Ho Ha.
    destruct (UpdateApp oracle mn ns (Some old) (Some a) cfgs w) as [r w'] eqn:E.
    simpl in Hr. subst r.
    apply UpdateApp_Ret in E as (_ & evs & k & -> & _). simpl.
    rewrite Ho, Ha. simpl. apply lookup_insert_eq.
  - intros a' Hr Ho Ha.
    destruct (UpdateApp oracle mn ns (Some old) (Some a) cfgs w) as [r w'] eqn:E.
    simpl in Hr. subst r.
    apply UpdateApp_Ret in E as (_ & evs & k & -> & _). simpl.
    rewrite Ho, Ha. done.
Qed.

Lemma cron_deleted_only_wait_to_notset_witness :
  crons (snd (UpdateApp noFaults sampleNodes "ns" (Some waitingApp)
                (Some (mkApplication "app1" "ns" "v2" "env=prod" CronNotSet 0 []))
                [] (mkWorld emptyStores None {[("app1", "ns") := cronOf waitingApp]} [] [])))
    !! ("app1", "ns") = None.
Proof.
  pose proof (cron_deleted_only_wait_to_notset noFaults sampleNodes "ns" waitingApp
                (mkApplication "app1" "ns" "v2" "env=prod" CronNotSet 0 []) []
                (mkWorld emptyStores None {[("app1", "ns") := cronOf waitingApp]} [] []))
    as (_ & H & _).
  eapply H; [vm_compute; reflexivity | reflexivity | reflexivity].
Defined.

(** *** Outcomes and replies *)

Section Accounted.

Variable oracle : nat -> Call -> decision.

Lemma accounted_ret {A} (a : A) : accounted (ret a).
Proof.
  intros w. exists []. split; [unfold continues; simpl; by rewrite app_nil_r|].
  constructor.
Qed.

Lemma accounted_bind {A B} (m : M A) (f : A -> M B) :
  accounted m -> (∀ a, accounted (f a)) -> accounted (bind m f).
Proof.
  intros Hm Hf w. rewrite bind_unfold.
  destruct (Hm w) as (evs1 & Hc1 & Hr1). destruct (m w) as [[a|e|p] w1]; simpl in *.
  - destruct (Hf a w1) as (evs2 & Hc2 & Hr2). exists (evs1 ++ evs2).
    unfold continues in *. split; [rewrite Hc2, Hc1; by rewrite app_assoc|].
    destruct (fst (f a w1)); simpl in *.
    + by apply Forall_app.
    + apply Exists_app. by right.
    + destruct Hr2 as [Hr2 ?]. split; [|done]. apply Exists_app. by right.
  - by exists evs1.
  - by exists evs1.
Qed.

Lemma accounted_traced {A} (m : M A) : accounted m -> accounted (traced m).
Proof.
  intros Hm w. unfold traced. destruct (Hm w) as (evs & Hc & Hr).
  destruct (m w) as [[a|e|p] w1]; by exists evs.
Qed.

Lemma accounted_forEach {A} (l : list A) (body : A -> M unit) :
  (∀ x, accounted (body x)) -> accounted (forEach l body).
Proof.
  intros Hb. induction l as [|x l IH]; simpl.
  - apply accounted_ret.
  - apply accounted_bind; auto.
Qed.

Lemma accounted_invoke {A} c (act : World -> (error + A) * World) :
  (∀ w, trace (snd (act w)) = trace w) -> accounted (invoke oracle c act).
Proof.
  intros Hact w. unfold invoke. specialize (Hact w).
  destruct (oracle _ c); [destruct (act w) as [[e|a] w1]|..]; simpl in *;
    eexists [(c, _)]; (split; [unfold continues; simpl; by rewrite ?Hact|]); simpl.
  - apply Exists_cons_hd. done.
  - by repeat constructor.
  - apply Exists_cons_hd. done.
  - split; [apply Exists_cons_hd; done | eauto].
Qed.

Lemma accounted_updateGen tx ns cfgs :
  accounted (updateGenConfigsOfFunctionApp oracle tx ns cfgs).
Proof.
  apply accounted_forEach. intros cfg.
  apply accounted_bind; [|intros; apply accounted_ret].
  apply accounted_invoke. intros w. apply onTx_quiet.
Qed.

(** The body of [UpdateApp] when [oldApp] is nil: it stops at line 114,
    or already at line 102 when [app] is nil as well. *)
Lemma updateBody_nil_oldApp mn tx ns app cfgs w :
  ∃ evs, continues w (snd (updateBody oracle mn tx ns None app cfgs w)) evs
    ∧ match fst (updateBody oracle mn tx ns None app cfgs w) with
      | Ret _ => False
      | Fail _ => Exists (fun ev => snd ev ≠ Done) evs
      | Fault p =>
          (p = NilDeref (nilLine app) ∧ Forall (fun ev => snd ev = Done) evs)
          ∨ ((∃ k, p = PanicForced k) ∧ Exists (fun ev => snd ev ≠ Done) evs)
      end.
Proof.
  set (prelude :=
         updateGenConfigsOfFunctionApp oracle tx ns cfgs ;;
         match app with
         | Some a =>
             if bool_decide (aCronStatus a = CronWait)
             then traced (cron_UpdateCron oracle (cronOf a)) ;; ret tt
             else ret tt
         | None => ret tt
         end).
  assert (Hacc : accounted prelude).
  { apply accounted_bind; [apply accounted_updateGen|]. intros _.
    destruct app as [a|]; [|apply accounted_ret].
    destruct (bool_decide _); [|apply accounted_ret].
    apply accounted_bind; [|intros; apply accounted_ret].
    apply accounted_traced, accounted_invoke. done. }
  assert (E : updateBody oracle mn tx ns None app cfgs w
              = match prelude w with
                | (Ret _, w1) => (Fault (NilDeref (nilLine app)), w1)
                | (Fail e, w1) => (Fail e, w1)
                | (Fault p, w1) => (Fault p, w1)
                end).
  { unfold updateBody, prelude. rewrite !bind_unfold.
    destruct (updateGenConfigsOfFunctionApp _ _ _ _ w) as [[[]|e|p] w1]; [|done..].
    destruct app as [a|]; [|done].
    rewrite deref_bind, bind_unfold.
    destruct (bool_decide (aCronStatus a = CronWait)); [|done].
    rewrite !bind_unfold.
    by destruct (traced (cron_UpdateCron oracle (cronOf a)) w1) as [[[]|e|p] w2]. }
  rewrite E. destruct (Hacc w) as (evs & Hc & Hr). exists evs.
  destruct (prelude w) as [[a1|e|p] w1]; simpl in *; [by (split; [|left]) | done |].
  split; [done|]. right. tauto.
Qed.

End Accounted.

(** C9, as stated, fails: with [oldApp] nil and no failing store the fault
    is raised at line 114, where [oldApp.CronStatus] is read, before the
    Application is updated and long before the reconciliation; and when a
    Configuration upsert fails there is no fault at all. *)
Lemma nil_oldApp_faults_at_line_114 :
  (let run := UpdateApp noFaults sampleNodes "ns" None (Some functionApp) [] functionWorld in
   fst run = Fault (NilDeref 114)
   ∧ fst run ≠ Fault (NilDeref 212)
   ∧ map fst (trace (snd run)) = [TxBegin; TxRollback])
  ∧ fst (UpdateApp (failAt 1) sampleNodes "ns" None (Some functionApp)
           [configNamed "baetyl-function-config-a"] functionWorld)
    = Fail (ErrForced 1).
Proof. cbv zeta. split_and!; by vm_compute. Qed.

(** C9 (amended): with [oldApp] nil, [UpdateApp] never succeeds, never
    reaches the Application update nor the reconciliation, and leaves the
    transactional stores as they were.  When every call it made returned
    (the transaction began, the Configuration upserts and the Cron upsert
    succeeded) it faults with a nil dereference: that of line 114, where
    [oldApp.CronStatus] is read, when [app] is not nil, and that of line 102,
    where [app.CronStatus] is read, when [app] is nil as well; the rollback
    is the last call before the fault is raised again.  When a call failed
    or faulted, the outcome is that error or fault, not a nil dereference. *)
Theorem UpdateApp_nil_oldApp :
  ∀ oracle mn ns app cfgs w,
    let run := UpdateApp oracle mn ns None app cfgs w in
    (∀ x, fst run ≠ Ret x)
    ∧ committed (snd run) = committed w
    ∧ ∃ evs, continues w (snd run) evs
        ∧ Forall (fun ev => isPreludeCall (fst ev) = true) evs
        ∧ (Forall (fun ev => snd ev = Done) evs ->
             fst run = Fault (NilDeref (match app with Some _ => 114 | None => 102 end))
             ∧ last evs = Some (TxRollback, Done))
        ∧ (Exists (fun ev => snd ev ≠ Done) evs -> ∀ l, fst run ≠ Fault (NilDeref l)).
Proof.
  intros oracle mn ns app cfgs w run.
  change (match app with Some _ => 114 | None => 102 end) with (nilLine app).
  pose proof (UpdateApp_bracketed oracle mn ns None app cfgs w) as Hb.
  fold run in Hb.
  assert (Hnot : ∀ x, fst run ≠ Ret x).
  { subst run. unfold UpdateApp. rewrite bind_unfold.
    unfold txFactory_BeginTx, invoke. destruct (oracle _ TxBegin); [|done..].
    unfold deferred.
    destruct (updateBody_nil_oldApp oracle mn TxHandle ns app cfgs
                (record TxBegin Done (setPending (Some (committed w)) w)))
      as (evs & _ & Hr).
    by destruct (updateBody _ _ _ _ _ _ _ _) as [[x|e|p] w1]. }
  split; [done|]. split; [by eapply bracketed_rollback|].
  subst run. unfold UpdateApp in *. rewrite bind_unfold in *.
  unfold txFactory_BeginTx, invoke in *.
  destruct (oracle (length (trace w)) TxBegin) eqn:Ho.
  - unfold deferred in *.
    destruct (updateBody_nil_oldApp oracle mn TxHandle ns app cfgs
                (record TxBegin Done (setPending (Some (committed w)) w)))
      as (evs & Hc & Hr).
    pose proof (updateBody_protocol oracle mn TxHandle ns None app cfgs
                  (record TxBegin Done (setPending (Some (committed w)) w)))
      as (_ & evs' & Hc' & Hf).
    rewrite (continues_inj _ _ _ _ Hc' Hc) in Hf. clear Hc' evs'.
    destruct (updateBody _ _ _ _ _ _ _ _) as [[x|e|p] w1]; simpl in *; [done|..];
      exists ((TxBegin, Done) :: evs ++ [(TxRollback, Done)]);
      (split; [unfold continues in *; simpl in *; rewrite Hc, <- !app_assoc; done|]);
      (split; [apply Forall_cons; split; [done|]; apply Forall_app; split;
               [|by repeat constructor];
               eapply Forall_impl; [exact Hf|]; intros [c rep] Hu; simpl in *;
               destruct c; try done; by destruct Hu as (? & ? & ? & _)|]).
    + split.
      * intros Hd. apply Forall_cons in Hd as [_ Hd]. apply Forall_app in Hd as [Hd _].
        exfalso. apply Exists_exists in Hr as (ev & Hin & Hne).
        rewrite Forall_forall in Hd. by apply Hne, Hd.
      * done.
    + split.
      * intros Hd. apply Forall_cons in Hd as [_ Hd]. apply Forall_app in Hd as [Hd _].
        destruct Hr as [[-> _]|[_ Hr]].
        -- split; [done|]. by rewrite app_comm_cons, last_snoc.
        -- exfalso. apply Exists_exists in Hr as (ev & Hin & Hne).
           rewrite Forall_forall in Hd. by apply Hne, Hd.
      * intros He l. destruct Hr as [[-> Hd]|[[k ->] _]]; [|done].
        exfalso. apply Exists_cons in He as [He|He]; [done|].
        apply Exists_app in He as [He|He].
        -- apply Exists_exists in He as (ev & Hin & Hne).
           rewrite Forall_forall in Hd. by apply Hne, Hd.
        -- apply Exists_cons in He as [He|He]; [done | by apply Exists_nil in He].
  - exists [(TxBegin, Failed (ErrForced code))]. split_and!; [done | by repeat constructor | | done].
    intros Hd. by apply Forall_cons in Hd as [[=] _].
  - exists [(TxBegin, Panicked (PanicForced code))].
    split_and!; [done | by repeat constructor | | done].
    intros Hd. by apply Forall_cons in Hd as [[=] _].
Qed.

(** With a nil [app] as well, the Configuration is upserted and the fault
    is that of line 102. *)
Lemma UpdateApp_nil_oldApp_witness :
  fst (UpdateApp noFaults sampleNodes "ns" None (Some waitingApp) [] emptyWorld)
  = Fault (NilDeref 114)
  ∧ fst (UpdateApp noFaults sampleNodes "ns" None None
           [configNamed "baetyl-function-config-a"] emptyWorld)
    = Fault (NilDeref 102).
Proof.
  split.
  - pose proof (UpdateApp_nil_oldApp noFaults sampleNodes "ns" (Some waitingApp) []
                  emptyWorld) as (_ & _ & evs & Hc & _ & H & _).
    apply H.
    assert (E : evs = [(TxBegin, Done); (CronUpdate (cronOf waitingApp), Done);
                       (TxRollback, Done)]).
    { eapply continues_inj; [exact Hc|]. vm_compute. reflexivity. }
    rewrite E. repeat constructor.
  - pose proof (UpdateApp_nil_oldApp noFaults sampleNodes "ns" None
                  [configNamed "baetyl-function-config-a"] emptyWorld)
      as (_ & _ & evs & Hc & _ & H & _).
    apply H.
    assert (E : evs = [(TxBegin, Done);
                       (ConfigUpsert "ns" (configNamed "baetyl-function-config-a"), Done);
                       (TxRollback, Done)]).
    { eapply continues_inj; [exact Hc|]. vm_compute. reflexivity. }
    rewrite E. repeat constructor.
Defined.

(** C3, as stated, fails: starting from the empty stores, where the Cron
    invariant holds, a [CreateApp] into Wait followed by an [UpdateApp]
    from Wait to Scheduled both complete, and leave a Cron record for an
    Application that is not in Wait. *)
Lemma wait_to_scheduled_breaks_cron_invariant :
  let created := CreateApp noFaults sampleNodes "ns" None (Some waitingApp) [] emptyWorld in
  let updated := UpdateApp noFaults sampleNodes "ns" (Some waitingApp) (Some scheduledApp) []
                   (snd created) in
  cronInvariant emptyWorld
  ∧ fst created = Ret (effective waitingApp)
  ∧ fst updated = Ret scheduledApp
  ∧ ¬ cronInvariant (snd updated).
Proof.
  cbv zeta. split_and!; [| by vm_compute | by vm_compute |].
  - intros ns name. simpl. rewrite !lookup_empty. split.
    + by intros (a & ? & _).
    + by intros [c ?].
  - intros H. destruct (H "ns" "app1") as [_ H'].
    destruct H' as (a & Ha & Hw); [eexists; vm_compute; reflexivity|].
    vm_compute in Ha. injection Ha as <-. discriminate.
Qed.

(** C3 (amended): a successful [CreateApp] or [UpdateApp] of an
    Application in Wait returns, and persists, the Application with an empty
    Selector and leaves a Cron record under (app.Name, app.Namespace) that
    holds the supplied selector and cron time; a successful [UpdateApp]
    from Wait to NotSet leaves no Cron record under (app.Name, ns), and a
    successful [DeleteApp] of an Application in Wait leaves none under
    (name, ns). *)
Theorem cron_record_follows_wait :
  ∀ oracle mn ns name baseApp old a cfgs w,
    (∀ a' w', CreateApp oracle mn ns baseApp (Some a) cfgs w = (Ret a', w') ->
        aCronStatus a = CronWait ->
        a' = setSelector a "" ∧ aSelector a' = ""
        ∧ apps (committed w') !! (ns, aName a) = Some a'
        ∧ crons w' !! (aName a, aNamespace a)
          = Some (mkCron (aName a) (aNamespace a) (aSelector a) (aCronTime a)))
    ∧ (∀ a' w', UpdateApp oracle mn ns (Some old) (Some a) cfgs w = (Ret a', w') ->
        aCronStatus a = CronWait ->
        a' = setSelector a "" ∧ aSelector a' = ""
        ∧ apps (committed w') !! (ns, aName a) = Some a'
        ∧ crons w' !! (aName a, aNamespace a)
          = Some (mkCron (aName a) (aNamespace a) (aSelector a) (aCronTime a)))
    ∧ (∀ a' w', UpdateApp oracle mn ns (Some old) (Some a) cfgs w = (Ret a', w') ->
        aCronStatus old = CronWait -> aCronStatus a = CronNotSet ->
        crons w' !! (aName a, ns) = None)
    ∧ (∀ w', DeleteApp oracle mn ns name (Some a) w = (Ret tt, w') ->
        aCronStatus a = CronWait ->
        crons w' !! (name, ns) = None).
Proof.
  intros. split_and!.
  - intros a' w' E Hw. apply CreateApp_Ret in E as [-> ->].
    unfold effective. rewrite !bool_decide_eq_true_2 by done. simpl.
    split_and!; [done | done | apply lookup_insert_eq | apply lookup_insert_eq].
  - intros a' w' E Hw. apply UpdateApp_Ret in E as (-> & evs & k & -> & _).
    unfold effective. rewrite !bool_decide_eq_true_2 by done. simpl.
    split_and!; [done | done | |].
    + destruct (bool_decide (aSelector old ≠ "")); apply lookup_insert_eq.
    + rewrite Hw. simpl. rewrite andb_false_r. apply lookup_insert_eq.
  - intros a' w' E Ho Ha. apply UpdateApp_Ret in E as (_ & evs & k & -> & _).
    simpl. rewrite !bool_decide_eq_true_2 by done. simpl. apply lookup_delete_eq.
  - intros w' E Hw. apply DeleteApp_Ret in E as (evs & k & -> & _).
    simpl. rewrite !bool_decide_eq_true_2 by done. apply lookup_delete_eq.
Qed.

Lemma cron_record_follows_wait_witness :
  crons (snd (CreateApp noFaults sampleNodes "ns" None (Some waitingApp) [] emptyWorld))
    !! ("app1", "ns")
  = Some (mkCron "app1" "ns" "env=prod" 1700000000).
Proof.
  pose proof (cron_record_follows_wait noFaults sampleNodes "ns" "app1" None waitingApp
                waitingApp [] emptyWorld) as (H & _).
  eapply H; [|reflexivity]. vm_compute. reflexivity.
Defined.

(** C4: in a successful [UpdateApp] the old index entries are removed
    exactly when [oldApp]'s selector differs from the selector of the
    persisted Application, and then in full (the node collaborator drops
    the old Application, the index of the old name is refreshed to the
    empty list) right before the index is recomputed; after a successful
    [CreateApp] or [UpdateApp] the index of the Application is the node
    list returned for the persisted selector, and after a successful
    [DeleteApp] it is empty. *)
Theorem index_follows_selector :
  ∀ oracle mn ns name baseApp old a cfgs w,
    let p := effective a in
    let nodes := mn ns (aSelector p) in
    (∀ a' w', UpdateApp oracle mn ns (Some old) (Some a) cfgs w = (Ret a', w') ->
        ∃ evs, continues w w' evs
          ∧ (aSelector old ≠ aSelector p ->
               ∃ l1 l2, evs = l1 ++ [(NodeDeleteAppVersion ns old, Done);
                                     (IndexRefresh ns (aName old) [], Done);
                                     (NodeUpdateAppVersion ns p, Done);
                                     (IndexRefresh ns (aName a) nodes, Done)] ++ l2)
          ∧ (∀ ns' o rep, In (NodeDeleteAppVersion ns' o, rep) evs ->
               aSelector old ≠ aSelector p))
    ∧ (∀ a' w', CreateApp oracle mn ns baseApp (Some a) cfgs w = (Ret a', w') ->
        a' = p ∧ indexOf (committed w') ns (aName a) = nodes)
    ∧ (∀ a' w', UpdateApp oracle mn ns (Some old) (Some a) cfgs w = (Ret a', w') ->
        a' = p ∧ indexOf (committed w') ns (aName a) = nodes)
    ∧ (∀ w', DeleteApp oracle mn ns name (Some a) w = (Ret tt, w') ->
        indexOf (committed w') ns (aName a) = []).
Proof.
  intros oracle mn ns name baseApp old a cfgs w p nodes. subst p nodes. split_and!.
  - intros a' w' E.
    pose proof (UpdateApp_bracketed oracle mn ns (Some old) (Some a) cfgs w) as Hb.
    rewrite E in Hb. simpl in Hb.
    apply UpdateApp_Ret in E as (_ & evs & k & -> & _).
    eexists. split; [reflexivity|]. split.
    + intros Hne. rewrite (bool_decide_eq_true_2 _ Hne).
      exists ((TxBegin, Done)
                :: map (fun cfg => (ConfigUpsert ns cfg, Done)) cfgs
                ++ (if bool_decide (aCronStatus a = CronWait)
                    then [(CronUpdate (cronOf a), Done)] else [])
                ++ (if bool_decide (aCronStatus old = CronWait)
                       && bool_decide (aCronStatus a = CronNotSet)
                    then [(CronDelete (aName a) ns, Done)] else [])
                ++ [(AppUpdate ns (effective a), Done)]),
             (evs ++ [(TxCommit, Done)]).
      cbn [app]. rewrite <- !app_assoc. reflexivity.
    + intros ns' o rep Hin.
      eapply bracketed_events in Hb; [|reflexivity].
      rewrite Forall_forall in Hb. apply list_elem_of_In, Hb in Hin as [Hin|Hin]; [|done].
      simpl in Hin. destruct Hin as (a0 & Ho & Ha & _ & Hsel). by simplify_eq.
  - intros a' w' E. apply CreateApp_Ret in E as [-> ->].
    split; [done|]. unfold indexOf. simpl. by rewrite lookup_insert_eq.
  - intros a' w' E. apply UpdateApp_Ret in E as (-> & evs & k & -> & _).
    split; [done|]. unfold indexOf. simpl. by rewrite lookup_insert_eq.
  - intros w' E. apply DeleteApp_Ret in E as (evs & k & -> & _).
    unfold indexOf. simpl. by rewrite lookup_insert_eq.
Qed.

(** The re-indexing scenario: the selector changes from env=prod (nodes
    N1, N2) to env=staging (node N3). *)
Lemma index_follows_selector_witness :
  indexOf (committed (snd (UpdateApp noFaults sampleNodes "ns" (Some functionApp)
                             (Some (setSelector functionApp "env=staging")) []
                             functionWorld))) "ns" "fn"
  = ["N3"].
Proof.
  pose proof (index_follows_selector noFaults sampleNodes "ns" "fn" None functionApp
                (setSelector functionApp "env=staging") [] functionWorld)
    as (_ & _ & H & _).
  eapply H. vm_compute. reflexivity.
Defined.

(** *** The reconciliation rule *)

Lemma survivors_lookup cfgs name :
  survivors cfgs !! name = None <-> survives cfgs name = false.
Proof.
  unfold survivors, survives.
  assert (H : ∀ (m : gmap string bool),
             foldl (fun m cfg => <[cfgName cfg := true]> m) m cfgs !! name = None
             <-> m !! name = None
                 ∧ existsb (fun cfg => String.eqb (cfgName cfg) name) cfgs = false).
  { induction cfgs as [|cfg cfgs IH]; intros m; simpl; [tauto|].
    rewrite IH, orb_false_iff, lookup_insert. case_decide as Hd.
    - subst name. rewrite String.eqb_refl. split; [by intros [? ?] | by intros (? & ? & ?)].
    - apply String.eqb_neq in Hd. rewrite Hd. tauto. }
  rewrite H, lookup_empty. tauto.
Qed.

Lemma isStale_spec cfgs name :
  isStale (survivors cfgs) name = negb (survives cfgs name) && hasReservedPrefix name.
Proof.
  unfold isStale. f_equal.
  destruct (survives cfgs name) eqn:E; simpl.
  - apply bool_decide_eq_false. rewrite survivors_lookup. congruence.
  - apply bool_decide_eq_true. by rewrite survivors_lookup.
Qed.

Lemma In_volumeConfigs_referencedBy old name :
  In name (volumeConfigs old) <-> referencedBy old name = true.
Proof.
  unfold volumeConfigs, referencedBy. rewrite <- list_elem_of_In, list_elem_of_omap, existsb_exists.
  split.
  - intros (v & Hv & Hc). exists v. split; [by apply list_elem_of_In|].
    destruct (volConfig v) as [ref|]; simpl in Hc; [|done].
    injection Hc as <-. apply String.eqb_refl.
  - intros (v & Hv & Hc). exists v. split; [by apply list_elem_of_In|].
    destruct (volConfig v) as [ref|]; [|done]. apply String.eqb_eq in Hc. by subst.
Qed.

Lemma In_staleNames cfgs old name :
  In name (staleNames cfgs old)
  <-> referencedBy old name = true ∧ survives cfgs name = false
      ∧ hasReservedPrefix name = true.
Proof.
  unfold staleNames. rewrite <- list_elem_of_In, list_elem_of_filter, list_elem_of_In.
  rewrite isStale_spec, In_volumeConfigs_referencedBy, andb_true_iff, negb_true_iff.
  tauto.
Qed.

(** When no Configuration deletion is made to fail, every event of the
    reconciliation is a deletion that was carried out. *)
Lemma answered_all_done oracle k evs :
  (∀ n dns dname, oracle n (ConfigDelete dns dname) = Proceed) ->
  Forall (fun ev => isConfigDelete (fst ev) = true) evs ->
  answered oracle k evs -> Forall (fun ev => snd ev = Done) evs.
Proof.
  intros Hok. revert k. induction evs as [|[c r] evs IH]; intros k Hf Ha; [constructor|].
  apply Forall_cons in Hf as [Hc Hf]. simpl in Ha, Hc. destruct Ha as [Ha Ha'].
  destruct c; try done. rewrite Hok in Ha. subst r.
  apply Forall_cons. split; [done|]. by apply (IH (S k)).
Qed.

(** C5: when the Configuration store carries out the deletions it is
    asked for, the reconciliation removes from the store exactly the
    Configurations of the old Application's namespace that a volume of the
    old Application refers to, that are absent from the surviving set and
    whose name starts with a reserved prefix; every other Configuration,
    and every other store, is left as it was. *)
Theorem reconciliation_reclaims_exactly :
  ∀ oracle tx cfgs old w s,
    (∀ n dns dname, oracle n (ConfigDelete dns dname) = Proceed) ->
    pending w = Some s ->
    ∃ w' s',
      cleanGenConfigsOfFunctionApp oracle tx cfgs (Some old) w = (Ret tt, w')
      ∧ pending w' = Some s'
      ∧ (∀ ns name,
           configs s' !! (ns, name)
           = if reclaimed cfgs old ns name then None else configs s !! (ns, name))
      ∧ apps s' = apps s ∧ nodeApps s' = nodeApps s ∧ index s' = index s
      ∧ committed w' = committed w ∧ crons w' = crons w ∧ dirty w' = dirty w.
Proof.
  intros oracle tx cfgs old w s Hok Hs.
  destruct (cleanLoop_run oracle tx (survivors cfgs) (aNamespace old) (aVolumes old) w s Hs)
    as (evs & Hw & Hr).
  unfold cleanGenConfigsOfFunctionApp. rewrite deref_bind.
  destruct (forEach _ _ w) as [r w'] eqn:E. simpl in Hw, Hr. subst w'.
  destruct r as [[]|e|p]; [| done |].
  2:{ destruct Hr as (k & n & c & _ & Hc & Hk). destruct c; try done.
      by rewrite Hok in Hk. }
  destruct Hr as [Hm Ha].
  change (map fst evs = map (ConfigDelete (aNamespace old)) (staleNames cfgs old)) in Hm.
  assert (Hcd : Forall (fun ev => isConfigDelete (fst ev) = true) evs).
  { apply Forall_forall. intros ev Hin.
    apply list_elem_of_In, (in_map fst) in Hin. rewrite Hm in Hin.
    apply in_map_iff in Hin as (n & <- & _). done. }
  pose proof (answered_all_done _ _ _ Hok Hcd Ha) as Hdone.
  assert (Hin : ∀ ns name, In (ConfigDelete ns name, Done) evs
                           <-> reclaimed cfgs old ns name = true).
  { intros ns name. unfold reclaimed.
    rewrite !andb_true_iff, bool_decide_eq_true, negb_true_iff.
    pose proof (In_staleNames cfgs old name) as Hst. split.
    - intros H. apply (in_map fst) in H. rewrite Hm in H. simpl in H.
      apply in_map_iff in H as (n & [= <- <-] & Hn). tauto.
    - intros Hrec. assert (Hn : In name (staleNames cfgs old)) by tauto.
      assert (ns = aNamespace old) as -> by tauto.
      apply (in_map (ConfigDelete (aNamespace old))) in Hn.
      rewrite <- Hm in Hn. apply in_map_iff in Hn as ([c r] & Hc & Hn).
      simpl in Hc. subst c. rewrite Forall_forall in Hdone.
      apply list_elem_of_In in Hn. pose proof (Hdone _ Hn) as Hr. simpl in Hr.
      subst r. by apply list_elem_of_In. }
  assert (Hd : diagnostics evs = []).
  { clear -Hdone. induction evs as [|[c r] evs IH]; [done|].
    apply Forall_cons in Hdone as [Hr Hdone]. simpl in *. subst r.
    rewrite IH by done. by destruct c. }
  eexists _, _. split; [reflexivity|]. simpl.
  split_and!; try done; [|by rewrite Hd, app_nil_r].
  intros ns name. destruct (reclaimed cfgs old ns name) eqn:Er.
  - apply applyDeletes_deleted. by apply Hin.
  - apply applyDeletes_other. rewrite Hin. congruence.
Qed.

Lemma reconciliation_reclaims_exactly_witness :
  ∃ w' s',
    cleanGenConfigsOfFunctionApp noFaults TxHandle
      [configNamed "baetyl-function-config-a"] (Some functionApp)
      (mkWorld functionStores (Some functionStores) ∅ [] []) = (Ret tt, w')
    ∧ pending w' = Some s'
    ∧ configs s' !! ("ns", "baetyl-function-program-config-b") = None
    ∧ configs s' !! ("ns", "baetyl-function-config-a")
      = Some (configNamed "baetyl-function-config-a")
    ∧ configs s' !! ("ns", "user-cfg") = Some (configNamed "user-cfg").
Proof.
  destruct (reconciliation_reclaims_exactly noFaults TxHandle
              [configNamed "baetyl-function-config-a"] functionApp
              (mkWorld functionStores (Some functionStores) ∅ [] []) functionStores)
    as (w' & s' & E & Hp & Hc & _); [reflexivity | reflexivity |].
  exists w', s'. split_and!; [exact E | exact Hp | ..]; rewrite Hc; vm_compute; reflexivity.
Defined.

(** The generated-config scenario, end to end: the old Application refers
    to the Configurations a, user-cfg and b, the new set holds a only. *)
Example generated_config_gc_scenario :
  let run := UpdateApp noFaults sampleNodes "ns" (Some functionApp) (Some functionApp)
               [configNamed "baetyl-function-config-a"] functionWorld in
  fst run = Ret functionApp
  ∧ configs (committed (snd run)) !! ("ns", "baetyl-function-program-config-b") = None
  ∧ configs (committed (snd run)) !! ("ns", "baetyl-function-config-a")
    = Some (configNamed "baetyl-function-config-a")
  ∧ configs (committed (snd run)) !! ("ns", "user-cfg") = Some (configNamed "user-cfg")
  ∧ dirty (snd run) = [].
Proof. cbv zeta. split_and!; by vm_compute. Qed.

(** C7: [GetApp] of an existing Application in Wait returns it with the
    selector of the Cron record in its Selector field when the Cron lookup
    succeeds, and as it is stored when the lookup fails, be it with an
    error of the store or because there is no record; in every case each
    field other than the Selector is the stored one, and no store is
    written. *)
Theorem GetApp_overlays_cron_selector :
  ∀ oracle ns name version a w,
    apps (committed w) !! (ns, name) = Some a ->
    oracle (length (trace w)) (AppGet ns name version) = Proceed ->
    aCronStatus a = CronWait ->
    let run := GetApp oracle ns name version w in
    let lookup := oracle (S (length (trace w))) (CronGet name ns) in
    (∀ c, lookup = Proceed -> crons w !! (name, ns) = Some c ->
          ∃ a', fst run = Ret (Some a') ∧ aSelector a' = cSelector c)
    ∧ (lookup = Proceed -> crons w !! (name, ns) = None -> fst run = Ret (Some a))
    ∧ (∀ k, lookup = ForceErr k -> fst run = Ret (Some a))
    ∧ (∀ a', fst run = Ret (Some a') ->
          aName a' = aName a ∧ aNamespace a' = aNamespace a
          ∧ aVersion a' = aVersion a ∧ aCronStatus a' = aCronStatus a
          ∧ aCronTime a' = aCronTime a ∧ aVolumes a' = aVolumes a)
    ∧ committed (snd run) = committed w ∧ pending (snd run) = pending w
    ∧ crons (snd run) = crons w.
Proof.
  intros oracle ns name version a w Ha Ho Hw run lookup. subst run lookup.
  unfold GetApp, traced, app_Get, cron_GetCron, attempt, invoke.
  rewrite !bind_unfold, Ho, Ha. simpl.
  rewrite (bool_decide_eq_true_2 _ Hw), !bind_unfold. simpl.
  rewrite length_app, Nat.add_comm. simpl.
  destruct (oracle (S (length (trace w))) (CronGet name ns)) eqn:Hl;
    [destruct (crons w !! (name, ns)) as [c|] eqn:Hc|..]; simpl;
    split_and!; try done; try congruence.
  - intros c' _ [= <-]. eexists. split; [reflexivity|]. done.
  - intros a' [= <-]. done.
  - intros a' [= <-]. done.
  - intros a' [= <-]. done.
Qed.

Lemma GetApp_overlays_cron_selector_witness :
  ∃ a', fst (GetApp noFaults "ns" "app1" ""
               (snd (CreateApp noFaults sampleNodes "ns" None (Some waitingApp) []
                       emptyWorld)))
        = Ret (Some a')
        ∧ aSelector a' = "env=prod".
Proof.
  pose proof (GetApp_overlays_cron_selector noFaults "ns" "app1" ""
                (effective waitingApp)
                (snd (CreateApp noFaults sampleNodes "ns" None (Some waitingApp) []
                        emptyWorld))) as H.
  destruct H as (H & _); [by vm_compute | reflexivity | reflexivity |].
  apply (H (cronOf waitingApp)); [reflexivity | by vm_compute].
Defined.

Lemma diagnostics_In evs dns dname e :
  In (ConfigDelete dns dname, Failed e) evs ->
  In (mkDirtyData e ConfigResource dns dname) (diagnostics evs).
Proof.
  intros H. unfold diagnostics. apply in_flat_map.
  exists (ConfigDelete dns dname, Failed e). split; [done | by left].
Qed.

(** C8: when only Configuration deletions are made to fail (with an
    error), [UpdateApp] and [DeleteApp] still return successfully and
    commit; the reconciliation has asked for the deletion of every stale
    Configuration, whatever deletions failed before, and each failed
    deletion has left a dirty-data diagnostic with the type, the namespace
    and the name of the Configuration. *)
Theorem reconciliation_failures_are_diagnostics :
  ∀ oracle mn ns name old a cfgs w,
    (∀ n c, isConfigDelete c = false -> oracle n c = Proceed) ->
    (∀ n c k, oracle n c ≠ ForcePanic k) ->
    (∃ w' pre evs,
        UpdateApp oracle mn ns (Some old) (Some a) cfgs w = (Ret (effective a), w')
        ∧ trace w' = trace w ++ pre ++ evs ++ [(TxCommit, Done)]
        ∧ Forall (fun ev => isConfigDelete (fst ev) = false) pre
        ∧ map fst evs = map (ConfigDelete (aNamespace old)) (staleNames cfgs old)
        ∧ dirty w' = dirty w ++ diagnostics evs
        ∧ ∀ dns dname e, In (ConfigDelete dns dname, Failed e) evs ->
                         In (mkDirtyData e ConfigResource dns dname) (dirty w'))
    ∧ (∃ w' pre evs,
        DeleteApp oracle mn ns name (Some a) w = (Ret tt, w')
        ∧ trace w' = trace w ++ pre ++ evs ++ [(TxCommit, Done)]
        ∧ Forall (fun ev => isConfigDelete (fst ev) = false) pre
        ∧ map fst evs = map (ConfigDelete (aNamespace a)) (staleNames [] a)
        ∧ dirty w' = dirty w ++ diagnostics evs
        ∧ ∀ dns dname e, In (ConfigDelete dns dname, Failed e) evs ->
                         In (mkDirtyData e ConfigResource dns dname) (dirty w')).
Proof.
  intros oracle mn ns name old a cfgs w Hgo Hnp. split.
  - destruct (proceeds_transact oracle Hgo
                (fun tx => updateBody oracle mn tx ns (Some old) (Some a) cfgs) w)
      as (a' & w' & E).
    { intros tx. by apply proceeds_updateBody. }
    change (UpdateApp oracle mn ns (Some old) (Some a) cfgs w = (Ret a', w')) in E.
    pose proof (UpdateApp_Ret _ _ _ _ _ _ _ _ _ E) as (-> & evs & k & Hw & Hm & _).
    exists w'. eexists _, evs. split; [exact E|]. rewrite Hw. cbn [trace dirty].
    split_and!; [reflexivity | | exact Hm | reflexivity |].
    + apply Forall_cons. split; [done|].
      rewrite !Forall_app. split_and!.
      * apply Forall_forall. intros ev Hin. apply list_elem_of_In, in_map_iff in Hin.
        by destruct Hin as (cfg & <- & _).
      * destruct (bool_decide (aCronStatus a = CronWait)); by repeat constructor.
      * destruct (bool_decide (aCronStatus old = CronWait)
                  && bool_decide (aCronStatus a = CronNotSet)); by repeat constructor.
      * by repeat constructor.
      * destruct (bool_decide (aSelector old ≠ aSelector (effective a)));
          by repeat constructor.
      * by repeat constructor.
    + intros dns dname e Hin. apply in_app_iff. right. by apply diagnostics_In.
  - destruct (proceeds_transact oracle Hgo
                (fun tx => deleteBody oracle mn tx ns name (Some a)) w)
      as ([] & w' & E).
    { intros tx. by apply proceeds_deleteBody. }
    change (DeleteApp oracle mn ns name (Some a) w = (Ret tt, w')) in E.
    pose proof (DeleteApp_Ret _ _ _ _ _ _ _ E) as (evs & k & Hw & Hm & _).
    exists w',
      ((TxBegin, Done)
         :: (if bool_decide (aCronStatus a = CronWait)
             then [(CronDelete name ns, Done)] else [])
         ++ [(AppDelete ns name "", Done);
             (NodeDeleteAppVersion ns a, Done);
             (IndexRefresh ns (aName a) [], Done)]),
      evs.
    split; [exact E|]. rewrite Hw. cbn [trace dirty].
    split_and!; [ | | exact Hm | reflexivity |].
    + cbn [app]. by rewrite <- !app_assoc.
    + apply Forall_cons. split; [done|].
      rewrite !Forall_app. split_and!.
      * destruct (bool_decide (aCronStatus a = CronWait)); by repeat constructor.
      * by repeat constructor.
    + intros dns dname e Hin. apply in_app_iff. right. by apply diagnostics_In.
Qed.

(** The deletion of the stale program Configuration fails: [UpdateApp]
    returns the Application and the diagnostic names the Configuration. *)
Lemma reconciliation_failures_are_diagnostics_witness :
  ∃ w',
    UpdateApp (failDeletes (String.prefix "baetyl-function-program")) sampleNodes "ns"
      (Some functionApp) (Some functionApp) [configNamed "baetyl-function-config-a"]
      functionWorld = (Ret functionApp, w')
    ∧ In (mkDirtyData (ErrForced 7) ConfigResource "ns" "baetyl-function-program-config-b")
         (dirty w').
Proof.
  destruct (reconciliation_failures_are_diagnostics
              (failDeletes (String.prefix "baetyl-function-program")) sampleNodes
              "ns" "fn" functionApp functionApp
              [configNamed "baetyl-function-config-a"] functionWorld)
    as [(w' & pre & evs & E & Ht & _ & Hm & _ & Hd) _].
  - intros n c Hc. by destruct c.
  - intros n c k. destruct c; simpl; try done. by destruct (String.prefix _ _).
  - exists w'. split; [exact E|]. apply Hd.
    assert (Hw : w' = snd (UpdateApp (failDeletes (String.prefix "baetyl-function-program"))
                             sampleNodes "ns" (Some functionApp) (Some functionApp)
                             [configNamed "baetyl-function-config-a"] functionWorld))
      by (by rewrite E).
    rewrite Hw in Ht. vm_compute in Ht.
    assert (Hs : staleNames [configNamed "baetyl-function-config-a"] functionApp
                 = ["baetyl-function-program-config-b"]) by (vm_compute; reflexivity).
    rewrite Hs in Hm. simpl in Hm.
    assert (Hl : length pre = 5).
    { apply (f_equal (@length _)) in Ht. apply (f_equal (@length _)) in Hm.
      rewrite !length_app in Ht. rewrite length_map in Hm. simpl in Ht, Hm. lia. }
    do 6 (destruct pre as [|? pre]; simpl in Hl; try lia).
    injection Ht as <- <- <- <- <- Ht.
    destruct evs as [|ev evs]; [discriminate Hm|]. injection Ht as <- _. by left.
Defined.

(** ** Further properties of the facade *)

(** *** [GetApp] *)

(** X1: [GetApp] only reads.  Whatever the stores answer, it leaves every
    store and the dirty-data log as they were, and it calls the Application
    store once and then, at most, the Cron store once with the key
    (name, ns). *)
Theorem GetApp_read_only :
  ∀ oracle ns name version w,
    let run := GetApp oracle ns name version w in
    committed (snd run) = committed w ∧ pending (snd run) = pending w
    ∧ crons (snd run) = crons w ∧ dirty (snd run) = dirty w
    ∧ ((∃ r, continues w (snd run) [(AppGet ns name version, r)])
       ∨ (∃ r, continues w (snd run) [(AppGet ns name version, Done);
                                      (CronGet name ns, r)])).
Proof.
  intros oracle ns name version w run. subst run.
  unfold GetApp, traced, app_Get, cron_GetCron, attempt, invoke, continues.
  rewrite !bind_unfold.
  destruct (oracle (length (trace w)) (AppGet ns name version)); simpl;
    [|split_and!; try done; left; eexists; reflexivity..].
  destruct (apps (committed w) !! (ns, name)) as [a|]; simpl;
    [|split_and!; try done; left; eexists; reflexivity].
  destruct (bool_decide (aCronStatus a = CronWait)); simpl;
    [|split_and!; try done; left; eexists; reflexivity].
  rewrite !bind_unfold.
  destruct (oracle _ (CronGet name ns)); simpl;
    [destruct (crons w !! (name, ns)); simpl|..];
    (split_and!; try done; right; eexists; by rewrite <- app_assoc).
Qed.

(** X2: when the Application lookup fails, because the store returns an
    error or has no such Application, [GetApp] returns that error wrapped by
    errors.Trace and does not ask the Cron store. *)
Theorem GetApp_lookup_error :
  ∀ oracle ns name version w e,
    (oracle (length (trace w)) (AppGet ns name version) = Proceed
     ∧ apps (committed w) !! (ns, name) = None ∧ e = ErrNotFound)
    ∨ (∃ k, oracle (length (trace w)) (AppGet ns name version) = ForceErr k
            ∧ e = ErrForced k) ->
    GetApp oracle ns name version w
    = (Fail (Trace e), record (AppGet ns name version) (Failed e) w).
Proof.
  intros oracle ns name version w e H.
  unfold GetApp, traced, app_Get, invoke. rewrite bind_unfold.
  destruct H as [(-> & -> & ->)|(k & -> & ->)]; reflexivity.
Qed.

Lemma GetApp_lookup_error_witness :
  GetApp noFaults "ns" "missing" "" functionWorld
  = (Fail (Trace ErrNotFound), record (AppGet "ns" "missing" "") (Failed ErrNotFound)
                                 functionWorld).
Proof.
  apply GetApp_lookup_error. left. split_and!; [reflexivity | by vm_compute | reflexivity].
Defined.

(** X3: an Application that is not in Wait is returned as it is stored, and
    the Cron store is not asked. *)
Theorem GetApp_not_waiting :
  ∀ oracle ns name version a w,
    apps (committed w) !! (ns, name) = Some a ->
    oracle (length (trace w)) (AppGet ns name version) = Proceed ->
    aCronStatus a ≠ CronWait ->
    GetApp oracle ns name version w
    = (Ret (Some a), record (AppGet ns name version) Done w).
Proof.
  intros oracle ns name version a w Ha Ho Hw.
  unfold GetApp, traced, app_Get, invoke. rewrite bind_unfold, Ho, Ha. simpl.
  by rewrite (bool_decide_eq_false_2 _ Hw).
Qed.

Lemma GetApp_not_waiting_witness :
  GetApp noFaults "ns" "fn" "" functionWorld
  = (Ret (Some functionApp), record (AppGet "ns" "fn" "") Done functionWorld).
Proof.
  apply GetApp_not_waiting; [by vm_compute | reflexivity | discriminate].
Defined.

(** *** The transaction bracket *)

(** X4: when the transaction cannot begin, each operation returns the
    error of BeginTx as it is (not wrapped), calls no store and neither
    commits nor rolls back. *)
Theorem BeginTx_error_is_returned :
  ∀ oracle mn ns name baseApp oldApp app cfgs w k,
    oracle (length (trace w)) TxBegin = ForceErr k ->
    let w' := record TxBegin (Failed (ErrForced k)) w in
    CreateApp oracle mn ns baseApp app cfgs w = (Fail (ErrForced k), w')
    ∧ UpdateApp oracle mn ns oldApp app cfgs w = (Fail (ErrForced k), w')
    ∧ DeleteApp oracle mn ns name app w = (Fail (ErrForced k), w').
Proof.
  intros oracle mn ns name baseApp oldApp app cfgs w k Ho w'. subst w'.
  unfold CreateApp, UpdateApp, DeleteApp, txFactory_BeginTx, invoke.
  rewrite !bind_unfold, Ho. done.
Qed.

Lemma BeginTx_error_is_returned_witness :
  CreateApp (failAt 0) sampleNodes "ns" None (Some waitingApp) [] emptyWorld
  = (Fail (ErrForced 1), record TxBegin (Failed (ErrForced 1)) emptyWorld).
Proof.
  apply (BeginTx_error_is_returned (failAt 0) sampleNodes "ns" "app1" None None
           (Some waitingApp) [] emptyWorld 1).
  reflexivity.
Defined.

(** A bracketed body whose transaction began: its events, then the one
    call that ends the transaction. *)
Lemma transact_began {A} oracle (φ : Call * Reply -> Prop) (body : Tx -> M A) w :
  oracle (length (trace w)) TxBegin = Proceed ->
  (∀ tx, stable (extends φ) (body tx)) ->
  ∃ evs, Forall φ evs
    ∧ continues w (snd (transact oracle body w))
        ((TxBegin, Done) :: evs
           ++ [(closing (fst (transact oracle body w)), Done)]).
Proof.
  intros Ho Hb. unfold transact, txFactory_BeginTx, invoke.
  rewrite bind_unfold, Ho. simpl. unfold deferred.
  destruct (Hb TxHandle (record TxBegin Done (setPending (Some (committed w)) w)))
    as (_ & evs & Hc & Hf).
  exists evs. split; [done|]. unfold continues in *.
  destruct (body TxHandle _) as [[a|e|p] w1]; simpl in *;
    unfold txFactory_Commit; try destruct (pending w1); simpl;
    rewrite Hc, <- !app_assoc; done.
Qed.

Lemma began_ends_once (φ : Call * Reply -> Prop) evs fin :
  (∀ ev, φ ev -> isTxCall (fst ev) = false) -> Forall φ evs -> isTxEnd fin = true ->
  filter (fun c => isTxEnd c = true) (map fst ((TxBegin, Done) :: evs ++ [(fin, Done)]))
  = [fin]
  ∧ last ((TxBegin, Done) :: evs ++ [(fin, Done)]) = Some (fin, Done).
Proof.
  intros Hφ Hf Hfin. split; [|by rewrite app_comm_cons, last_snoc].
  simpl. rewrite filter_cons_False by done.
  rewrite map_app, filter_app. simpl. rewrite filter_cons_True by done.
  rewrite filter_nil.
  assert (E : filter (fun c => isTxEnd c = true) (map fst evs) = []).
  { induction Hf as [|[c r] evs Hc _ IH]; [done|]. simpl.
    rewrite filter_cons_False, IH; [done|]. apply Hφ in Hc. simpl in Hc.
    destruct c; simpl in *; congruence. }
  by rewrite E.
Qed.

(** X5: once the transaction has begun, every run of [CreateApp],
    [UpdateApp] and [DeleteApp] ends the transaction exactly once, with the
    last call of the run: a commit when the operation returns successfully, a
    rollback when it returns an error or faults. *)
Theorem transaction_ended_once :
  ∀ oracle mn ns name baseApp oldApp app cfgs w,
    oracle (length (trace w)) TxBegin = Proceed ->
    (∀ evs, continues w (snd (CreateApp oracle mn ns baseApp app cfgs w)) evs ->
       let fin := closing (fst (CreateApp oracle mn ns baseApp app cfgs w)) in
       filter (fun c => isTxEnd c = true) (map fst evs) = [fin]
       ∧ last evs = Some (fin, Done))
    ∧ (∀ evs, continues w (snd (UpdateApp oracle mn ns oldApp app cfgs w)) evs ->
       let fin := closing (fst (UpdateApp oracle mn ns oldApp app cfgs w)) in
       filter (fun c => isTxEnd c = true) (map fst evs) = [fin]
       ∧ last evs = Some (fin, Done))
    ∧ (∀ evs, continues w (snd (DeleteApp oracle mn ns name app w)) evs ->
       let fin := closing (fst (DeleteApp oracle mn ns name app w)) in
       filter (fun c => isTxEnd c = true) (map fst evs) = [fin]
       ∧ last evs = Some (fin, Done)).
Proof.
  intros oracle mn ns name baseApp oldApp app cfgs w Ho. split_and!; intros evs Hc fin.
  - destruct (transact_began oracle _
                (fun tx => createBody oracle mn tx ns baseApp app cfgs) w Ho
                (fun tx => createBody_protocol oracle mn tx ns baseApp app cfgs))
      as (evs' & Hf & Hc').
    rewrite (continues_inj _ _ _ _ Hc Hc').
    eapply began_ends_once; [| exact Hf | subst fin; by destruct (fst _)].
    intros ev. apply createCall_not_tx.
  - destruct (transact_began oracle _
                (fun tx => updateBody oracle mn tx ns oldApp app cfgs) w Ho
                (fun tx => updateBody_protocol oracle mn tx ns oldApp app cfgs))
      as (evs' & Hf & Hc').
    rewrite (continues_inj _ _ _ _ Hc Hc').
    eapply began_ends_once; [| exact Hf | subst fin; by destruct (fst _)].
    intros ev. apply updateCall_not_tx.
  - destruct (transact_began oracle _
                (fun tx => deleteBody oracle mn tx ns name app) w Ho
                (fun tx => deleteBody_protocol oracle mn tx ns name app))
      as (evs' & Hf & Hc').
    rewrite (continues_inj _ _ _ _ Hc Hc').
    eapply began_ends_once; [| exact Hf | subst fin; by destruct (fst _)].
    intros ev. apply deleteCall_not_tx.
Qed.

Lemma transaction_ended_once_witness :
  last (trace (snd (CreateApp (failAt 2) sampleNodes "ns" None (Some waitingApp) []
                      emptyWorld)))
  = Some (TxRollback, Done).
Proof.
  pose proof (transaction_ended_once (failAt 2) sampleNodes "ns" "app1" None None
                (Some waitingApp) [] emptyWorld eq_refl) as (H & _).
  apply (H (trace (snd (CreateApp (failAt 2) sampleNodes "ns" None (Some waitingApp) []
                          emptyWorld)))).
  reflexivity.
Defined.

(** *** Where an error or a fault comes from *)

Section Blame.

Variable oracle : nat -> Call -> decision.
Variable matchNodes : string -> string -> list string.

Lemma blamed_ret {A} (a : A) : blamed (ret a).
Proof. intros w. exists []. split; [|done]. unfold continues. simpl. by rewrite app_nil_r. Qed.

Lemma blamed_deref {A} line (p : option A) : blamed (deref line p).
Proof.
  intros w. exists []. split; [unfold continues; destruct p; simpl; by rewrite app_nil_r|].
  destruct p; simpl; eauto.
Qed.

Lemma blamed_bind {A B} (m : M A) (f : A -> M B) :
  blamed m -> (∀ a, blamed (f a)) -> blamed (bind m f).
Proof.
  intros Hm Hf w. rewrite bind_unfold. destruct (Hm w) as (all1 & Hc1 & Hr1).
  destruct (m w) as [[a|e|p] w1]; simpl in *; [|by exists all1..].
  destruct (Hf a w1) as (all2 & Hc2 & Hr2). exists (all1 ++ all2).
  unfold continues in *. split; [rewrite Hc2, Hc1; by rewrite app_assoc|].
  destruct (fst (f a w1)); [done|..].
  - destruct Hr2 as (evs & c & e' & -> & ->). exists (all1 ++ evs), c, e'.
    by rewrite app_assoc.
  - destruct Hr2 as [?|(evs & c & ->)]; [by left|]. right. exists (all1 ++ evs), c.
    by rewrite app_assoc.
Qed.

Lemma blamed_forEach {A} (l : list A) (body : A -> M unit) :
  (∀ x, blamed (body x)) -> blamed (forEach l body).
Proof.
  intros Hb. induction l as [|x l IH]; simpl;
    [apply blamed_ret | apply blamed_bind; auto].
Qed.

(** A call of a store other than the Cron store, its error returned as it is. *)
Lemma blamed_call {A} c (act : World -> (error + A) * World) :
  isCronCall c = false -> (∀ w, trace (snd (act w)) = trace w) ->
  blamed (invoke oracle c act).
Proof.
  intros Hc Hact w. unfold invoke, wrapFor. specialize (Hact w).
  destruct (oracle _ c); [destruct (act w) as [[e|a] w1]|..]; simpl in *;
    eexists [(c, _)]; (split; [unfold continues; simpl; by rewrite ?Hact|]).
  - exists [], c, e. by rewrite Hc.
  - done.
  - exists [], c, (ErrForced code). by rewrite Hc.
  - right. by exists [], c.
Qed.

(** A call of the Cron store, its error wrapped by errors.Trace. *)
Lemma blamed_cron_call {A} c (act : World -> (error + A) * World) :
  isCronCall c = true -> (∀ w, trace (snd (act w)) = trace w) ->
  blamed (traced (invoke oracle c act)).
Proof.
  intros Hc Hact w. unfold traced, invoke, wrapFor. specialize (Hact w).
  destruct (oracle _ c); [destruct (act w) as [[e|a] w1]|..]; simpl in *;
    eexists [(c, _)]; (split; [unfold continues; simpl; by rewrite ?Hact|]).
  - exists [], c, e. by rewrite Hc.
  - done.
  - exists [], c, (ErrForced code). by rewrite Hc.
  - right. by exists [], c.
Qed.

Lemma blamed_tx_call {A} c (f : Stores -> A * Stores) :
  isCronCall c = false -> blamed (invoke oracle c (onTx f)).
Proof. intros Hc. apply blamed_call; [done|]. intros w. apply onTx_quiet. Qed.

(** The reconciliation of one volume never returns an error. *)
Lemma blamed_cleanVolume tx m ns v : blamed (cleanVolume oracle tx m ns v).
Proof.
  unfold cleanVolume. destruct (volConfig v) as [ref|]; [|apply blamed_ret].
  destruct (isStale m (orName ref)); [|apply blamed_ret].
  intros w. unfold attempt, config_Delete, invoke, onTx, LogDirtyData. rewrite bind_unfold.
  destruct (oracle _ _); [destruct (pending w)|..]; simpl;
    eexists [(_, _)]; (split; [reflexivity|]); try done.
  right. by eexists [], _.
Qed.

Lemma blamed_updateGen tx ns cfgs :
  blamed (updateGenConfigsOfFunctionApp oracle tx ns cfgs).
Proof.
  apply blamed_forEach. intros cfg.
  apply blamed_bind; [by apply blamed_tx_call | intros; apply blamed_ret].
Qed.

Lemma blamed_cleanGen tx cfgs oldApp :
  blamed (cleanGenConfigsOfFunctionApp oracle tx cfgs oldApp).
Proof.
  apply blamed_bind; [apply blamed_deref|]. intros old.
  apply blamed_forEach. intros v. apply blamed_cleanVolume.
Qed.

Lemma blamed_UpdateNodeAndAppIndex tx ns a :
  blamed (UpdateNodeAndAppIndex oracle matchNodes tx ns a).
Proof. apply blamed_bind; [|intros nodes]; by apply blamed_tx_call. Qed.

Lemma blamed_DeleteNodeAndAppIndex tx ns a :
  blamed (DeleteNodeAndAppIndex oracle matchNodes tx ns a).
Proof. apply blamed_bind; [|intros nodes]; by apply blamed_tx_call. Qed.

Lemma blamed_createBody tx ns baseApp app cfgs :
  blamed (createBody oracle matchNodes tx ns baseApp app cfgs).
Proof.
  apply blamed_bind; [apply blamed_updateGen|]. intros _.
  apply blamed_bind; [apply blamed_deref|]. intros a.
  apply blamed_bind.
  { destruct (bool_decide (aCronStatus a = CronWait)); [|apply blamed_ret].
    apply blamed_bind; [by apply blamed_cron_call | intros; apply blamed_ret]. }
  intros a1. apply blamed_bind; [by apply blamed_tx_call|]. intros a2.
  apply blamed_bind; [apply blamed_UpdateNodeAndAppIndex | intros; apply blamed_ret].
Qed.

Lemma blamed_updateBody tx ns oldApp app cfgs :
  blamed (updateBody oracle matchNodes tx ns oldApp app cfgs).
Proof.
  apply blamed_bind; [apply blamed_updateGen|]. intros _.
  apply blamed_bind; [apply blamed_deref|]. intros a.
  apply blamed_bind.
  { destruct (bool_decide (aCronStatus a = CronWait)); [|apply blamed_ret].
    apply blamed_bind; [by apply blamed_cron_call | intros; apply blamed_ret]. }
  intros a1. apply blamed_bind; [apply blamed_deref|]. intros old.
  apply blamed_bind.
  { destruct (_ && _); [by apply blamed_cron_call | apply blamed_ret]. }
  intros _. apply blamed_bind; [by apply blamed_tx_call|]. intros a2.
  apply blamed_bind.
  { destruct oldApp as [old'|]; [|apply blamed_ret].
    destruct (bool_decide (aSelector old' ≠ aSelector a2));
      [apply blamed_DeleteNodeAndAppIndex | apply blamed_ret]. }
  intros _. apply blamed_bind; [apply blamed_UpdateNodeAndAppIndex|]. intros _.
  apply blamed_bind; [apply blamed_cleanGen | intros; apply blamed_ret].
Qed.

Lemma blamed_deleteBody tx ns name app :
  blamed (deleteBody oracle matchNodes tx ns name app).
Proof.
  apply blamed_bind; [apply blamed_deref|]. intros a.
  apply blamed_bind.
  { destruct (bool_decide (aCronStatus a = CronWait));
      [by apply blamed_cron_call | apply blamed_ret]. }
  intros _. apply blamed_bind; [by apply blamed_tx_call|]. intros _.
  apply blamed_bind; [apply blamed_DeleteNodeAndAppIndex|]. intros _.
  apply blamed_cleanGen.
Qed.

(** The error of a bracketed body: the transaction did not begin, or the
    failed call is followed by the rollback only. *)
Lemma transact_error {A} (body : Tx -> M A) w e :
  (∀ tx, blamed (body tx)) ->
  fst (transact oracle body w) = Fail e ->
  (continues w (snd (transact oracle body w)) [(TxBegin, Failed e)])
  ∨ ∃ evs c e',
      continues w (snd (transact oracle body w))
        ((TxBegin, Done) :: evs ++ [(c, Failed e'); (TxRollback, Done)])
      ∧ e = wrapFor c e'.
Proof.
  intros Hb. unfold transact, txFactory_BeginTx, invoke. rewrite bind_unfold.
  destruct (oracle _ TxBegin); simpl; [| by intros [= <-]; left | done].
  unfold deferred.
  destruct (Hb TxHandle (record TxBegin Done (setPending (Some (committed w)) w)))
    as (all & Hc & Hr).
  destruct (body TxHandle _) as [[a|e0|p] w1]; simpl in *; [done| |done].
  intros [= <-]. destruct Hr as (evs & c & e' & -> & ->). right. exists evs, c, e'.
  split; [|done]. unfold continues in *. simpl in *. rewrite Hc, <- !app_assoc. done.
Qed.

(** The fault of a bracketed body. *)
Lemma transact_fault {A} (body : Tx -> M A) w p :
  (∀ tx, blamed (body tx)) ->
  fst (transact oracle body w) = Fault p ->
  (continues w (snd (transact oracle body w)) [(TxBegin, Panicked p)])
  ∨ ∃ evs,
      continues w (snd (transact oracle body w))
        ((TxBegin, Done) :: evs ++ [(TxRollback, Done)])
      ∧ ((∃ l, p = NilDeref l) ∨ ∃ evs' c, evs = evs' ++ [(c, Panicked p)]).
Proof.
  intros Hb. unfold transact, txFactory_BeginTx, invoke. rewrite bind_unfold.
  destruct (oracle _ TxBegin); simpl; [| done | by intros [= <-]; left].
  unfold deferred.
  destruct (Hb TxHandle (record TxBegin Done (setPending (Some (committed w)) w)))
    as (all & Hc & Hr).
  destruct (body TxHandle _) as [[a|e0|p0] w1]; simpl in *; [done|done|].
  intros [= <-]. right. exists all. split; [|done].
  unfold continues in *. simpl in *. rewrite Hc, <- !app_assoc. done.
Qed.

End Blame.

(** X6: when [CreateApp], [UpdateApp] or [DeleteApp] returns an error,
    either the transaction did not begin and the error is that of BeginTx,
    or the error is that of the last store call of the run, wrapped by
    errors.Trace exactly when that call went to the Cron store, and the only
    call made after the failed one is the rollback. *)
Theorem error_is_that_of_last_call :
  ∀ oracle mn ns name baseApp oldApp app cfgs w,
    (∀ e w', CreateApp oracle mn ns baseApp app cfgs w = (Fail e, w') -> failedAt w w' e)
    ∧ (∀ e w', UpdateApp oracle mn ns oldApp app cfgs w = (Fail e, w') -> failedAt w w' e)
    ∧ (∀ e w', DeleteApp oracle mn ns name app w = (Fail e, w') -> failedAt w w' e).
Proof.
  intros. split_and!; intros e w' H.
  - pose proof (transact_error oracle
                  (fun tx => createBody oracle mn tx ns baseApp app cfgs) w e
                  (fun tx => blamed_createBody oracle mn tx ns baseApp app cfgs)) as T.
    change (transact oracle _ w) with (CreateApp oracle mn ns baseApp app cfgs w) in T.
    rewrite H in T. by apply T.
  - pose proof (transact_error oracle
                  (fun tx => updateBody oracle mn tx ns oldApp app cfgs) w e
                  (fun tx => blamed_updateBody oracle mn tx ns oldApp app cfgs)) as T.
    change (transact oracle _ w) with (UpdateApp oracle mn ns oldApp app cfgs w) in T.
    rewrite H in T. by apply T.
  - pose proof (transact_error oracle
                  (fun tx => deleteBody oracle mn tx ns name app) w e
                  (fun tx => blamed_deleteBody oracle mn tx ns name app)) as T.
    change (transact oracle _ w) with (DeleteApp oracle mn ns name app w) in T.
    rewrite H in T. by apply T.
Qed.

(** The Cron record cannot be created: the error comes back wrapped. *)
Lemma error_is_that_of_last_call_witness :
  failedAt emptyWorld
    (snd (CreateApp (failAt 1) sampleNodes "ns" None (Some waitingApp) [] emptyWorld))
    (Trace (ErrForced 1)).
Proof.
  pose proof (error_is_that_of_last_call (failAt 1) sampleNodes "ns" "app1" None None
                (Some waitingApp) [] emptyWorld) as (H & _).
  apply H. vm_compute. reflexivity.
Defined.

(** X7: when [CreateApp], [UpdateApp] or [DeleteApp] faults, the fault is
    a nil dereference or the very fault a store call raised; it is raised
    again only after the transaction was rolled back, and the faulting call
    is the last store call of the run. *)
Theorem fault_is_raised_again_after_rollback :
  ∀ oracle mn ns name baseApp oldApp app cfgs w,
    (∀ p w', CreateApp oracle mn ns baseApp app cfgs w = (Fault p, w') -> faultedAt w w' p)
    ∧ (∀ p w', UpdateApp oracle mn ns oldApp app cfgs w = (Fault p, w') -> faultedAt w w' p)
    ∧ (∀ p w', DeleteApp oracle mn ns name app w = (Fault p, w') -> faultedAt w w' p).
Proof.
  intros. split_and!; intros p w' H.
  - pose proof (transact_fault oracle
                  (fun tx => createBody oracle mn tx ns baseApp app cfgs) w p
                  (fun tx => blamed_createBody oracle mn tx ns baseApp app cfgs)) as T.
    change (transact oracle _ w) with (CreateApp oracle mn ns baseApp app cfgs w) in T.
    rewrite H in T. by apply T.
  - pose proof (transact_fault oracle
                  (fun tx => updateBody oracle mn tx ns oldApp app cfgs) w p
                  (fun tx => blamed_updateBody oracle mn tx ns oldApp app cfgs)) as T.
    change (transact oracle _ w) with (UpdateApp oracle mn ns oldApp app cfgs w) in T.
    rewrite H in T. by apply T.
  - pose proof (transact_fault oracle
                  (fun tx => deleteBody oracle mn tx ns name app) w p
                  (fun tx => blamed_deleteBody oracle mn tx ns name app)) as T.
    change (transact oracle _ w) with (DeleteApp oracle mn ns name app w) in T.
    rewrite H in T. by apply T.
Qed.

(** The index refresh of [DeleteApp] faults. *)
Lemma fault_is_raised_again_after_rollback_witness :
  faultedAt functionWorld
    (snd (DeleteApp (faultAt 3) sampleNodes "ns" "fn" (Some functionApp) functionWorld))
    (PanicForced 1).
Proof.
  pose proof (fault_is_raised_again_after_rollback (faultAt 3) sampleNodes "ns" "fn"
                None None (Some functionApp) [] functionWorld) as (_ & _ & H).
  apply H. vm_compute. reflexivity.
Defined.

(** *** Nil arguments *)

(** X8: [DeleteApp] of a nil Application faults at line 159 right after
    the transaction began: no store is called, and the transaction is rolled
    back before the fault is raised again. *)
Theorem DeleteApp_nil_app :
  ∀ oracle mn ns name w,
    oracle (length (trace w)) TxBegin = Proceed ->
    DeleteApp oracle mn ns name None w
    = (Fault (NilDeref 159),
       mkWorld (committed w) None (crons w) (dirty w)
               (trace w ++ [(TxBegin, Done); (TxRollback, Done)])).
Proof.
  intros oracle mn ns name w Ho.
  unfold DeleteApp, txFactory_BeginTx, invoke. rewrite bind_unfold, Ho. simpl.
  unfold deferred, deleteBody, txFactory_Rollback, record, setPending. simpl.
  by rewrite <- app_assoc.
Qed.

Lemma DeleteApp_nil_app_witness :
  fst (DeleteApp noFaults sampleNodes "ns" "fn" None functionWorld) = Fault (NilDeref 159).
Proof.
  by rewrite (DeleteApp_nil_app noFaults sampleNodes "ns" "fn" functionWorld eq_refl).
Defined.

(** A body that dereferences a nil pointer at [line] right after the
    Configuration upserts. *)
Lemma nil_after_upserts {A} oracle tx ns cfgs line (body : M A) w s :
  pending w = Some s ->
  body w = match updateGenConfigsOfFunctionApp oracle tx ns cfgs w with
           | (Ret _, w1) => (Fault (NilDeref line), w1)
           | (Fail e, w1) => (Fail e, w1)
           | (Fault p, w1) => (Fault p, w1)
           end ->
  ∃ evs, continues w (snd (body w)) evs
    ∧ match fst (body w) with
      | Ret _ => False
      | Fail _ => Exists (fun ev => snd ev ≠ Done) evs
      | Fault p =>
          (p = NilDeref line
           ∧ evs = map (fun cfg => (ConfigUpsert ns cfg, Done)) cfgs)
          ∨ ((∃ k, p = PanicForced k) ∧ Exists (fun ev => snd ev ≠ Done) evs)
      end.
Proof.
  intros Hs ->.
  destruct (accounted_updateGen oracle tx ns cfgs w) as (evs & Hc & Hr).
  destruct (updateGenConfigsOfFunctionApp oracle tx ns cfgs w) as [[[]|e|p] w1] eqn:E;
    simpl in *.
  - apply (updateGen_Ret oracle tx ns cfgs w s) in E; [|done]. subst w1.
    eexists. split; [reflexivity|]. by left.
  - by exists evs.
  - exists evs. split; [done|]. right. tauto.
Qed.

(** The same, around the bracket of the transaction. *)
Lemma transact_nil_after_upserts {A} oracle ns cfgs line (body : Tx -> M A) w :
  (∀ tx w0, body tx w0
            = match updateGenConfigsOfFunctionApp oracle tx ns cfgs w0 with
              | (Ret _, w1) => (Fault (NilDeref line), w1)
              | (Fail e, w1) => (Fail e, w1)
              | (Fault p, w1) => (Fault p, w1)
              end) ->
  (∀ x, fst (transact oracle body w) ≠ Ret x)
  ∧ (∀ evs, continues w (snd (transact oracle body w)) evs ->
       Forall (fun ev => snd ev = Done) evs ->
       fst (transact oracle body w) = Fault (NilDeref line)
       ∧ map fst evs = TxBegin :: map (ConfigUpsert ns) cfgs ++ [TxRollback]).
Proof.
  intros Hb. unfold transact, txFactory_BeginTx, invoke. rewrite bind_unfold.
  destruct (oracle _ TxBegin); simpl.
  2,3: split; [done|]; intros evs Hc Hd; unfold continues in Hc; simpl in Hc;
       apply app_inv_head in Hc; subst evs; by apply Forall_cons in Hd as [[=] _].
  unfold deferred.
  destruct (nil_after_upserts oracle TxHandle ns cfgs line (body TxHandle)
              (record TxBegin Done (setPending (Some (committed w)) w)) (committed w)
              eq_refl (Hb _ _)) as (evs & Hc & Hr).
  destruct (body TxHandle _) as [[x|e|p] w1]; simpl in *; [done|..].
  - split; [done|]. intros evs' Hc' Hd. exfalso.
    unfold continues in *. simpl in *. rewrite Hc, <- !app_assoc in Hc'.
    apply app_inv_head in Hc'. subst evs'.
    apply Forall_cons in Hd as [_ Hd]. apply Forall_app in Hd as [Hd _].
    apply Exists_exists in Hr as (ev & Hin & Hne).
    rewrite Forall_forall in Hd. by apply Hne, Hd.
  - split; [done|]. intros evs' Hc' Hd.
    unfold continues in *. simpl in *. rewrite Hc, <- !app_assoc in Hc'.
    apply app_inv_head in Hc'. subst evs'.
    destruct Hr as [[-> ->]|[_ Hr]].
    + split; [done|]. simpl. rewrite map_app, map_map. done.
    + exfalso. apply Forall_cons in Hd as [_ Hd]. apply Forall_app in Hd as [Hd _].
      apply Exists_exists in Hr as (ev & Hin & Hne).
      rewrite Forall_forall in Hd. by apply Hne, Hd.
Qed.

(** X9: with a nil Application, [CreateApp] (line 55) and [UpdateApp]
    (line 102) never succeed; when every call they made returned, these
    calls are the begin, the upsert of every supplied Configuration and the
    rollback, and the outcome is the nil dereference of that line. *)
Theorem nil_app_faults_after_upserts :
  ∀ oracle mn ns baseApp oldApp cfgs w,
    let created := CreateApp oracle mn ns baseApp None cfgs w in
    let updated := UpdateApp oracle mn ns oldApp None cfgs w in
    ((∀ x, fst created ≠ Ret x)
     ∧ (∀ evs, continues w (snd created) evs ->
          Forall (fun ev => snd ev = Done) evs ->
          fst created = Fault (NilDeref 55)
          ∧ map fst evs = TxBegin :: map (ConfigUpsert ns) cfgs ++ [TxRollback]))
    ∧ ((∀ x, fst updated ≠ Ret x)
       ∧ (∀ evs, continues w (snd updated) evs ->
            Forall (fun ev => snd ev = Done) evs ->
            fst updated = Fault (NilDeref 102)
            ∧ map fst evs = TxBegin :: map (ConfigUpsert ns) cfgs ++ [TxRollback])).
Proof.
  intros oracle mn ns baseApp oldApp cfgs w created updated. subst created updated. split.
  - apply (transact_nil_after_upserts oracle ns cfgs 55
             (fun tx => createBody oracle mn tx ns baseApp None cfgs)).
    intros tx w0. unfold createBody. rewrite bind_unfold.
    by destruct (updateGenConfigsOfFunctionApp _ _ _ _ w0) as [[[]|e|p] w1].
  - apply (transact_nil_after_upserts oracle ns cfgs 102
             (fun tx => updateBody oracle mn tx ns oldApp None cfgs)).
    intros tx w0. unfold updateBody. rewrite bind_unfold.
    by destruct (updateGenConfigsOfFunctionApp _ _ _ _ w0) as [[[]|e|p] w1].
Qed.

Lemma nil_app_faults_after_upserts_witness :
  fst (UpdateApp noFaults sampleNodes "ns" (Some functionApp) None
         [configNamed "baetyl-function-config-a"] functionWorld)
  = Fault (NilDeref 102).
Proof.
  pose proof (nil_app_faults_after_upserts noFaults sampleNodes "ns" None
                (Some functionApp) [configNamed "baetyl-function-config-a"] functionWorld)
    as (_ & _ & H).
  eapply H; [reflexivity|]. vm_compute. repeat constructor.
Defined.

(** *** What a successful operation leaves in the stores *)

Lemma upsertAll_frame ns cfgs : ∀ s,
  apps (upsertAll ns cfgs s) = apps s
  ∧ nodeApps (upsertAll ns cfgs s) = nodeApps s
  ∧ index (upsertAll ns cfgs s) = index s.
Proof.
  unfold upsertAll. induction cfgs as [|cfg cfgs IH]; intros s; [done|].
  simpl. destruct (IH (putConfig ns cfg s)) as (-> & -> & ->). done.
Qed.

Lemma upsertAll_other ns cfgs ns' n : ∀ s,
  ns' ≠ ns ∨ ¬ In n (map cfgName cfgs) ->
  configs (upsertAll ns cfgs s) !! (ns', n) = configs s !! (ns', n).
Proof.
  unfold upsertAll. induction cfgs as [|cfg cfgs IH]; intros s H; [done|].
  simpl. rewrite IH.
  - simpl. apply lookup_insert_ne. intros [= <- <-]. destruct H as [H|H]; [done|].
    apply H. by left.
  - destruct H as [H|H]; [by left|]. right. intros Hin. apply H. by right.
Qed.

Lemma upsertAll_stored ns cfgs cfg : ∀ s,
  NoDup (map cfgName cfgs) -> In cfg cfgs ->
  configs (upsertAll ns cfgs s) !! (ns, cfgName cfg) = Some cfg.
Proof.
  unfold upsertAll. induction cfgs as [|c cfgs IH]; intros s Hnd Hin; [done|].
  simpl in Hnd. apply NoDup_cons in Hnd as [Hc Hnd]. simpl.
  destruct Hin as [->|Hin].
  - change (configs (upsertAll ns cfgs (putConfig ns cfg s)) !! (ns, cfgName cfg)
            = Some cfg).
    rewrite upsertAll_other; [apply lookup_insert_eq|]. right.
    by rewrite <- list_elem_of_In.
  - by apply IH.
Qed.

Lemma survives_In cfgs cfg : In cfg cfgs -> survives cfgs (cfgName cfg) = true.
Proof.
  intros H. unfold survives. apply existsb_exists. exists cfg. split; [done|].
  apply String.eqb_refl.
Qed.

(** The reconciliation does not touch the Configurations of the surviving set. *)
Lemma applyDeletes_survivor (cfgs : list Configuration) (old : Application)
    (evs : list (Call * Reply)) (ns : string) (cfg : Configuration)
    (m : gmap (string * string) Configuration) :
  map fst evs = map (ConfigDelete (aNamespace old)) (staleNames cfgs old) ->
  In cfg cfgs ->
  applyDeletes evs m !! (ns, cfgName cfg) = m !! (ns, cfgName cfg).
Proof.
  intros Hm Hin. apply applyDeletes_other. intros H.
  apply (in_map fst) in H. rewrite Hm in H. simpl in H.
  apply in_map_iff in H as (n & [= _ ->] & Hn).
  apply In_staleNames in Hn as (_ & Hs & _).
  by rewrite survives_In in Hs.
Qed.



(** X11: after a successful [CreateApp] or [UpdateApp], every supplied
    Configuration (their names being distinct) is stored under
    (ns, cfg.Name), with the [ns] of the call; in [UpdateApp] the
    reconciliation of the same call never removes it.  [CreateApp] leaves
    every other Configuration as it was. *)
Theorem supplied_configurations_are_stored :
  ∀ oracle mn ns baseApp old a cfgs w,
    (∀ a' w' cfg,
        CreateApp oracle mn ns baseApp (Some a) cfgs w = (Ret a', w') ->
        NoDup (map cfgName cfgs) -> In cfg cfgs ->
        configs (committed w') !! (ns, cfgName cfg) = Some cfg)
    ∧ (∀ a' w' cfg,
        UpdateApp oracle mn ns (Some old) (Some a) cfgs w = (Ret a', w') ->
        NoDup (map cfgName cfgs) -> In cfg cfgs ->
        configs (committed w') !! (ns, cfgName cfg) = Some cfg)
    ∧ (∀ a' w' ns' n,
        CreateApp oracle mn ns baseApp (Some a) cfgs w = (Ret a', w') ->
        ns' ≠ ns ∨ ¬ In n (map cfgName cfgs) ->
        configs (committed w') !! (ns', n) = configs (committed w) !! (ns', n)).
Proof.
  intros oracle mn ns baseApp old a cfgs w. split_and!.
  - intros a' w' cfg E Hnd Hin. apply CreateApp_Ret in E as [_ ->]. simpl.
    by apply upsertAll_stored.
  - intros a' w' cfg E Hnd Hin. apply UpdateApp_Ret in E as (_ & evs & k & -> & Hm & _).
    simpl. rewrite (applyDeletes_survivor cfgs old evs ns cfg _ Hm Hin).
    destruct (bool_decide (aSelector old ≠ aSelector (effective a))); simpl;
      by apply upsertAll_stored.
  - intros a' w' ns' n E H. apply CreateApp_Ret in E as [_ ->]. simpl.
    by apply upsertAll_other.
Qed.

Lemma supplied_configurations_are_stored_witness :
  configs (committed (snd (UpdateApp noFaults sampleNodes "ns" (Some functionApp)
                             (Some functionApp)
                             [mkConfiguration "baetyl-function-config-a" "elsewhere" "2"]
                             functionWorld)))
    !! ("ns", "baetyl-function-config-a")
  = Some (mkConfiguration "baetyl-function-config-a" "elsewhere" "2").
Proof.
  pose proof (supplied_configurations_are_stored noFaults sampleNodes "ns" None
                functionApp functionApp
                [mkConfiguration "baetyl-function-config-a" "elsewhere" "2"]
                functionWorld) as (_ & H & _).
  eapply (H _ _ (mkConfiguration "baetyl-function-config-a" "elsewhere" "2")).
  - vm_compute. reflexivity.
  - repeat constructor. intros Hin. inversion Hin.
  - by left.
Defined.

Lemma elem_of_node_set (ns ns' n app app' : string) (nodes : list string) :
  (ns', n, app') ∈ (list_to_set (map (fun n => (ns, n, app)) nodes)
                    : gset (string * string * string))
  <-> ns' = ns ∧ app' = app ∧ In n nodes.
Proof.
  rewrite elem_of_list_to_set, list_elem_of_In, in_map_iff. split.
  - intros (x & [= <- <- <-] & Hx). done.
  - intros (-> & -> & Hn). by exists n.
Qed.

(** X12: after a successful [UpdateApp] of an Application under its own
    name, a node carries the Application exactly when it matches the
    persisted selector, or carried it before and was not dropped; a node is
    dropped when the selector changed and the node matched the old one.  As
    the old entries are removed before the new ones are added, a node that
    matches both selectors keeps the Application. *)
Theorem nodes_after_update :
  ∀ oracle mn ns old a cfgs w a' w' n,
    UpdateApp oracle mn ns (Some old) (Some a) cfgs w = (Ret a', w') ->
    aName old = aName a ->
    (ns, n, aName a) ∈ nodeApps (committed w')
    <-> In n (mn ns (aSelector a'))
        ∨ ((ns, n, aName a) ∈ nodeApps (committed w)
           ∧ (aSelector old = aSelector a' ∨ ¬ In n (mn ns (aSelector old)))).
Proof.
  intros oracle mn ns old a cfgs w a' w' n E Hname.
  apply UpdateApp_Ret in E as (-> & evs & k & -> & _). simpl.
  destruct (upsertAll_frame ns cfgs (committed w)) as (_ & Hn & _).
  rewrite elem_of_union, elem_of_node_set, aName_effective.
  case_bool_decide as Hsel; simpl.
  - rewrite elem_of_difference, elem_of_node_set, Hn, Hname. tauto.
  - rewrite Hn. tauto.
Qed.

(** The selector changes from env=prod (N1, N2) to env=staging (N3). *)
Lemma nodes_after_update_witness :
  let w := setCommitted (assignNodes "ns" functionApp ["N1"; "N2"] functionStores)
             functionWorld in
  let a := setSelector functionApp "env=staging" in
  let w' := snd (UpdateApp noFaults sampleNodes "ns" (Some functionApp) (Some a) [] w) in
  ("ns", "N1", "fn") ∈ nodeApps (committed w')
  <-> In "N1" (sampleNodes "ns" "env=staging")
      ∨ (("ns", "N1", "fn") ∈ nodeApps (committed w)
         ∧ ("env=prod" = "env=staging" ∨ ¬ In "N1" (sampleNodes "ns" "env=prod"))).
Proof.
  cbv zeta.
  apply (nodes_after_update noFaults sampleNodes "ns" functionApp
           (setSelector functionApp "env=staging") [] _
           (setSelector functionApp "env=staging")); [|reflexivity].
  etransitivity; [apply surjective_pairing|]. f_equal.
Defined.

(** *** Operations in sequence *)

Lemma GetApp_found oracle ns name version a w :
  apps (committed w) !! (ns, name) = Some a ->
  oracle (length (trace w)) (AppGet ns name version) = Proceed ->
  (aCronStatus a ≠ CronWait -> fst (GetApp oracle ns name version w) = Ret (Some a))
  ∧ (∀ c, aCronStatus a = CronWait ->
          oracle (S (length (trace w))) (CronGet name ns) = Proceed ->
          crons w !! (name, ns) = Some c ->
          fst (GetApp oracle ns name version w)
          = Ret (Some (setSelector a (cSelector c)))).
Proof.
  intros Ha Ho. unfold GetApp, traced, app_Get, cron_GetCron, attempt, invoke.
  rewrite !bind_unfold, Ho, Ha. simpl. split.
  - intros Hw. by rewrite (bool_decide_eq_false_2 _ Hw).
  - intros c Hw Hc Hl. rewrite (bool_decide_eq_true_2 _ Hw), !bind_unfold. simpl.
    rewrite length_app, Nat.add_comm. simpl. by rewrite Hc, Hl.
Qed.

Lemma setSelector_effective a : setSelector (effective a) (aSelector a) = a.
Proof. unfold effective. case_bool_decide; by destruct a. Qed.

(** X13: an Application that [CreateApp] (without a base Application) or
    [UpdateApp] stored is read back by [GetApp] of its latest version (the
    empty version, as [DeleteApp] passes it) as it was supplied, selector
    included, when the stores answer the lookups; for an Application in
    Wait this needs app.Namespace = ns, the Cron record being written under
    app.Namespace and looked up under ns. *)
Theorem stored_application_is_read_back :
  ∀ oracle mn ns old a cfgs w,
    (aCronStatus a = CronWait -> aNamespace a = ns) ->
    (∀ a' w',
        CreateApp oracle mn ns None (Some a) cfgs w = (Ret a', w') ->
        oracle (length (trace w')) (AppGet ns (aName a) "") = Proceed ->
        oracle (S (length (trace w'))) (CronGet (aName a) ns) = Proceed ->
        fst (GetApp oracle ns (aName a) "" w') = Ret (Some a))
    ∧ (∀ a' w',
        UpdateApp oracle mn ns (Some old) (Some a) cfgs w = (Ret a', w') ->
        oracle (length (trace w')) (AppGet ns (aName a) "") = Proceed ->
        oracle (S (length (trace w'))) (CronGet (aName a) ns) = Proceed ->
        fst (GetApp oracle ns (aName a) "" w') = Ret (Some a)).
Proof.
  intros oracle mn ns old a cfgs w Hns.
  assert (Hget : ∀ w',
    apps (committed w') !! (ns, aName a) = Some (effective a) ->
    (aCronStatus a = CronWait -> crons w' !! (aName a, ns) = Some (cronOf a)) ->
    oracle (length (trace w')) (AppGet ns (aName a) "") = Proceed ->
    oracle (S (length (trace w'))) (CronGet (aName a) ns) = Proceed ->
    fst (GetApp oracle ns (aName a) "" w') = Ret (Some a)).
  { intros w' Ha Hc Ho1 Ho2.
    destruct (GetApp_found oracle ns (aName a) "" _ w' Ha Ho1) as [Hplain Hwait].
    rewrite aCronStatus_effective in Hplain, Hwait.
    destruct (decide (aCronStatus a = CronWait)) as [Hw|Hw].
    - rewrite (Hwait (cronOf a) Hw Ho2 (Hc Hw)). simpl. by rewrite setSelector_effective.
    - rewrite (Hplain Hw). unfold effective. by rewrite (bool_decide_eq_false_2 _ Hw). }
  split.
  - intros a' w' E. apply CreateApp_Ret in E as [_ ->]. apply Hget; simpl.
    + destruct (upsertAll_frame ns cfgs (committed w)) as (-> & _).
      rewrite aName_effective. apply lookup_insert_eq.
    + intros Hw. rewrite (bool_decide_eq_true_2 _ Hw), (Hns Hw). apply lookup_insert_eq.
  - intros a' w' E. apply UpdateApp_Ret in E as (_ & evs & k & -> & _). apply Hget; simpl.
    + destruct (bool_decide (aSelector old ≠ aSelector (effective a))); simpl;
        rewrite aName_effective; apply lookup_insert_eq.
    + intros Hw. rewrite (bool_decide_eq_true_2 _ Hw), Hw, (Hns Hw). simpl.
      rewrite andb_false_r. apply lookup_insert_eq.
Qed.

Lemma stored_application_is_read_back_witness :
  fst (GetApp noFaults "ns" "app1" ""
         (snd (UpdateApp noFaults sampleNodes "ns" (Some scheduledApp) (Some waitingApp) []
                 emptyWorld)))
  = Ret (Some waitingApp).
Proof.
  pose proof (stored_application_is_read_back noFaults sampleNodes "ns"
                scheduledApp waitingApp [] emptyWorld (fun _ => eq_refl)) as (_ & H).
  eapply H; [vm_compute; reflexivity | reflexivity | reflexivity].
Defined.

(** *** The Cron store and the dirty-data log in every run *)

(** X15: in every run of the four operations, whether it returns, fails
    or faults, the dirty-data log grows by exactly one record for each
    Configuration deletion of the run that failed, in the order of the calls
    and with the error, the namespace and the name of that call, and the
    Cron store is changed by nothing but the Cron calls of the run that were
    carried out. *)
Theorem stores_follow_the_calls :
  ∀ oracle mn ns name version baseApp oldApp app cfgs w,
    journal w (snd (GetApp oracle ns name version w))
    ∧ journal w (snd (CreateApp oracle mn ns baseApp app cfgs w))
    ∧ journal w (snd (UpdateApp oracle mn ns oldApp app cfgs w))
    ∧ journal w (snd (DeleteApp oracle mn ns name app w)).
Proof.
  intros. split_and!.
  - apply journaled_GetApp.
  - apply CreateApp_journal.
  - apply UpdateApp_journal.
  - apply DeleteApp_journal.
Qed.

Lemma applyCrons_only_insert (Q : Prop) (c : Cron) evs :
  Forall (fun ev : Call * Reply =>
            match fst ev with
            | CronCreate c' | CronUpdate c' => c' = c ∧ Q
            | CronDelete _ _ => False
            | _ => True
            end) evs ->
  ∀ m, applyCrons evs m = m
       ∨ (Q ∧ applyCrons evs m = <[(cName c, cNamespace c) := c]> m).
Proof.
  induction 1 as [|[c0 r] evs Hev _ IH]; intros m; [by left|].
  simpl in Hev |- *.
  destruct c0; try apply IH; try done; destruct Hev as [-> HQ];
    (destruct r; try apply IH;
     destruct (IH (<[(cName c, cNamespace c) := c]> m)) as [->|[_ ->]];
     right; by rewrite ?insert_insert_eq).
Qed.

Lemma applyCrons_only_delete (Q : Prop) (k : string * string) evs :
  Forall (fun ev : Call * Reply =>
            match fst ev with
            | CronCreate _ | CronUpdate _ => False
            | CronDelete name ns => (name, ns) = k ∧ Q
            | _ => True
            end) evs ->
  ∀ m, applyCrons evs m = m ∨ (Q ∧ applyCrons evs m = delete k m).
Proof.
  induction 1 as [|[c0 r] evs Hev _ IH]; intros m; [by left|].
  simpl in Hev |- *.
  destruct c0; try apply IH; try done. destruct Hev as [<- HQ].
  destruct r; try apply IH.
  destruct (IH (delete (name, ns) m)) as [->|[_ ->]];
    right; by rewrite ?delete_delete_eq.
Qed.

Lemma diagnostics_none evs :
  Forall (fun ev : Call * Reply => isConfigDelete (fst ev) = false) evs ->
  diagnostics evs = [].
Proof.
  induction 1 as [|[c r] evs Hev _ IH]; [done|]. simpl in *. rewrite IH.
  by destruct c.
Qed.

(** X16: in every run, whether it returns, fails or faults, [CreateApp]
    leaves the Cron store as it was or with the one record of the waiting
    Application written, and logs no dirty data; [UpdateApp] leaves it as it
    was, with that record written, or (old state Wait, new state NotSet) with
    the record (app.Name, ns) deleted; [DeleteApp] leaves it as it was or,
    for an Application in Wait, with the record (name, ns) deleted.  No other
    Cron record is ever touched. *)
Theorem cron_store_in_every_run :
  ∀ oracle mn ns name baseApp old a cfgs w,
    let created := snd (CreateApp oracle mn ns baseApp (Some a) cfgs w) in
    let updated := snd (UpdateApp oracle mn ns (Some old) (Some a) cfgs w) in
    let deleted := snd (DeleteApp oracle mn ns name (Some a) w) in
    (crons created = crons w
     ∨ (aCronStatus a = CronWait
        ∧ crons created = <[(aName a, aNamespace a) := cronOf a]> (crons w)))
    ∧ dirty created = dirty w
    ∧ (crons updated = crons w
       ∨ (aCronStatus a = CronWait
          ∧ crons updated = <[(aName a, aNamespace a) := cronOf a]> (crons w))
       ∨ (aCronStatus old = CronWait ∧ aCronStatus a = CronNotSet
          ∧ crons updated = delete (aName a, ns) (crons w)))
    ∧ (crons deleted = crons w
       ∨ (aCronStatus a = CronWait ∧ crons deleted = delete (name, ns) (crons w))).
Proof.
  intros oracle mn ns name baseApp old a cfgs w created updated deleted.
  subst created updated deleted.
  assert (Hcreate := CreateApp_bracketed oracle mn ns baseApp (Some a) cfgs w).
  assert (Hupdate := UpdateApp_bracketed oracle mn ns (Some old) (Some a) cfgs w).
  assert (Hdelete := DeleteApp_bracketed oracle mn ns name (Some a) w).
  destruct (CreateApp_journal oracle mn ns baseApp (Some a) cfgs w)
    as (ec & Hc1 & Hc2 & Hc3).
  destruct (UpdateApp_journal oracle mn ns (Some old) (Some a) cfgs w)
    as (eu & Hu1 & Hu2 & _).
  destruct (DeleteApp_journal oracle mn ns name (Some a) w) as (ed & Hd1 & Hd2 & _).
  eapply bracketed_events in Hcreate; [|exact Hc1].
  eapply bracketed_events in Hupdate; [|exact Hu1].
  eapply bracketed_events in Hdelete; [|exact Hd1].
  split_and!.
  - rewrite Hc2.
    apply (applyCrons_only_insert (aCronStatus a = CronWait) (cronOf a)).
    eapply Forall_impl; [exact Hcreate|]. intros [c r] [H|H]; simpl in *.
    + destruct c; try done. destruct H as (a0 & [= <-] & ? & ->). done.
    + by destruct c.
  - rewrite Hc3, diagnostics_none; [by rewrite app_nil_r|].
    eapply Forall_impl; [exact Hcreate|]. intros [c r] [H|H]; simpl in *; by destruct c.
  - rewrite Hu2. destruct (decide (aCronStatus a = CronWait)) as [Hw|Hw].
    + destruct (applyCrons_only_insert (aCronStatus a = CronWait) (cronOf a) eu)
        with (m := crons w) as [->|[_ ->]]; [|by left|right; by left].
      eapply Forall_impl; [exact Hupdate|]. intros [c r] [H|H]; simpl in *.
      * destruct c; try done.
        -- destruct H as (a0 & [= <-] & ? & ->). done.
        -- destruct H as (? & a0 & _ & [= <-] & _ & Hn & _). congruence.
      * by destruct c.
    + destruct (applyCrons_only_delete
                  (aCronStatus old = CronWait ∧ aCronStatus a = CronNotSet)
                  (aName a, ns) eu) with (m := crons w) as [->|[[? ?] ->]];
        [|by left|right; right; done].
      eapply Forall_impl; [exact Hupdate|]. intros [c r] [H|H]; simpl in *.
      * destruct c; try done.
        -- destruct H as (a0 & [= <-] & ? & _). done.
        -- destruct H as (o0 & a0 & [= <-] & [= <-] & ? & ? & -> & ->). done.
      * by destruct c.
  - rewrite Hd2.
    apply (applyCrons_only_delete (aCronStatus a = CronWait) (name, ns)).
    eapply Forall_impl; [exact Hdelete|]. intros [c r] [H|H]; simpl in *.
    + destruct c; try done. destruct H as (a0 & [= <-] & ? & -> & ->). done.
    + by destruct c.
Qed.

Lemma diagnostics_Forall (P : DirtyData -> Prop) evs :
  (∀ ns n e, In (ConfigDelete ns n, Failed e) evs ->
             P (mkDirtyData e ConfigResource ns n)) ->
  Forall P (diagnostics evs).
Proof.
  intros H. apply Forall_forall. intros d Hd.
  apply list_elem_of_In, in_flat_map in Hd as ([c r] & Hin & Hd).
  destruct c; try done. destruct r; try done. destruct Hd as [<-|[]]. by apply H.
Qed.

Lemma stale_volume_name cfgs old n :
  In n (volumeConfigs old) -> isStale (survivors cfgs) n = true ->
  In n (staleNames cfgs old).
Proof.
  intros Hv Hs. unfold staleNames. apply list_elem_of_In, list_elem_of_filter.
  split; [done | by apply list_elem_of_In].
Qed.

(** X17: in every run of [UpdateApp] and [DeleteApp] each dirty-data
    record that is added has the Configuration type, the namespace of the
    old Application and the name of one of its stale generated
    Configurations; nothing is ever logged about a surviving or a
    user-authored Configuration. *)
Theorem dirty_records_name_stale_configurations :
  ∀ oracle mn ns name old a cfgs w,
    (∃ ds, dirty (snd (UpdateApp oracle mn ns (Some old) (Some a) cfgs w)) = dirty w ++ ds
       ∧ Forall (fun d => ddType d = ConfigResource
                          ∧ ddNamespace d = aNamespace old
                          ∧ In (ddName d) (staleNames cfgs old)) ds)
    ∧ (∃ ds, dirty (snd (DeleteApp oracle mn ns name (Some a) w)) = dirty w ++ ds
         ∧ Forall (fun d => ddType d = ConfigResource
                            ∧ ddNamespace d = aNamespace a
                            ∧ In (ddName d) (staleNames [] a)) ds).
Proof.
  intros oracle mn ns name old a cfgs w. split.
  - assert (Hb := UpdateApp_bracketed oracle mn ns (Some old) (Some a) cfgs w).
    destruct (UpdateApp_journal oracle mn ns (Some old) (Some a) cfgs w)
      as (evs & Hc & _ & Hd).
    eapply bracketed_events in Hb; [|exact Hc].
    exists (diagnostics evs). split; [exact Hd|].
    apply diagnostics_Forall. intros dns n e Hin. rewrite Forall_forall in Hb.
    apply list_elem_of_In, Hb in Hin as [Hin|Hin]; [|done]. simpl in Hin.
    destruct Hin as (old0 & [= <-] & -> & Hv & Hs). simpl.
    split_and!; [done..|]. by apply stale_volume_name.
  - assert (Hb := DeleteApp_bracketed oracle mn ns name (Some a) w).
    destruct (DeleteApp_journal oracle mn ns name (Some a) w) as (evs & Hc & _ & Hd).
    eapply bracketed_events in Hb; [|exact Hc].
    exists (diagnostics evs). split; [exact Hd|].
    apply diagnostics_Forall. intros dns n e Hin. rewrite Forall_forall in Hb.
    apply list_elem_of_In, Hb in Hin as [Hin|Hin]; [|done]. simpl in Hin.
    destruct Hin as (a0 & [= <-] & -> & Hv & Hs). simpl.
    split_and!; [done..|]. by apply stale_volume_name.
Qed.

(** *** The steps of a successful operation *)

(** X18: the calls of a successful operation, in order.  [CreateApp]:
    begin, one upsert for each supplied Configuration, the creation of the
    Cron record when the Application is in Wait, the creation of the
    Application with the base as supplied, the node update, the index
    refresh, commit.  [UpdateApp]: begin, the upserts, the Cron upsert (Wait),
    the Cron deletion (Wait to NotSet), the Application update, the removal of
    the old node and index entries (selector changed), the node update, the
    index refresh, one deletion for each stale Configuration, commit.
    [DeleteApp]: begin, the Cron deletion (Wait), the deletion of the
    Application with an empty version, the node and index removal, the
    deletions, commit. *)
Theorem calls_of_a_successful_run :
  ∀ oracle mn ns name baseApp old a cfgs w,
    let p := effective a in
    let nodes := mn ns (aSelector p) in
    let wait := bool_decide (aCronStatus a = CronWait) in
    (∀ a' w', CreateApp oracle mn ns baseApp (Some a) cfgs w = (Ret a', w') ->
        ∃ evs, continues w w' evs
          ∧ Forall (fun ev => snd ev = Done) evs
          ∧ map fst evs
            = TxBegin :: map (ConfigUpsert ns) cfgs
              ++ (if wait then [CronCreate (cronOf a)] else [])
              ++ [AppCreateWithBase ns p baseApp; NodeUpdateAppVersion ns p;
                  IndexRefresh ns (aName a) nodes; TxCommit])
    ∧ (∀ a' w', UpdateApp oracle mn ns (Some old) (Some a) cfgs w = (Ret a', w') ->
        ∃ evs, continues w w' evs
          ∧ map fst evs
            = TxBegin :: map (ConfigUpsert ns) cfgs
              ++ (if wait then [CronUpdate (cronOf a)] else [])
              ++ (if bool_decide (aCronStatus old = CronWait)
                     && bool_decide (aCronStatus a = CronNotSet)
                  then [CronDelete (aName a) ns] else [])
              ++ [AppUpdate ns p]
              ++ (if bool_decide (aSelector old ≠ aSelector p)
                  then [NodeDeleteAppVersion ns old; IndexRefresh ns (aName old) []]
                  else [])
              ++ [NodeUpdateAppVersion ns p; IndexRefresh ns (aName a) nodes]
              ++ map (ConfigDelete (aNamespace old)) (staleNames cfgs old)
              ++ [TxCommit])
    ∧ (∀ w', DeleteApp oracle mn ns name (Some a) w = (Ret tt, w') ->
        ∃ evs, continues w w' evs
          ∧ map fst evs
            = TxBegin :: (if wait then [CronDelete name ns] else [])
              ++ [AppDelete ns name ""; NodeDeleteAppVersion ns a;
                  IndexRefresh ns (aName a) []]
              ++ map (ConfigDelete (aNamespace a)) (staleNames [] a)
              ++ [TxCommit]).
Proof.
  intros oracle mn ns name baseApp old a cfgs w p nodes wait. subst p nodes wait.
  split_and!.
  - intros a' w' E. apply CreateApp_Ret in E as [_ ->].
    eexists. split; [reflexivity|]. split.
    + apply Forall_cons. split; [done|]. rewrite !Forall_app. split_and!.
      * apply Forall_forall. intros ev Hin. apply list_elem_of_In, in_map_iff in Hin.
        by destruct Hin as (cfg & <- & _).
      * destruct (bool_decide (aCronStatus a = CronWait)); by repeat constructor.
      * by repeat constructor.
    + simpl. rewrite !map_app, map_map. simpl.
      by destruct (bool_decide (aCronStatus a = CronWait)).
  - intros a' w' E. apply UpdateApp_Ret in E as (_ & evs & k & -> & Hm & _).
    eexists. split; [reflexivity|].
    simpl. rewrite !map_app, map_map, Hm. simpl.
    destruct (bool_decide (aCronStatus a = CronWait)),
      (bool_decide (aCronStatus old = CronWait) && bool_decide (aCronStatus a = CronNotSet)),
      (bool_decide (aSelector old ≠ aSelector (effective a))); simpl;
      by rewrite <- ?app_assoc.
  - intros w' E. apply DeleteApp_Ret in E as (evs & k & -> & Hm & _).
    eexists. split; [reflexivity|].
    rewrite map_cons, !map_app, Hm. simpl.
    by destruct (bool_decide (aCronStatus a = CronWait)).
Qed.

Lemma calls_of_a_successful_run_witness :
  ∃ evs, continues functionWorld
           (snd (DeleteApp noFaults sampleNodes "ns" "fn" (Some functionApp) functionWorld))
           evs
    ∧ map fst evs
      = [TxBegin; AppDelete "ns" "fn" ""; NodeDeleteAppVersion "ns" functionApp;
         IndexRefresh "ns" "fn" [];
         ConfigDelete "ns" "baetyl-function-config-a";
         ConfigDelete "ns" "baetyl-function-program-config-b"; TxCommit].
Proof.
  pose proof (calls_of_a_successful_run noFaults sampleNodes "ns" "fn" None functionApp
                functionApp [] functionWorld) as (_ & _ & H).
  apply H. etransitivity; [apply surjective_pairing|]. f_equal.
Defined.

(** *** The helpers of the facade *)

(** X19: [updateGenConfigsOfFunctionApp] upserts the Configurations in
    order and stops at the first upsert that fails: it returns that error,
    the Configurations before the failing one are in the transaction's copy,
    and no later Configuration is upserted.  When it returns without error
    every Configuration was upserted. *)
Theorem upserts_stop_at_first_failure :
  ∀ oracle tx ns cfgs w s,
    pending w = Some s ->
    (∀ e w', updateGenConfigsOfFunctionApp oracle tx ns cfgs w = (Fail e, w') ->
       ∃ before cfg rest,
         cfgs = before ++ cfg :: rest
         ∧ continues w w' (map (fun c => (ConfigUpsert ns c, Done)) before
                             ++ [(ConfigUpsert ns cfg, Failed e)])
         ∧ pending w' = Some (upsertAll ns before s))
    ∧ (∀ w', updateGenConfigsOfFunctionApp oracle tx ns cfgs w = (Ret tt, w') ->
         continues w w' (map (fun c => (ConfigUpsert ns c, Done)) cfgs)
         ∧ pending w' = Some (upsertAll ns cfgs s)).
Proof.
  intros oracle tx ns cfgs w s Hs. split.
  2:{ intros w' E. apply (updateGen_Ret oracle tx ns cfgs w s) in E; [|done].
      by subst w'. }
  revert w s Hs. unfold updateGenConfigsOfFunctionApp.
  induction cfgs as [|cfg cfgs IH]; intros w s Hs e w' E; [done|].
  simpl in E. rewrite !bind_unfold in E. unfold config_Upsert, invoke, onTx in E.
  rewrite Hs in E.
  destruct (oracle (length (trace w)) (ConfigUpsert ns cfg)) eqn:Ho; simpl in E.
  - apply IH with (s := putConfig ns cfg s) in E; [|done].
    destruct E as (before & c & rest & -> & Hc & Hp).
    exists (cfg :: before), c, rest. split_and!; [done | | done].
    unfold continues in *. simpl in *. rewrite Hc, <- app_assoc. done.
  - injection E as <- <-. exists [], cfg, cfgs. by split_and!.
  - done.
Qed.

Lemma upserts_stop_at_first_failure_witness :
  ∃ before cfg rest,
    [configNamed "a"; configNamed "b"; configNamed "c"] = before ++ cfg :: rest
    ∧ continues (setPending (Some emptyStores) emptyWorld)
        (snd (updateGenConfigsOfFunctionApp (failAt 1) TxHandle "ns"
                [configNamed "a"; configNamed "b"; configNamed "c"]
                (setPending (Some emptyStores) emptyWorld)))
        (map (fun c => (ConfigUpsert "ns" c, Done)) before
           ++ [(ConfigUpsert "ns" cfg, Failed (ErrForced 1))])
    ∧ pending (snd (updateGenConfigsOfFunctionApp (failAt 1) TxHandle "ns"
                      [configNamed "a"; configNamed "b"; configNamed "c"]
                      (setPending (Some emptyStores) emptyWorld)))
      = Some (upsertAll "ns" before emptyStores).
Proof.
  pose proof (upserts_stop_at_first_failure (failAt 1) TxHandle "ns"
                [configNamed "a"; configNamed "b"; configNamed "c"]
                (setPending (Some emptyStores) emptyWorld) emptyStores eq_refl) as (H & _).
  apply H. etransitivity; [apply surjective_pairing|]. f_equal.
Defined.

(** X20: [UpdateNodeAndAppIndex] refreshes the index of the Application
    only when the node update and the refresh succeeded, and then to the very
    node list the node collaborator returned; [DeleteNodeAndAppIndex]
    refreshes it, on success, to the empty list.  When either function
    returns an error or faults, the index in the transaction's copy is as it
    was. *)
Theorem index_refreshed_only_on_success :
  ∀ oracle mn tx ns a w s,
    pending w = Some s ->
    let updated := UpdateNodeAndAppIndex oracle mn tx ns a w in
    let deleted := DeleteNodeAndAppIndex oracle mn tx ns a w in
    index <$> pending (snd updated)
    = Some (match fst updated with
            | Ret _ => <[(ns, aName a) := mn ns (aSelector a)]> (index s)
            | _ => index s
            end)
    ∧ index <$> pending (snd deleted)
      = Some (match fst deleted with
              | Ret _ => <[(ns, aName a) := []]> (index s)
              | _ => index s
              end).
Proof.
  intros oracle mn tx ns a w s Hs updated deleted. subst updated deleted.
  unfold UpdateNodeAndAppIndex, DeleteNodeAndAppIndex, node_UpdateNodeAppVersion,
    node_DeleteNodeAppVersion, index_RefreshNodesIndexByApp, invoke, onTx.
  rewrite !bind_unfold, Hs. split.
  - destruct (oracle (length (trace w)) (NodeUpdateAppVersion ns a)); simpl;
      [|by rewrite Hs..].
    destruct (oracle _ (IndexRefresh _ _ _)); done.
  - destruct (oracle (length (trace w)) (NodeDeleteAppVersion ns a)); simpl;
      [|by rewrite Hs..].
    destruct (oracle _ (IndexRefresh _ _ _)); done.
Qed.

Lemma index_refreshed_only_on_success_witness :
  index <$> pending (snd (UpdateNodeAndAppIndex (failAt 1) sampleNodes TxHandle "ns"
                            functionApp (setPending (Some functionStores) functionWorld)))
  = Some (index functionStores).
Proof.
  pose proof (index_refreshed_only_on_success (failAt 1) sampleNodes TxHandle "ns"
                functionApp (setPending (Some functionStores) functionWorld)
                functionStores eq_refl) as [H _].
  exact H.
Defined.
